(** * K-means clustering engines: serial reference and TBB-based engine

    Shallow embedding of [02-kmeans/serial/implementation.hpp] and
    [02-kmeans/framework/implementation.hpp] (template instance
    [KMeans<point_t, std::uint8_t>]), with the properties the
    specification states about them.

    Conventions of the embedding:
    - [std::int64_t] values are integers of [Z]; every arithmetic operation
      is followed by the reduction to the signed 64-bit range ([to_int64]).
    - [std::size_t] values (indices, sizes, counters) are [nat]: all of them
      are bounded by the size of some vector.
    - [std::uint8_t] assignment values are [nat], produced by [to_uint8].
    - a [std::vector] is a [list]; [v[i]] is a checked access that yields the
      fault [OutOfBounds] when [i] is not below the size of the vector (the
      C++ program has undefined behaviour there).
    - the scheduling decisions of [tbb::parallel_for] and
      [tbb::parallel_reduce] are an explicit parameter of the TBB engine. *)

From stdpp Require Import base numbers option list gmap strings.

(** ** Machine integers *)

Definition to_int64 (z : Z) : Z := ((z + 2 ^ 63) `mod` 2 ^ 64 - 2 ^ 63)%Z.
Definition add64 (a b : Z) : Z := to_int64 (a + b).
Definition sub64 (a b : Z) : Z := to_int64 (a - b).
Definition mul64 (a b : Z) : Z := to_int64 (a * b).
(** [/] of C++ on signed integers truncates toward zero. *)
Definition div64 (a b : Z) : Z := to_int64 (a `quot` b).
(** [(std::int64_t)n] for a [std::size_t] n. *)
Definition size_to_int64 (n : nat) : Z := to_int64 (Z.of_nat n).
(** [(ASGN)n] with [ASGN = std::uint8_t]. *)
Definition to_uint8 (n : nat) : nat := n `mod` 256.

Definition int64_range (z : Z) : Prop := (- 2 ^ 63 ≤ z < 2 ^ 63)%Z.

(** ** Points (interface.hpp) *)

Record point_t := Point { x : Z; y : Z }.

Global Instance point_eq_dec : EqDecision point_t.
Proof. solve_decision. Defined.

(** A value-initialised [point_t]. *)
Definition point_zero : point_t := Point 0 0.

(** ** Checked vector accesses *)

Inductive vec := Points | Centroids | Assignments | Sums | Counts | TempAssignments.

Inductive outcome (A : Type) : Type :=
  | Done (a : A)
  | OutOfBounds (v : vec).
Arguments Done {A} a.
Arguments OutOfBounds {A} v.

Global Instance outcome_ret : MRet outcome := @Done.
Global Instance outcome_bind : MBind outcome := λ A B f m,
  match m with
  | Done a => f a
  | OutOfBounds v => OutOfBounds v
  end.

(** [v[i]] as an rvalue. *)
Definition vec_at {A} (name : vec) (v : list A) (i : nat) : outcome A :=
  match v !! i with
  | Some a => Done a
  | None => OutOfBounds name
  end.

(** [v[i] = a]. *)
Definition vec_set {A} (name : vec) (v : list A) (i : nat) (a : A) : outcome (list A) :=
  if decide (i < length v) then Done (<[i:=a]> v) else OutOfBounds name.

(** A loop whose body runs once for every index of [order], in that order.
    [for (i = 0; i < n; ++i) body] is [for_each (seq 0 n) body]. *)
Fixpoint for_each {S : Type} (order : list nat) (body : nat → S → outcome S) (s : S)
  : outcome S :=
  match order with
  | [] => Done s
  | i :: rest => s' ← body i s; for_each rest body s'
  end.

(** ** Distance and nearest-centroid search (identical in both engines) *)

Definition distance (point centroid : point_t) : Z :=
  let dx := sub64 (x point) (x centroid) in
  let dy := sub64 (y point) (y centroid) in
  add64 (mul64 dx dx) (mul64 dy dy).

(** The loop of [getNearestCluster] from index [i] on, over the centroids
    that remain. *)
Fixpoint nearest_scan (point : point_t) (rest : list point_t)
    (i : nat) (minDist : Z) (nearest : nat) : nat :=
  match rest with
  | [] => nearest
  | c :: rest' =>
      let dist := distance point c in
      if (dist <? minDist)%Z
      then nearest_scan point rest' (S i) dist i
      else nearest_scan point rest' (S i) minDist nearest
  end.

Definition getNearestCluster (point : point_t) (centroids : list point_t) : outcome nat :=
  c0 ← vec_at Centroids centroids 0;
  Done (nearest_scan point (drop 1 centroids) 1 (distance point c0) 0).

(** ** The serial engine (serial/implementation.hpp) *)

Module Serial.

Record engine := Engine { sums : list point_t; counts : list nat }.

Definition init (points k iters : nat) (e : engine) : engine :=
  {| sums := resize k point_zero (sums e);
     counts := resize k 0 (counts e) |}.

(** The variables [compute] works on: the two members of the engine and the
    two output vectors. *)
Record state := State {
  st_sums : list point_t;
  st_counts : list nat;
  st_centroids : list point_t;
  st_assignments : list nat
}.

Definition seed_body (points : list point_t) (i : nat) (centroids : list point_t)
  : outcome (list point_t) :=
  p ← vec_at Points points i;
  vec_set Centroids centroids i p.

Definition reset_body (i : nat) (st : state) : outcome state :=
  s ← vec_set Sums (st_sums st) i point_zero;
  c ← vec_set Counts (st_counts st) i 0;
  Done (State s c (st_centroids st) (st_assignments st)).

Definition assign_body (points : list point_t) (i : nat) (st : state) : outcome state :=
  p ← vec_at Points points i;
  nearest ← getNearestCluster p (st_centroids st);
  a ← vec_set Assignments (st_assignments st) i (to_uint8 nearest);
  s ← vec_at Sums (st_sums st) nearest;
  sums' ← vec_set Sums (st_sums st) nearest (Point (add64 (x s) (x p)) (add64 (y s) (y p)));
  c ← vec_at Counts (st_counts st) nearest;
  counts' ← vec_set Counts (st_counts st) nearest (S c);
  Done (State sums' counts' (st_centroids st) a).

Definition update_body (i : nat) (st : state) : outcome state :=
  c ← vec_at Counts (st_counts st) i;
  if decide (c = 0) then Done st
  else
    s ← vec_at Sums (st_sums st) i;
    let n := size_to_int64 c in
    cs ← vec_set Centroids (st_centroids st) i (Point (div64 (x s) n) (div64 (y s) n));
    Done (State (st_sums st) (st_counts st) cs (st_assignments st)).

(** One pass of the body of [while (iters > 0)]. *)
Definition iteration (points : list point_t) (k : nat) (st : state) : outcome state :=
  st1 ← for_each (seq 0 k) reset_body st;
  st2 ← for_each (seq 0 (length points)) (assign_body points) st1;
  for_each (seq 0 k) update_body st2.

Fixpoint refine (points : list point_t) (k iters : nat) (st : state) : outcome state :=
  match iters with
  | 0 => Done st
  | S iters' => st' ← iteration points k st; refine points k iters' st'
  end.

(** [compute]: the vectors [centroids] and [assignments] are the caller's
    and are resized on entry; the result is the engine after the call and
    the two vectors. *)
Definition compute (e : engine) (points : list point_t) (k iters : nat)
    (centroids : list point_t) (assignments : list nat)
  : outcome (engine * list point_t * list nat) :=
  let centroids := resize k point_zero centroids in
  let assignments := resize (length points) 0 assignments in
  centroids ← for_each (seq 0 k) (seed_body points) centroids;
  st ← refine points k iters (State (sums e) (counts e) centroids assignments);
  Done (Engine (st_sums st) (st_counts st), st_centroids st, st_assignments st).

End Serial.

(** ** The TBB engine (framework/implementation.hpp) *)

Module Framework.

Record engine := Engine { temp_assignments : list (list point_t); POINTS_SIZE : nat }.

(** [while (k--) temp_assignments.push_back({})]. *)
Fixpoint push_empty (k : nat) (v : list (list point_t)) : list (list point_t) :=
  match k with
  | 0 => v
  | S k' => push_empty k' (v ++ [[]])
  end.

Definition init (points k iters : nat) (e : engine) : engine :=
  {| POINTS_SIZE := points;
     temp_assignments := push_empty k (temp_assignments e) |}.

(** *** Scheduling

    [tbb::parallel_for] cuts its range into chunks and runs them on the
    worker pool; [push_back] on a [tbb::concurrent_vector] is atomic. A run
    of a [parallel_for] is therefore described by the order in which the
    indices of the range take effect. [tbb::parallel_reduce] applies the
    range body to consecutive chunks, continuing from the value of the body
    object, and joins the value of a split body (which started from the
    identity) into it. *)

Inductive reduce_plan :=
  | Finish
  | Chunk (m : nat) (rest : reduce_plan)
  | Fork (child : reduce_plan) (m : nat) (rest : reduce_plan).

(** A schedule rearranges the index range of each [parallel_for] and gives
    the plan of the [parallel_reduce] of every cluster. *)
Record schedule := Schedule {
  assign_order : list nat → list nat;
  update_order : list nat → list nat;
  plan_of : nat → reduce_plan
}.

(** Every index of a range runs exactly once. *)
Definition valid_schedule (s : schedule) : Prop :=
  (∀ l, assign_order s l ≡ₚ l) ∧ (∀ l, update_order s l ≡ₚ l).

(** One worker, one chunk per loop. *)
Definition sequential_schedule : schedule :=
  Schedule id id (λ _, Finish).

(** Indices taken from the end of the range, reductions split after every
    element. *)
Fixpoint fork_every (n : nat) : reduce_plan :=
  match n with
  | 0 => Finish
  | S n' => Fork Finish 1 (fork_every n')
  end.

Definition reversed_schedule : schedule :=
  Schedule reverse reverse (λ _, fork_every 8).

(** The range body and the join of the [parallel_reduce] call. *)
Definition reduce_body (elems : list point_t) (p : point_t) : point_t :=
  foldl (λ p q, Point (add64 (x p) (x q)) (add64 (y p) (y q))) p elems.

Definition reduce_join (f s : point_t) : point_t :=
  Point (add64 (x f) (x s)) (add64 (y f) (y s)).

Fixpoint parallel_reduce (plan : reduce_plan) (identity value : point_t)
    (elems : list point_t) : point_t :=
  match plan with
  | Finish => reduce_body elems value
  | Chunk m rest =>
      parallel_reduce rest identity (reduce_body (take m elems) value) (drop m elems)
  | Fork child m rest =>
      let split := parallel_reduce child identity identity (take m elems) in
      parallel_reduce rest identity (reduce_join value split) (drop m elems)
  end.

Record state := State {
  st_temp : list (list point_t);
  st_centroids : list point_t;
  st_assignments : list nat
}.

Definition seed_body (points : list point_t) (i : nat) (centroids : list point_t)
  : outcome (list point_t) :=
  p ← vec_at Points points i;
  vec_set Centroids centroids i p.

Definition clear_body (i : nat) (st : state) : outcome state :=
  t ← vec_set TempAssignments (st_temp st) i [];
  Done (State t (st_centroids st) (st_assignments st)).

(** Body of the first [parallel_for]; [last] is [iters == 0] after the
    decrement. *)
Definition assign_body (points : list point_t) (last : bool) (i : nat) (st : state)
  : outcome state :=
  p ← vec_at Points points i;
  nearest ← getNearestCluster p (st_centroids st);
  a ← (if last then vec_set Assignments (st_assignments st) i (to_uint8 nearest)
       else Done (st_assignments st));
  t ← vec_at TempAssignments (st_temp st) (to_uint8 nearest);
  temp' ← vec_set TempAssignments (st_temp st) (to_uint8 nearest) (t ++ [p]);
  Done (State temp' (st_centroids st) a).

(** Body of the second [parallel_for]. *)
Definition update_body (plan_of : nat → reduce_plan) (i : nat) (st : state)
  : outcome state :=
  t ← vec_at TempAssignments (st_temp st) i;
  let cluster_size := length t in
  if decide (cluster_size = 0) then Done st
  else
    let result := parallel_reduce (plan_of i) point_zero point_zero t in
    let n := size_to_int64 cluster_size in
    cs ← vec_set Centroids (st_centroids st) i
           (Point (div64 (x result) n) (div64 (y result) n));
    Done (State (st_temp st) cs (st_assignments st)).

(** One pass of the body of [while (iters > 0)]; [size] is [POINTS_SIZE]. *)
Definition iteration (s : schedule) (size : nat) (points : list point_t) (k : nat)
    (last : bool) (st : state) : outcome state :=
  st1 ← for_each (seq 0 k) clear_body st;
  st2 ← for_each (assign_order s (seq 0 size)) (assign_body points last) st1;
  for_each (update_order s (seq 0 k)) (update_body (plan_of s)) st2.

(** [sched j] schedules the iteration that follows [j] completed ones. *)
Fixpoint refine (sched : nat → schedule) (size : nat) (points : list point_t)
    (k iters j : nat) (st : state) : outcome state :=
  match iters with
  | 0 => Done st
  | S iters' =>
      st' ← iteration (sched j) size points k (bool_decide (iters' = 0)) st;
      refine sched size points k iters' (S j) st'
  end.

Definition compute (sched : nat → schedule) (e : engine) (points : list point_t)
    (k iters : nat) (centroids : list point_t) (assignments : list nat)
  : outcome (engine * list point_t * list nat) :=
  let centroids := resize k point_zero centroids in
  let assignments := resize (length points) 0 assignments in
  centroids ← for_each (seq 0 k) (seed_body points) centroids;
  st ← refine sched (POINTS_SIZE e) points k iters 0
         (State (temp_assignments e) centroids assignments);
  Done (Engine (st_temp st) (POINTS_SIZE e), st_centroids st, st_assignments st).

End Framework.


(** The two output vectors of a [compute] call. *)
Definition outputs {E} (r : outcome (E * list point_t * list nat))
  : outcome (list point_t * list nat) :=
  '(_, centroids, assignments) ← r; Done (centroids, assignments).

(** ** Notions used in the statements *)

(** The exact squared Euclidean distance. *)
Definition sqdist (p c : point_t) : Z := ((x p - x c) ^ 2 + (y p - y c) ^ 2)%Z.

(** [i] is the least index at which [d] is minimal over [cs]. *)
Definition least_argmin (d : point_t → Z) (cs : list point_t) (i : nat) : Prop :=
  ∃ ci, cs !! i = Some ci ∧
    ∀ j c, cs !! j = Some c → (d ci ≤ d c)%Z ∧ (j < i → (d ci < d c)%Z).

(** The points whose assignment is [c]. *)
Definition assigned_to (points : list point_t) (assignments : list nat) (c : nat)
  : list point_t :=
  (filter (λ pa, pa.2 = c) (zip points assignments)).*1.

(** Exact sum of a list of integers, and the sum as 64-bit additions give it. *)
Definition sumZ (zs : list Z) : Z := foldr Z.add 0%Z zs.
Definition sum64 (zs : list Z) : Z := to_int64 (sumZ zs).

(** The mean of [ms] per coordinate, the quotient truncated toward zero:
    [truncated_mean sumZ] divides the exact sums, [truncated_mean sum64] the
    sums as 64-bit additions give them. *)
Definition truncated_mean (sum : list Z → Z) (ms : list point_t) : point_t :=
  let n := Z.of_nat (length ms) in
  Point (sum (x <$> ms) `quot` n)%Z (sum (y <$> ms) `quot` n)%Z.

(** Coordinates are 64-bit values. *)
Definition wf_point (p : point_t) : Prop := int64_range (x p) ∧ int64_range (y p).

(** Coordinates small enough for every squared distance to fit in 64 bits. *)
Definition small_point (p : point_t) : Prop :=
  (- 2 ^ 30 ≤ x p < 2 ^ 30)%Z ∧ (- 2 ^ 30 ≤ y p < 2 ^ 30)%Z.

(** ** Functional description of one iteration

    These functions describe what one iteration of either engine computes;
    the lemmas below relate them to the loops of the engines. [ix] is the
    conversion applied to the index of the nearest centroid when it selects
    the accumulator: none in the serial engine, [(ASGN)] in the TBB engine. *)

Definition nearest (cs : list point_t) (p : point_t) : nat :=
  match cs with
  | [] => 0
  | c0 :: rest => nearest_scan p rest 1 (distance p c0) 0
  end.

Definition members (ix : nat → nat) (cs : list point_t) (c : nat) (pts : list point_t)
  : list point_t :=
  filter (λ p, ix (nearest cs p) = c) pts.

Definition psum (l : list point_t) : point_t :=
  Point (sum64 (x <$> l)) (sum64 (y <$> l)).

Definition mean (l : list point_t) : point_t :=
  let n := size_to_int64 (length l) in
  Point (div64 (x (psum l)) n) (div64 (y (psum l)) n).

Definition recentre (ix : nat → nat) (pts cs : list point_t) (c : nat) (old : point_t)
  : point_t :=
  let m := members ix cs c pts in
  if decide (length m = 0) then old else mean m.

Definition step (ix : nat → nat) (pts cs : list point_t) : list point_t :=
  imap (recentre ix pts cs) cs.

(** The points read by a loop that visits the indices [order]. *)
Definition visited (pts : list point_t) (order : list nat) : list point_t :=
  omap (λ i, pts !! i) order.

(** The centroids after [n] iterations that start from [cs], and the
    assignment vector then: the last iteration overwrites the slots of the
    points it visits. *)
Definition centroids_after (ix : nat → nat) (pts cs : list point_t) (n : nat)
  : list point_t :=
  Nat.iter n (step ix pts) cs.

Definition assignments_after (ix : nat → nat) (pts cs : list point_t)
    (asg : list nat) (n : nat) : list nat :=
  match n with
  | 0 => asg
  | S m => (to_uint8 ∘ nearest (centroids_after ix pts cs m) <$> pts)
             ++ drop (length pts) asg
  end.

(** ** Sizes of the vectors a [compute] call works on *)

Definition serial_sizes (ls lc k n : nat) (st : Serial.state) : Prop :=
  length (Serial.st_sums st) = ls ∧ length (Serial.st_counts st) = lc ∧
  length (Serial.st_centroids st) = k ∧ length (Serial.st_assignments st) = n.

Definition framework_sizes (lt k n : nat) (st : Framework.state) : Prop :=
  length (Framework.st_temp st) = lt ∧
  length (Framework.st_centroids st) = k ∧ length (Framework.st_assignments st) = n.

(** ** Bounding boxes *)

(** [p] lies in the box [lx, hx] x [ly, hy]. *)
Definition in_box (lx hx ly hy : Z) (p : point_t) : Prop :=
  (lx ≤ x p ≤ hx)%Z ∧ (ly ≤ y p ≤ hy)%Z.

(** The box lies inside [-2^30, 2^30) x [-2^30, 2^30). *)
Definition small_box (lx hx ly hy : Z) : Prop :=
  (- 2 ^ 30 ≤ lx)%Z ∧ (hx < 2 ^ 30)%Z ∧ (- 2 ^ 30 ≤ ly)%Z ∧ (hy < 2 ^ 30)%Z.

(** ** The harness (framework/k-means.cpp)

    The harness reads and writes files through the C library and parses
    numbers with [std::stoul]. The embedding takes [std::stoul] as a
    parameter and gives the file calls the semantics they have on regular
    files that nothing else modifies and with no device errors: a file is the
    list of its bytes, [fread] transfers the complete items that remain up to
    the number asked for, [fwrite] appends the items that still fit under the
    quota of the file system, [fopen] fails for reading on a missing file and
    for writing on a file name the file system refuses. Bytes are integers
    in [0, 256). The object representation of the record types is a
    parameter ([ObjectRepr]); [point_le] and [uint8_repr] are the ones of the
    usual 64-bit little-endian platforms. [bpp::RuntimeError] (declared in
    [exception.hpp], which is not among the sources) is taken to derive from
    [std::exception], so that the handlers of [main] catch it; the stopwatch
    only shows in the line that prints the elapsed time. *)

Module Harness.

Class ObjectRepr (T : Type) := {
  sizeof : nat;
  to_bytes : T → list Z;
  of_bytes : list Z → T;
  value_init : T
}.

Definition int64_to_bytes (z : Z) : list Z :=
  (λ i, ((z `mod` 2 ^ 64) `div` 2 ^ (8 * Z.of_nat i)) `mod` 256)%Z <$> seq 0 8.

Definition int64_of_bytes (bs : list Z) : Z :=
  to_int64 (foldr (λ b acc, b + 256 * acc)%Z 0%Z bs).

Definition point_le : ObjectRepr point_t := {|
  sizeof := 16;
  to_bytes p := int64_to_bytes (x p) ++ int64_to_bytes (y p);
  of_bytes bs := Point (int64_of_bytes (take 8 bs)) (int64_of_bytes (take 8 (drop 8 bs)));
  value_init := point_zero
|}.

Definition uint8_repr : ObjectRepr nat := {|
  sizeof := 1;
  to_bytes a := [Z.of_nat a];
  of_bytes bs := Z.to_nat (default 0%Z (head bs));
  value_init := 0
|}.

(** What [bpp::RuntimeError] and [std::stoul] report. *)
Inductive error :=
  | CannotOpenForReading (file : string)
  | ReadFailed (file : string)
  | CannotOpenForWriting (file : string)
  | WriteFailed (file : string)
  | InvalidNumberOfCentroids (got expected : nat)
  | InvalidNumberOfAssignments (got expected : nat)
  | StoulFailed.

(** What the program prints. *)
Inductive event :=
  | Usage
  | Elapsed
  | ErrorLine (e : error)
  | Failed (e : error).

Record world := World {
  files : gmap string (list Z);
  refused : gset string;
  quota : nat;
  printed : list event
}.

(** A call returns, throws, or indexes a vector out of bounds. *)
Inductive result (A : Type) : Type :=
  | Returned (a : A)
  | Thrown (e : error)
  | Undefined (v : vec).
Arguments Returned {A} a.
Arguments Thrown {A} e.
Arguments Undefined {A} v.

Definition io (A : Type) : Type := world → result A * world.

Global Instance io_ret : MRet io := λ A a w, (Returned a, w).
Global Instance io_bind : MBind io := λ A B f m w,
  match m w with
  | (Returned a, w') => f a w'
  | (Thrown e, w') => (Thrown e, w')
  | (Undefined v, w') => (Undefined v, w')
  end.

Definition throw {A} (e : error) : io A := λ w, (Thrown e, w).

Definition print (ev : event) : io () :=
  λ w, (Returned (), World (files w) (refused w) (quota w) (printed w ++ [ev])).

(** [try { body } catch (std::exception &e) { handler }]. *)
Definition try_catch {A} (body : io A) (handler : error → io A) : io A :=
  λ w, match body w with
       | (Thrown e, w') => handler e w'
       | r => r
       end.

Definition lift_outcome {A} (r : outcome A) : io A :=
  λ w, match r with
       | Done a => (Returned a, w)
       | OutOfBounds v => (Undefined v, w)
       end.

(** Upper bound of one [fread] or [fwrite]. *)
Definition batch_limit : nat := 1024 * 1024.
Global Opaque batch_limit.

(** The [n] items of a file from byte [pos] on. *)
Definition items_at `{ObjectRepr T} (bytes : list Z) (pos n : nat) : list T :=
  (λ j, of_bytes (take sizeof (drop (pos + j * sizeof) bytes))) <$> seq 0 n.

(** [fread(&res[offset], sizeof(T), batch, fp)] on the stream at byte [pos]
    of a file with content [bytes]: the number of items read and the vector
    after the call. *)
Definition fread `{ObjectRepr T} (bytes : list Z) (pos : nat) (res : list T)
    (offset batch : nat) : nat * list T :=
  let n := batch `min` ((length bytes - pos) `div` sizeof) in
  (n, take offset res ++ items_at bytes pos n ++ drop (offset + n) res).

(** The reading loop of [load_file]; it runs at most [rounds] times, and
    [count - offset] rounds are always enough ([read_loop_rounds]). *)
Fixpoint read_loop `{ObjectRepr T} (rounds : nat) (fileName : string) (bytes : list Z)
    (count pos offset : nat) (res : list T) : io (list T) :=
  if decide (offset < count) then
    match rounds with
    | 0 => mret res
    | S rounds' =>
        let batch := (count - offset) `min` batch_limit in
        let '(n, res') := fread bytes pos res offset batch in
        if decide (n ≠ batch) then throw (ReadFailed fileName)
        else read_loop rounds' fileName bytes count (pos + n * sizeof) (offset + batch) res'
    end
  else mret res.

Definition load_file `{ObjectRepr point_t} (fileName : string) (res : list point_t)
  : io (list point_t) :=
  λ w, match files w !! fileName with
       | None => (Thrown (CannotOpenForReading fileName), w)
       | Some bytes =>
           let count := length bytes `div` sizeof in
           let res := resize count value_init res in
           read_loop count fileName bytes count 0 0 res w
       end.

(** [fwrite(&data[offset], sizeof(T), batch, fp)] on a file with content
    [bytes]: the number of items written and the content after the call. *)
Definition fwrite `{ObjectRepr T} (quota : nat) (bytes : list Z) (data : list T)
    (offset batch : nat) : nat * list Z :=
  let n := batch `min` ((quota - length bytes) `div` sizeof) in
  (n, bytes ++ mjoin (to_bytes <$> take n (drop offset data))).

Definition set_file (fileName : string) (bytes : list Z) : io () :=
  λ w, (Returned (), World (<[fileName := bytes]> (files w)) (refused w) (quota w)
                       (printed w)).

Fixpoint write_loop `{ObjectRepr T} (rounds : nat) (fileName : string) (data : list T)
    (offset : nat) (bytes : list Z) : io () :=
  if decide (offset < length data) then
    match rounds with
    | 0 => mret ()
    | S rounds' =>
        let batch := (length data - offset) `min` batch_limit in
        λ w,
          let '(n, bytes') := fwrite (quota w) bytes data offset batch in
          (_ ← set_file fileName bytes';
           if decide (n ≠ batch) then throw (WriteFailed fileName)
           else write_loop rounds' fileName data (offset + batch) bytes') w
    end
  else mret ().

Definition save_file `{ObjectRepr T} (fileName : string) (data : list T) : io () :=
  λ w, if decide (fileName ∈ refused w)
       then (Thrown (CannotOpenForWriting fileName), w)
       else (_ ← set_file fileName [];
             write_loop (length data) fileName data 0 []) w.

Section main.
Context (stoul : string → option (nat * nat)).
Context (sched : nat → Framework.schedule) (uninitialised : nat).
Context `{ObjectRepr point_t}.

(** [std::stoul(str, &idx)] gives the value and [idx], or throws. *)
Definition getNumArg (str : string) : io nat :=
  match stoul str with
  | None => throw StoulFailed
  | Some (res, idx) => mret (if decide (idx ≠ String.length str) then 0 else res)
  end.

(** [runKmeans] (the same for both values of [DEBUG]): the engine is a new
    object, whose [POINTS_SIZE] is [uninitialised] until [init]; [centroids]
    is cleared, [assignments] is passed on as it is. *)
Definition runKmeans (points : list point_t) (k iters : nat)
    (centroids : list point_t) (assignments : list nat)
  : io (list point_t * list nat) :=
  let kMeans := Framework.init (length points) k iters (Framework.Engine [] uninitialised) in
  let centroids := [] in
  '(_, centroids, assignments) ←
     lift_outcome (Framework.compute sched kMeans points k iters centroids assignments);
  if decide (length centroids ≠ k)
  then throw (InvalidNumberOfCentroids (length centroids) k)
  else if decide (length assignments ≠ length points)
  then throw (InvalidNumberOfAssignments (length assignments) (length points))
  else _ ← print Elapsed; mret (centroids, assignments).

Definition arg (argv : list string) (i : nat) : string := default ""%string (argv !! i).

Definition main (argv : list string) : io nat :=
  let argv := drop 1 argv in
  let argv := if decide (length argv = 6 ∧ argv !! 0 = Some "-debug"%string)
              then drop 1 argv else argv in
  if decide (length argv ≠ 5) then _ ← print Usage; mret 0
  else
    k ← getNumArg (arg argv 1);
    iters ← getNumArg (arg argv 2);
    if decide (k = 0 ∨ iters = 0 ∨ 256 < k ∨ 1000 < iters)
    then _ ← print Usage; mret 0
    else
      loaded ← try_catch (points ← load_file (arg argv 0) []; mret (inl points))
                 (λ e, _ ← print (ErrorLine e); _ ← print Usage; mret (inr 1));
      match loaded with
      | inr code => mret code
      | inl points =>
          try_catch
            ('(centroids, assignment) ← runKmeans points k iters [] [];
             _ ← save_file (arg argv 3) centroids;
             _ ← save_file (H := uint8_repr) (arg argv 4) assignment;
             mret 0)
            (λ e, _ ← print (Failed e); mret 2)
      end.

End main.

End Harness.

Global Arguments centroids_after : simpl never.
Global Arguments assignments_after : simpl never.

(** * Properties *)

(** ** Machine arithmetic *)

Lemma to_int64_range z : int64_range (to_int64 z).
Proof. unfold int64_range, to_int64. pose proof (Z.mod_pos_bound (z + 2 ^ 63) (2 ^ 64)). lia. Qed.

Lemma to_int64_id z : int64_range z → to_int64 z = z.
Proof.
  unfold int64_range, to_int64. intros H.
  rewrite Z.mod_small; lia.
Qed.

Lemma to_int64_add_l a b : to_int64 (to_int64 a + b) = to_int64 (a + b).
Proof.
  unfold to_int64.
  replace ((a + 2 ^ 63) `mod` 2 ^ 64 - 2 ^ 63 + b + 2 ^ 63)%Z
    with ((a + 2 ^ 63) `mod` 2 ^ 64 + b)%Z by lia.
  rewrite Zplus_mod_idemp_l. f_equal. f_equal. lia.
Qed.

Lemma to_int64_add_r a b : to_int64 (a + to_int64 b) = to_int64 (a + b).
Proof. rewrite Z.add_comm, to_int64_add_l. f_equal. lia. Qed.

Lemma add64_comm a b : add64 a b = add64 b a.
Proof. unfold add64. f_equal. lia. Qed.

Lemma add64_assoc a b c : add64 a (add64 b c) = add64 (add64 a b) c.
Proof.
  unfold add64. rewrite to_int64_add_r, to_int64_add_l. f_equal. lia.
Qed.

Lemma size_to_int64_id n : (Z.of_nat n < 2 ^ 63)%Z → size_to_int64 n = Z.of_nat n.
Proof. intros. apply to_int64_id. unfold int64_range. lia. Qed.

Lemma div64_exact a n :
  int64_range a → (0 < n)%Z → div64 a n = (a `quot` n)%Z.
Proof.
  unfold int64_range, div64. intros Ha Hn. apply to_int64_id. unfold int64_range.
  destruct (Z.le_gt_cases 0 a) as [H0|H0].
  - pose proof (Z.quot_pos a n H0 ltac:(lia)).
    assert (a `quot` n ≤ a)%Z by (apply Z.quot_le_upper_bound; nia). lia.
  - assert ((- a) `quot` n ≤ - a)%Z as H1 by (apply Z.quot_le_upper_bound; nia).
    pose proof (Z.quot_pos (- a) n ltac:(lia) ltac:(lia)) as H2.
    rewrite Z.quot_opp_l in H1, H2 by lia. lia.
Qed.

Lemma to_uint8_le n : to_uint8 n ≤ n.
Proof. unfold to_uint8. apply Nat.Div0.mod_le. Qed.

Lemma to_uint8_id n : n < 256 → to_uint8 n = n.
Proof. unfold to_uint8. apply Nat.mod_small. Qed.

Lemma to_uint8_lt n : to_uint8 n < 256.
Proof. unfold to_uint8. apply Nat.mod_upper_bound. lia. Qed.

(** ** Sums of coordinates *)

Lemma sumZ_app l1 l2 : sumZ (l1 ++ l2) = (sumZ l1 + sumZ l2)%Z.
Proof. unfold sumZ. induction l1 as [|a l1 IH]; simpl; lia. Qed.

Lemma sumZ_perm l1 l2 : l1 ≡ₚ l2 → sumZ l1 = sumZ l2.
Proof. unfold sumZ. induction 1; simpl; lia. Qed.

Lemma sum64_snoc l a : sum64 (l ++ [a]) = add64 (sum64 l) a.
Proof.
  unfold sum64, add64. rewrite sumZ_app, to_int64_add_l. simpl. f_equal. lia.
Qed.

Lemma sum64_app l1 l2 : sum64 (l1 ++ l2) = add64 (sum64 l1) (sum64 l2).
Proof.
  unfold sum64, add64. rewrite sumZ_app, to_int64_add_l, to_int64_add_r. done.
Qed.

Lemma sum64_exact l : int64_range (sumZ l) → sum64 l = sumZ l.
Proof. apply to_int64_id. Qed.

Lemma psum_nil : psum [] = point_zero.
Proof. reflexivity. Qed.

Lemma psum_snoc l p :
  psum (l ++ [p]) = Point (add64 (x (psum l)) (x p)) (add64 (y (psum l)) (y p)).
Proof. unfold psum. rewrite !fmap_app. simpl. by rewrite !sum64_snoc. Qed.

Lemma psum_app l1 l2 :
  psum (l1 ++ l2) =
  Point (add64 (x (psum l1)) (x (psum l2))) (add64 (y (psum l1)) (y (psum l2))).
Proof. unfold psum. rewrite !fmap_app. simpl. by rewrite !sum64_app. Qed.

Lemma psum_perm l1 l2 : l1 ≡ₚ l2 → psum l1 = psum l2.
Proof.
  intros H. unfold psum, sum64.
  by rewrite (sumZ_perm (x <$> l1) (x <$> l2)), (sumZ_perm (y <$> l1) (y <$> l2))
    by (by apply fmap_Permutation).
Qed.

Lemma mean_perm l1 l2 : l1 ≡ₚ l2 → mean l1 = mean l2.
Proof.
  intros H. unfold mean. by rewrite (psum_perm l1 l2), (Permutation_length H).
Qed.

(** ** Nearest-centroid search *)

Lemma getNearestCluster_nearest p cs :
  cs ≠ [] → getNearestCluster p cs = Done (nearest cs p).
Proof. by destruct cs. Qed.

Lemma getNearestCluster_empty p : getNearestCluster p [] = OutOfBounds Centroids.
Proof. reflexivity. Qed.

Lemma nearest_scan_least p rest : ∀ pre minDist near cn,
  pre !! near = Some cn →
  minDist = distance p cn →
  (∀ j c, pre !! j = Some c →
     (distance p cn ≤ distance p c)%Z ∧ (j < near → (distance p cn < distance p c)%Z)) →
  least_argmin (distance p) (pre ++ rest) (nearest_scan p rest (length pre) minDist near).
Proof.
  induction rest as [|c rest IH]; intros pre minDist near cn Hcn -> Hmin; simpl.
  - rewrite app_nil_r. by exists cn.
  - pose proof (lookup_lt_Some _ _ _ Hcn) as Hlt.
    replace (pre ++ c :: rest) with ((pre ++ [c]) ++ rest) by by rewrite <- app_assoc.
    replace (S (length pre)) with (length (pre ++ [c])) by (rewrite length_app; simpl; lia).
    destruct (Z.ltb_spec (distance p c) (distance p cn)) as [Hc|Hc].
    + apply (IH _ _ _ c); [|done|].
      * by rewrite lookup_app_r, Nat.sub_diag.
      * intros j c' Hj. destruct (decide (j < length pre)) as [Hjl|Hjl].
        -- rewrite lookup_app_l in Hj by done. destruct (Hmin j c' Hj). lia.
        -- apply lookup_lt_Some in Hj as Hj'. rewrite length_app in Hj'. simpl in Hj'.
           assert (j = length pre) as -> by lia.
           rewrite lookup_app_r, Nat.sub_diag in Hj by lia. simplify_eq/=. lia.
    + apply (IH _ _ _ cn); [|done|].
      * by rewrite lookup_app_l.
      * intros j c' Hj. destruct (decide (j < length pre)) as [Hjl|Hjl].
        -- rewrite lookup_app_l in Hj by done. by apply Hmin.
        -- apply lookup_lt_Some in Hj as Hj'. rewrite length_app in Hj'. simpl in Hj'.
           assert (j = length pre) as -> by lia.
           rewrite lookup_app_r, Nat.sub_diag in Hj by lia. simplify_eq/=. lia.
Qed.

(** The search returns the least index at which the value computed by
    [distance] is minimal. *)
Lemma nearest_least_argmin p cs :
  cs ≠ [] → least_argmin (distance p) cs (nearest cs p).
Proof.
  destruct cs as [|c0 rest]; [done|]. intros _. unfold nearest.
  apply (nearest_scan_least p rest [c0] _ 0 c0); [done..|].
  intros [|j] c Hj; simplify_eq/=. lia.
Qed.

Lemma least_argmin_lt d cs i : least_argmin d cs i → i < length cs.
Proof. intros (ci & Hi & _). by eapply lookup_lt_Some. Qed.

Lemma least_argmin_unique d cs i j : least_argmin d cs i → least_argmin d cs j → i = j.
Proof.
  intros (ci & Hi & Hmi) (cj & Hj & Hmj).
  destruct (Hmi j cj Hj) as [? Hlt1]. destruct (Hmj i ci Hi) as [? Hlt2].
  destruct (Nat.lt_trichotomy i j) as [?|[?|?]]; [|done|].
  - specialize (Hlt2 ltac:(done)). lia.
  - specialize (Hlt1 ltac:(done)). lia.
Qed.

Lemma least_argmin_ext d1 d2 cs i :
  (∀ c, c ∈ cs → d1 c = d2 c) → least_argmin d1 cs i → least_argmin d2 cs i.
Proof.
  intros Heq (ci & Hi & Hm). exists ci. split; [done|].
  intros j c Hj. rewrite <- !Heq by (by eapply list_elem_of_lookup_2).
  by apply Hm.
Qed.

Lemma nearest_lt p cs : cs ≠ [] → nearest cs p < length cs.
Proof. intros. eapply least_argmin_lt. by apply nearest_least_argmin. Qed.

(** Without overflow, [distance] is the exact squared distance. *)
Lemma distance_exact p c : (sqdist p c < 2 ^ 63)%Z → distance p c = sqdist p c.
Proof.
  unfold sqdist, distance, add64, mul64, sub64. intros H.
  assert (- 2 ^ 32 < x p - x c < 2 ^ 32)%Z by nia.
  assert (- 2 ^ 32 < y p - y c < 2 ^ 32)%Z by nia.
  rewrite (to_int64_id (x p - x c)), (to_int64_id (y p - y c)) by (unfold int64_range; lia).
  rewrite to_int64_add_l, to_int64_add_r, <- !Z.pow_2_r.
  apply to_int64_id. unfold int64_range. nia.
Qed.

Lemma sqdist_nonneg p c : (0 ≤ sqdist p c)%Z.
Proof. unfold sqdist. nia. Qed.

Lemma sqdist_zero p c : sqdist p c = 0%Z → p = c.
Proof.
  unfold sqdist. destruct p as [px py], c as [cx cy]. simpl. intros H.
  f_equal; nia.
Qed.

Lemma sqdist_refl p : sqdist p p = 0%Z.
Proof. unfold sqdist. lia. Qed.

(** ** Checked accesses and loops *)

Lemma bind_Done {A B} (f : A → outcome B) a : (Done a ≫= f) = f a.
Proof. reflexivity. Qed.

Lemma bind_OutOfBounds {A B} (f : A → outcome B) v : (OutOfBounds v ≫= f) = OutOfBounds v.
Proof. reflexivity. Qed.

Lemma vec_at_Some {A} name (v : list A) i a : v !! i = Some a → vec_at name v i = Done a.
Proof. unfold vec_at. by intros ->. Qed.

Lemma vec_at_ge {A} name (v : list A) i : length v ≤ i → vec_at name v i = OutOfBounds name.
Proof. unfold vec_at. intros H. by rewrite lookup_ge_None_2. Qed.

Lemma vec_set_lt {A} name (v : list A) i a :
  i < length v → vec_set name v i a = Done (<[i:=a]> v).
Proof. unfold vec_set. intros. by rewrite decide_True. Qed.

Lemma vec_set_ge {A} name (v : list A) i a :
  length v ≤ i → vec_set name v i a = OutOfBounds name.
Proof. unfold vec_set. intros. rewrite decide_False; [done|lia]. Qed.

Lemma elem_of_middle (pre post : list nat) i : i ∈ pre ++ i :: post.
Proof. apply elem_of_app. right. by left. Qed.

Lemma elem_of_snoc_ne (pre : list nat) i j : j ∈ pre ++ [i] → j ≠ i → j ∈ pre.
Proof.
  intros [?|Hj%list_elem_of_singleton]%elem_of_app ?; [done|congruence].
Qed.

Lemma range_middle k (pre post : list nat) i : seq 0 k = pre ++ i :: post → i < k.
Proof.
  intros Ho. assert (i ∈ seq 0 k) as Hi by (rewrite Ho; apply elem_of_middle).
  apply elem_of_seq in Hi. lia.
Qed.

(** Invariant rule: [I done s] holds when the indices [done] have run. *)
Lemma for_each_inv {S} (I : list nat → S → Prop) body order (s : S) :
  I [] s →
  (∀ pre i post s, order = pre ++ i :: post → I pre s →
     ∃ s', body i s = Done s' ∧ I (pre ++ [i]) s') →
  ∃ s', for_each order body s = Done s' ∧ I order s'.
Proof.
  intros H0 Hstep.
  cut (∀ rest pre s, order = pre ++ rest → I pre s →
         ∃ s', for_each rest body s = Done s' ∧ I order s').
  { intros Hgen. by apply (Hgen order []). }
  induction rest as [|i rest IH]; intros pre s1 Ho HI; simpl.
  - exists s1. rewrite app_nil_r in Ho. by subst.
  - destruct (Hstep pre i rest s1 Ho HI) as (s2 & -> & HI2). rewrite bind_Done.
    apply (IH (pre ++ [i])); [|done]. by rewrite <- app_assoc.
Qed.

(** Fault rule: some index of the loop faults in every state that satisfies
    [I], and the others keep [I] or fault in the same way. *)
Lemma for_each_fault {S} (I : S → Prop) body order v (s : S) i :
  I s → i ∈ order →
  (∀ s, I s → body i s = OutOfBounds v) →
  (∀ j s, j ∈ order → I s → body j s = OutOfBounds v ∨ ∃ s', body j s = Done s' ∧ I s') →
  for_each order body s = OutOfBounds v.
Proof.
  intros HI Hi Hbad Hothers. revert s HI.
  induction order as [|j order IH]; intros s HI; [by apply elem_of_nil in Hi|].
  simpl. destruct (decide (j = i)) as [->|Hne].
  - by rewrite Hbad.
  - destruct (Hothers j s ltac:(left) HI) as [->|(s' & -> & HI')]; [done|].
    rewrite bind_Done. apply IH; [|intros; apply Hothers; [by right|done]|done].
    apply elem_of_cons in Hi as [?|?]; [congruence|done].
Qed.

Lemma visited_snoc pts order i p :
  pts !! i = Some p → visited pts (order ++ [i]) = visited pts order ++ [p].
Proof. intros H. unfold visited. rewrite omap_app. simpl. by rewrite H. Qed.

Lemma visited_seq pts n : n ≤ length pts → visited pts (seq 0 n) = take n pts.
Proof.
  induction n as [|n IH]; intros Hn; [done|].
  destruct (lookup_lt_is_Some_2 pts n ltac:(lia)) as [p Hp].
  rewrite seq_S. simpl. rewrite (visited_snoc _ _ _ p Hp), IH by lia.
  by rewrite (take_S_r _ _ p).
Qed.

Lemma visited_perm pts order n :
  n ≤ length pts → order ≡ₚ seq 0 n → visited pts order ≡ₚ take n pts.
Proof.
  intros Hn Hp. rewrite <- (visited_seq pts n Hn). unfold visited. by rewrite Hp.
Qed.

Lemma members_snoc ix cs c l p :
  members ix cs c (l ++ [p]) =
  members ix cs c l ++ (if decide (ix (nearest cs p) = c) then [p] else []).
Proof.
  unfold members. rewrite filter_app. by f_equal.
Qed.

Lemma members_perm ix cs c l1 l2 : l1 ≡ₚ l2 → members ix cs c l1 ≡ₚ members ix cs c l2.
Proof. unfold members. by intros ->. Qed.

Lemma step_length ix pts cs : length (step ix pts cs) = length cs.
Proof. unfold step. by rewrite length_imap. Qed.

Lemma step_lookup ix pts cs c :
  step ix pts cs !! c = recentre ix pts cs c <$> cs !! c.
Proof. unfold step. by rewrite list_lookup_imap. Qed.

(** With at most 256 centroids the conversion to [std::uint8_t] is the
    identity on the indices the search returns. *)
Lemma members_uint8 cs c pts :
  length cs ≤ 256 → members to_uint8 cs c pts = members id cs c pts.
Proof.
  intros Hk. unfold members. apply list_filter_iff. intros p. simpl.
  destruct cs as [|c0 cs']; [done|].
  rewrite to_uint8_id; [done|].
  pose proof (nearest_lt p (c0 :: cs') ltac:(done)). lia.
Qed.

Lemma step_uint8 pts cs : length cs ≤ 256 → step to_uint8 pts cs = step id pts cs.
Proof.
  intros Hk. unfold step. apply imap_ext. intros c old _. unfold recentre.
  by rewrite members_uint8.
Qed.

(** ** Seeding *)

Lemma seed_step pts i cs p :
  pts !! i = Some p → i < length cs → Serial.seed_body pts i cs = Done (<[i:=p]> cs).
Proof.
  intros Hp Hi. unfold Serial.seed_body.
  by rewrite (vec_at_Some _ _ _ _ Hp), bind_Done, vec_set_lt.
Qed.

Lemma serial_seed pts k cs :
  k ≤ length pts → length cs = k →
  for_each (seq 0 k) (Serial.seed_body pts) cs = Done (take k pts).
Proof.
  intros Hk Hlen.
  destruct (for_each_inv
    (λ done cs', length cs' = k ∧ ∀ i, i ∈ done → cs' !! i = pts !! i)
    (Serial.seed_body pts) (seq 0 k) cs) as (cs' & -> & Hl & Hcs').
  - split; [done|]. intros i Hi. by apply elem_of_nil in Hi.
  - intros pre i post s Ho [Hls Hs].
    apply range_middle in Ho as Hi.
    destruct (lookup_lt_is_Some_2 pts i ltac:(lia)) as [p Hp].
    exists (<[i:=p]> s). split; [apply seed_step; [done|lia]|].
    split; [by rewrite length_insert|].
    intros j Hj. destruct (decide (j = i)) as [->|Hne].
    + rewrite list_lookup_insert_eq; [done|lia].
    + rewrite list_lookup_insert_ne by done. by eapply Hs, elem_of_snoc_ne.
  - f_equal. apply list_eq. intros i.
    destruct (decide (i < k)) as [Hi|Hi].
    + rewrite lookup_take_lt by done. apply Hcs'. apply elem_of_seq. lia.
    + rewrite lookup_take_ge by lia. apply lookup_ge_None. lia.
Qed.

Lemma serial_seed_short pts k cs :
  length pts < k → length cs = k →
  for_each (seq 0 k) (Serial.seed_body pts) cs = OutOfBounds Points.
Proof.
  intros Hk Hlen.
  apply (for_each_fault (λ cs', length cs' = k) _ _ _ _ (length pts)); [done|..].
  - apply elem_of_seq. lia.
  - intros s _. unfold Serial.seed_body. by rewrite vec_at_ge.
  - intros j s Hj Hs. apply elem_of_seq in Hj.
    destruct (decide (j < length pts)) as [Hjl|Hjl].
    + right. destruct (lookup_lt_is_Some_2 pts j Hjl) as [p Hp].
      exists (<[j:=p]> s). split; [apply seed_step; [done|lia]|].
      by rewrite length_insert.
    + left. unfold Serial.seed_body. rewrite vec_at_ge; [done|lia].
Qed.

Lemma framework_seed pts k cs :
  k ≤ length pts → length cs = k →
  for_each (seq 0 k) (Framework.seed_body pts) cs = Done (take k pts).
Proof. exact (serial_seed pts k cs). Qed.

Lemma framework_seed_short pts k cs :
  length pts < k → length cs = k →
  for_each (seq 0 k) (Framework.seed_body pts) cs = OutOfBounds Points.
Proof. exact (serial_seed_short pts k cs). Qed.

(** ** The loops of the serial engine *)

Lemma serial_reset_loop k sums counts cs asg :
  k ≤ length sums → k ≤ length counts →
  ∃ sums' counts',
    for_each (seq 0 k) Serial.reset_body (Serial.State sums counts cs asg)
      = Done (Serial.State sums' counts' cs asg) ∧
    length sums' = length sums ∧ length counts' = length counts ∧
    ∀ c, c < k → sums' !! c = Some point_zero ∧ counts' !! c = Some 0.
Proof.
  intros Hs Hc.
  destruct (for_each_inv
    (λ done st, Serial.st_centroids st = cs ∧ Serial.st_assignments st = asg ∧
       length (Serial.st_sums st) = length sums ∧
       length (Serial.st_counts st) = length counts ∧
       ∀ c, c ∈ done →
         Serial.st_sums st !! c = Some point_zero ∧ Serial.st_counts st !! c = Some 0)
    Serial.reset_body (seq 0 k) (Serial.State sums counts cs asg))
    as ([s' c' cs' asg'] & -> & Hcs & Hasg & Hls & Hlc & Hz); simpl in *.
  - repeat split; try done; by apply elem_of_nil in H.
  - intros pre i post [s1 c1 cs1 a1] Ho (? & ? & Hls & Hlc & Hz); simpl in *; subst.
    apply range_middle in Ho as Hi.
    eexists. unfold Serial.reset_body; simpl.
    rewrite !vec_set_lt, !bind_Done by lia. split; [done|]. simpl.
    rewrite !length_insert. repeat split; try done.
    + destruct (decide (c = i)) as [->|?].
      * rewrite list_lookup_insert_eq; [done|lia].
      * rewrite list_lookup_insert_ne by done. by eapply Hz, elem_of_snoc_ne.
    + destruct (decide (c = i)) as [->|?].
      * rewrite list_lookup_insert_eq; [done|lia].
      * rewrite list_lookup_insert_ne by done. by eapply Hz, elem_of_snoc_ne.
  - subst. exists s', c'. repeat split; try done; apply Hz, elem_of_seq; lia.
Qed.

Lemma serial_assign_loop pts sums counts cs asg k :
  cs ≠ [] → length cs = k → k ≤ length sums → k ≤ length counts →
  length asg = length pts →
  (∀ c, c < k → sums !! c = Some point_zero ∧ counts !! c = Some 0) →
  ∃ sums' counts',
    for_each (seq 0 (length pts)) (Serial.assign_body pts)
        (Serial.State sums counts cs asg)
      = Done (Serial.State sums' counts' cs (to_uint8 ∘ nearest cs <$> pts)) ∧
    length sums' = length sums ∧ length counts' = length counts ∧
    ∀ c, c < k →
      sums' !! c = Some (psum (members id cs c pts)) ∧
      counts' !! c = Some (length (members id cs c pts)).
Proof.
  intros Hne Hk Hs Hc Ha Hz.
  destruct (for_each_inv
    (λ done st, Serial.st_centroids st = cs ∧
       length (Serial.st_assignments st) = length pts ∧
       length (Serial.st_sums st) = length sums ∧
       length (Serial.st_counts st) = length counts ∧
       (∀ c, c < k →
          Serial.st_sums st !! c = Some (psum (members id cs c (visited pts done))) ∧
          Serial.st_counts st !! c = Some (length (members id cs c (visited pts done)))) ∧
       (∀ i p, i ∈ done → pts !! i = Some p →
          Serial.st_assignments st !! i = Some (to_uint8 (nearest cs p))))
    (Serial.assign_body pts) (seq 0 (length pts)) (Serial.State sums counts cs asg))
    as ([s' c' cs' asg'] & -> & Hcs & Hla & Hls & Hlc & Hacc & Hasg); simpl in *.
  - repeat split; try done; try (by apply Hz).
    intros i p Hi. by apply elem_of_nil in Hi.
  - intros pre i post [s1 c1 cs1 a1] Ho (? & Hla & Hls & Hlc & Hacc & Hasg);
      simpl in *; subst cs1.
    apply range_middle in Ho as Hi.
    destruct (lookup_lt_is_Some_2 pts i Hi) as [p Hp].
    pose proof (nearest_lt p cs Hne) as Hnear.
    destruct (Hacc (nearest cs p) ltac:(lia)) as [Hsn Hcn].
    eexists. unfold Serial.assign_body; simpl.
    rewrite (vec_at_Some _ _ _ _ Hp), bind_Done.
    rewrite getNearestCluster_nearest, bind_Done by done.
    rewrite vec_set_lt, bind_Done by lia.
    rewrite (vec_at_Some _ _ _ _ Hsn), bind_Done.
    rewrite vec_set_lt, bind_Done by lia.
    rewrite (vec_at_Some _ _ _ _ Hcn), bind_Done.
    rewrite vec_set_lt, bind_Done by lia.
    split; [done|]. simpl. rewrite !length_insert.
    repeat split; try done.
    + rewrite (visited_snoc _ _ _ p Hp), members_snoc.
      destruct (decide (c = nearest cs p)) as [->|Hcne].
      * rewrite list_lookup_insert_eq by lia.
        rewrite decide_True by done. by rewrite psum_snoc.
      * rewrite list_lookup_insert_ne by done.
        rewrite decide_False, app_nil_r by done. by apply Hacc.
    + rewrite (visited_snoc _ _ _ p Hp), members_snoc.
      destruct (decide (c = nearest cs p)) as [->|Hcne].
      * rewrite list_lookup_insert_eq by lia.
        rewrite decide_True by done. rewrite length_app. simpl. f_equal. lia.
      * rewrite list_lookup_insert_ne by done.
        rewrite decide_False, app_nil_r by done. by apply Hacc.
    + intros j q Hj Hq. destruct (decide (j = i)) as [->|Hji].
      * rewrite list_lookup_insert_eq by lia. congruence.
      * rewrite list_lookup_insert_ne by done. apply Hasg; [|done].
        by eapply elem_of_snoc_ne.
  - subst cs'. exists s', c'. rewrite visited_seq, firstn_all in Hacc by done.
    repeat split; try done; try (by apply Hacc).
    f_equal. f_equal. apply list_eq. intros i. rewrite list_lookup_fmap.
    destruct (pts !! i) as [p|] eqn:Hp; simpl.
    + apply Hasg; [|done]. apply elem_of_seq. apply lookup_lt_Some in Hp. lia.
    + apply lookup_ge_None. apply lookup_ge_None in Hp. lia.
Qed.

Lemma serial_update_loop (m : nat → list point_t) sums counts cs asg k :
  length cs = k →
  (∀ c, c < k → sums !! c = Some (psum (m c)) ∧ counts !! c = Some (length (m c))) →
  for_each (seq 0 k) Serial.update_body (Serial.State sums counts cs asg)
    = Done (Serial.State sums counts
        (imap (λ c old, if decide (length (m c) = 0) then old else mean (m c)) cs) asg).
Proof.
  intros Hk Hacc.
  destruct (for_each_inv
    (λ done st, Serial.st_sums st = sums ∧ Serial.st_counts st = counts ∧
       Serial.st_assignments st = asg ∧ length (Serial.st_centroids st) = k ∧
       ∀ c, Serial.st_centroids st !! c =
         if decide (c ∈ done)
         then (λ old, if decide (length (m c) = 0) then old else mean (m c)) <$> cs !! c
         else cs !! c)
    Serial.update_body (seq 0 k) (Serial.State sums counts cs asg))
    as ([s' c' cs' asg'] & -> & ? & ? & ? & Hl & Hcs); simpl in *.
  - by repeat split.
  - intros pre i post [s1 c1 cs1 a1] Ho (? & ? & ? & Hl & Hcs); simpl in *; subst.
    apply range_middle in Ho as Hi.
    destruct (Hacc i Hi) as [Hsi Hci].
    unfold Serial.update_body; simpl.
    rewrite (vec_at_Some _ _ _ _ Hci), bind_Done.
    destruct (decide (length (m i) = 0)) as [Hz|Hnz].
    + eexists. split; [done|]. simpl. repeat split; try done.
      intros c. rewrite Hcs. destruct (decide (c = i)) as [->|Hne].
      * rewrite (decide_True (P := i ∈ pre ++ [i])) by (apply elem_of_app; right; by left).
        destruct (lookup_lt_is_Some_2 cs i ltac:(lia)) as [old Hold].
        rewrite Hold. simpl. rewrite (decide_True (P := length (m i) = 0)) by done.
        by destruct (decide (i ∈ pre)).
      * destruct (decide (c ∈ pre)) as [Hin|Hin].
        -- rewrite decide_True; [done|]. apply elem_of_app. by left.
        -- rewrite decide_False; [done|]. intros ?. apply Hin. by eapply elem_of_snoc_ne.
    + eexists. rewrite (vec_at_Some _ _ _ _ Hsi), bind_Done.
      rewrite vec_set_lt, bind_Done by lia. split; [done|]. simpl.
      rewrite length_insert. repeat split; try done.
      intros c. destruct (decide (c = i)) as [->|Hne].
      * rewrite list_lookup_insert_eq by lia.
        rewrite (decide_True (P := i ∈ pre ++ [i])) by (apply elem_of_app; right; by left).
        destruct (lookup_lt_is_Some_2 cs i ltac:(lia)) as [old Hold].
        rewrite Hold. simpl. by rewrite (decide_False (P := length (m i) = 0)).
      * rewrite list_lookup_insert_ne by done. rewrite Hcs.
        destruct (decide (c ∈ pre)) as [Hin|Hin].
        -- rewrite decide_True; [done|]. apply elem_of_app. by left.
        -- rewrite decide_False; [done|]. intros ?. apply Hin. by eapply elem_of_snoc_ne.
  - subst. f_equal. f_equal. apply list_eq. intros c.
    rewrite Hcs, list_lookup_imap. destruct (decide (c ∈ seq 0 (length cs))) as [Hin|Hin]; [done|].
    rewrite lookup_ge_None_2; [done|]. rewrite elem_of_seq in Hin. lia.
Qed.

Lemma serial_iteration pts k sums counts cs asg :
  cs ≠ [] → length cs = k → k ≤ length sums → k ≤ length counts →
  length asg = length pts →
  ∃ sums' counts',
    Serial.iteration pts k (Serial.State sums counts cs asg)
      = Done (Serial.State sums' counts' (step id pts cs) (to_uint8 ∘ nearest cs <$> pts)) ∧
    length sums' = length sums ∧ length counts' = length counts.
Proof.
  intros Hne Hk Hs Hc Ha. unfold Serial.iteration.
  destruct (serial_reset_loop k sums counts cs asg Hs Hc)
    as (s1 & c1 & -> & Hs1 & Hc1 & Hz). rewrite bind_Done.
  destruct (serial_assign_loop pts s1 c1 cs asg k Hne Hk ltac:(lia) ltac:(lia) Ha Hz)
    as (s2 & c2 & -> & Hs2 & Hc2 & Hacc). rewrite bind_Done.
  rewrite (serial_update_loop (λ c, members id cs c pts)) by done.
  exists s2, c2. split; [done|]. split; congruence.
Qed.

Lemma centroids_after_length ix pts cs n :
  length (centroids_after ix pts cs n) = length cs.
Proof.
  unfold centroids_after. induction n as [|n IH]; [done|].
  rewrite Nat.iter_succ. by rewrite step_length.
Qed.

Lemma centroids_after_S ix pts cs n :
  centroids_after ix pts (step ix pts cs) n = centroids_after ix pts cs (S n).
Proof. unfold centroids_after. by rewrite Nat.iter_succ_r. Qed.

Lemma nonempty_length {A} (l : list A) : 1 ≤ length l → l ≠ [].
Proof. destruct l; simpl; [lia|done]. Qed.

Lemma centroids_after_nonempty ix pts cs n :
  cs ≠ [] → centroids_after ix pts cs n ≠ [].
Proof.
  intros H. apply nonempty_length. rewrite centroids_after_length.
  destruct cs; simpl; [done|lia].
Qed.

Lemma serial_refine pts k iters : ∀ sums counts cs asg,
  cs ≠ [] → length cs = k → k ≤ length sums → k ≤ length counts →
  length asg = length pts →
  ∃ sums' counts',
    Serial.refine pts k iters (Serial.State sums counts cs asg)
      = Done (Serial.State sums' counts'
                (centroids_after id pts cs iters) (assignments_after id pts cs asg iters)) ∧
    length sums' = length sums ∧ length counts' = length counts.
Proof.
  induction iters as [|n IH]; intros sums counts cs asg Hne Hk Hs Hc Ha; simpl.
  - by exists sums, counts.
  - destruct (serial_iteration pts k sums counts cs asg Hne Hk Hs Hc Ha)
      as (s1 & c1 & -> & Hs1 & Hc1). rewrite bind_Done.
    destruct (IH s1 c1 (step id pts cs) (to_uint8 ∘ nearest cs <$> pts))
      as (s2 & c2 & -> & Hs2 & Hc2).
    + apply nonempty_length. rewrite step_length. destruct cs; simpl; [done|lia].
    + by rewrite step_length.
    + lia.
    + lia.
    + by rewrite length_fmap.
    + exists s2, c2. split; [|split; congruence].
      rewrite centroids_after_S. f_equal. f_equal.
      destruct n as [|m]; unfold assignments_after.
      * rewrite drop_ge, app_nil_r by lia. done.
      * rewrite centroids_after_S.
        by rewrite !drop_ge by (rewrite ?length_fmap; lia).
Qed.

(** ** The loops of the TBB engine *)

Lemma wf_point_zero : wf_point point_zero.
Proof. unfold wf_point, int64_range. simpl. lia. Qed.

Lemma reduce_body_sum l : ∀ v,
  wf_point v →
  Framework.reduce_body l v =
  Point (to_int64 (x v + sumZ (x <$> l))) (to_int64 (y v + sumZ (y <$> l))).
Proof.
  unfold Framework.reduce_body.
  induction l as [|q l IH]; intros v [Hx Hy]; simpl.
  - rewrite !Z.add_0_r, !to_int64_id by done. by destruct v.
  - rewrite IH by (split; apply to_int64_range). simpl. unfold add64.
    rewrite !to_int64_add_l, !Z.add_assoc. done.
Qed.

Lemma reduce_body_wf l v : wf_point v → wf_point (Framework.reduce_body l v).
Proof. intros H. rewrite reduce_body_sum by done. split; apply to_int64_range. Qed.

Lemma sumZ_take_drop (f : point_t → Z) m l :
  (sumZ (f <$> take m l) + sumZ (f <$> drop m l))%Z = sumZ (f <$> l).
Proof. by rewrite <- sumZ_app, <- fmap_app, take_drop. Qed.

(** Whatever the plan, the reduction adds the elements to the value it
    starts from. *)
Lemma parallel_reduce_sum plan : ∀ v l,
  wf_point v →
  Framework.parallel_reduce plan point_zero v l =
  Point (to_int64 (x v + sumZ (x <$> l))) (to_int64 (y v + sumZ (y <$> l))).
Proof.
  induction plan as [|m rest IH|child IHc m rest IH]; intros v l Hv; simpl.
  - by apply reduce_body_sum.
  - rewrite IH by by apply reduce_body_wf.
    rewrite reduce_body_sum by done. simpl.
    rewrite !to_int64_add_l, <- !Z.add_assoc, !sumZ_take_drop. done.
  - rewrite IH by (split; apply to_int64_range).
    rewrite IHc by apply wf_point_zero. simpl. unfold add64.
    rewrite !Z.add_0_l, !to_int64_add_r, !to_int64_add_l, <- !Z.add_assoc, !sumZ_take_drop.
    done.
Qed.

Lemma parallel_reduce_psum plan l :
  Framework.parallel_reduce plan point_zero point_zero l = psum l.
Proof. by rewrite parallel_reduce_sum by apply wf_point_zero. Qed.

Lemma framework_clear_loop k temp cs asg :
  k ≤ length temp →
  ∃ temp',
    for_each (seq 0 k) Framework.clear_body (Framework.State temp cs asg)
      = Done (Framework.State temp' cs asg) ∧
    length temp' = length temp ∧
    ∀ c, c < k → temp' !! c = Some [].
Proof.
  intros Ht.
  destruct (for_each_inv
    (λ done st, Framework.st_centroids st = cs ∧ Framework.st_assignments st = asg ∧
       length (Framework.st_temp st) = length temp ∧
       ∀ c, c ∈ done → Framework.st_temp st !! c = Some [])
    Framework.clear_body (seq 0 k) (Framework.State temp cs asg))
    as ([t' cs' asg'] & -> & Hcs & Hasg & Hl & Hz); simpl in *.
  - repeat split; try done. intros c Hc. by apply elem_of_nil in Hc.
  - intros pre i post [t1 cs1 a1] Ho (? & ? & Hl & Hz); simpl in *; subst.
    apply range_middle in Ho as Hi.
    eexists. unfold Framework.clear_body; simpl.
    rewrite vec_set_lt, bind_Done by lia. split; [done|]. simpl.
    rewrite length_insert. repeat split; try done.
    intros c Hc. destruct (decide (c = i)) as [->|?].
    + rewrite list_lookup_insert_eq; [done|lia].
    + rewrite list_lookup_insert_ne by done. by eapply Hz, elem_of_snoc_ne.
  - subst. exists t'. repeat split; try done. intros c Hc. apply Hz, elem_of_seq. lia.
Qed.

Lemma framework_assign_loop pts order last temp cs asg k :
  cs ≠ [] → length cs = k → k ≤ length temp →
  (∀ i, i ∈ order → i < length pts) →
  length asg = length pts →
  (∀ c, c < k → temp !! c = Some []) →
  ∃ temp' asg',
    for_each order (Framework.assign_body pts last) (Framework.State temp cs asg)
      = Done (Framework.State temp' cs asg') ∧
    length temp' = length temp ∧ length asg' = length asg ∧
    (∀ c, c < k → temp' !! c = Some (members to_uint8 cs c (visited pts order))) ∧
    (if last
     then ∀ i, asg' !! i =
            if decide (i ∈ order) then to_uint8 ∘ nearest cs <$> pts !! i else asg !! i
     else asg' = asg).
Proof.
  intros Hne Hk Ht Hord Ha Hz.
  destruct (for_each_inv
    (λ done st, Framework.st_centroids st = cs ∧
       length (Framework.st_assignments st) = length asg ∧
       length (Framework.st_temp st) = length temp ∧
       (∀ c, c < k →
          Framework.st_temp st !! c = Some (members to_uint8 cs c (visited pts done))) ∧
       (if last
        then ∀ i, Framework.st_assignments st !! i =
               if decide (i ∈ done) then to_uint8 ∘ nearest cs <$> pts !! i else asg !! i
        else Framework.st_assignments st = asg))
    (Framework.assign_body pts last) order (Framework.State temp cs asg))
    as ([t' cs' asg'] & -> & Hcs & Hla & Hlt & Hacc & Hasg); simpl in *.
  - repeat split; try done. by destruct last.
  - intros pre i post [t1 cs1 a1] Ho (? & Hla & Hlt & Hacc & Hasg); simpl in *; subst cs1.
    assert (i < length pts) as Hi by (apply Hord; rewrite Ho; apply elem_of_middle).
    destruct (lookup_lt_is_Some_2 pts i Hi) as [p Hp].
    pose proof (nearest_lt p cs Hne) as Hnear.
    pose proof (to_uint8_le (nearest cs p)) as Hle.
    pose proof (Hacc (to_uint8 (nearest cs p)) ltac:(lia)) as Htn.
    unfold Framework.assign_body; simpl.
    rewrite (vec_at_Some _ _ _ _ Hp), bind_Done.
    rewrite getNearestCluster_nearest, bind_Done by done.
    assert (∃ a', (if last
                   then vec_set Assignments a1 i (to_uint8 (nearest cs p))
                   else Done a1) = Done a' ∧ length a' = length asg ∧
              (if last
               then ∀ j, a' !! j =
                 if decide (j ∈ pre ++ [i]) then to_uint8 ∘ nearest cs <$> pts !! j
                 else asg !! j
               else a' = asg)) as (a' & -> & Hla' & Hasg').
    { destruct last.
      - eexists. rewrite vec_set_lt by lia. split; [done|].
        rewrite length_insert. split; [done|]. intros j.
        destruct (decide (j = i)) as [->|Hji].
        + rewrite list_lookup_insert_eq by lia.
          rewrite decide_True by apply elem_of_middle. by rewrite Hp.
        + rewrite list_lookup_insert_ne by done. rewrite Hasg.
          destruct (decide (j ∈ pre)) as [Hin|Hin].
          * rewrite decide_True; [done|]. apply elem_of_app. by left.
          * rewrite decide_False; [done|]. intros ?. apply Hin. by eapply elem_of_snoc_ne.
      - by exists a1. }
    rewrite bind_Done.
    rewrite (vec_at_Some _ _ _ _ Htn), bind_Done.
    rewrite vec_set_lt, bind_Done by lia.
    eexists. split; [done|]. simpl. rewrite length_insert.
    repeat split; try done.
    intros c Hc. rewrite (visited_snoc _ _ _ p Hp), members_snoc.
    destruct (decide (c = to_uint8 (nearest cs p))) as [->|Hcne].
    + rewrite list_lookup_insert_eq by lia. by rewrite decide_True.
    + rewrite list_lookup_insert_ne by done.
      rewrite decide_False, app_nil_r by done. by apply Hacc.
  - subst cs'. by exists t', asg'.
Qed.

Lemma framework_update_loop plan order (t : nat → list point_t) temp cs asg k :
  length cs = k →
  (∀ i, i ∈ order ↔ i < k) →
  (∀ c, c < k → temp !! c = Some (t c)) →
  for_each order (Framework.update_body plan) (Framework.State temp cs asg)
    = Done (Framework.State temp
        (imap (λ c old, if decide (length (t c) = 0) then old else mean (t c)) cs) asg).
Proof.
  intros Hk Hord Hacc.
  destruct (for_each_inv
    (λ done st, Framework.st_temp st = temp ∧ Framework.st_assignments st = asg ∧
       length (Framework.st_centroids st) = k ∧
       ∀ c, Framework.st_centroids st !! c =
         if decide (c ∈ done)
         then (λ old, if decide (length (t c) = 0) then old else mean (t c)) <$> cs !! c
         else cs !! c)
    (Framework.update_body plan) order (Framework.State temp cs asg))
    as ([t' cs' asg'] & -> & ? & ? & Hl & Hcs); simpl in *.
  - by repeat split.
  - intros pre i post [t1 cs1 a1] Ho (H1 & H2 & Hl & Hcs); simpl in *; subst t1 a1 k.
    assert (i < length cs) as Hi by (apply Hord; rewrite Ho; apply elem_of_middle).
    pose proof (Hacc i Hi) as Hti.
    unfold Framework.update_body; simpl.
    rewrite (vec_at_Some _ _ _ _ Hti), bind_Done.
    destruct (lookup_lt_is_Some_2 cs i ltac:(lia)) as [old Hold].
    destruct (decide (length (t i) = 0)) as [Hz|Hnz].
    + eexists. split; [done|]. simpl. repeat split; try done.
      intros c. rewrite Hcs. destruct (decide (c = i)) as [->|Hne].
      * rewrite (decide_True (P := i ∈ pre ++ [i])) by apply elem_of_middle.
        rewrite Hold. simpl. rewrite (decide_True (P := length (t i) = 0)) by done.
        by destruct (decide (i ∈ pre)).
      * destruct (decide (c ∈ pre)) as [Hin|Hin].
        -- rewrite decide_True; [done|]. apply elem_of_app. by left.
        -- rewrite decide_False; [done|]. intros ?. apply Hin. by eapply elem_of_snoc_ne.
    + eexists. rewrite vec_set_lt, bind_Done by lia. split; [done|]. simpl.
      rewrite length_insert. repeat split; try done.
      intros c. destruct (decide (c = i)) as [->|Hne].
      * rewrite list_lookup_insert_eq by lia.
        rewrite (decide_True (P := i ∈ pre ++ [i])) by apply elem_of_middle.
        rewrite Hold. simpl. rewrite (decide_False (P := length (t i) = 0)) by done.
        by rewrite parallel_reduce_psum.
      * rewrite list_lookup_insert_ne by done. rewrite Hcs.
        destruct (decide (c ∈ pre)) as [Hin|Hin].
        -- rewrite decide_True; [done|]. apply elem_of_app. by left.
        -- rewrite decide_False; [done|]. intros ?. apply Hin. by eapply elem_of_snoc_ne.
  - subst. f_equal. f_equal. apply list_eq. intros c.
    rewrite Hcs, list_lookup_imap. destruct (decide (c ∈ order)) as [Hin|Hin]; [done|].
    rewrite lookup_ge_None_2; [done|]. rewrite Hord in Hin. lia.
Qed.

Lemma centroids_after_0 ix pts cs : centroids_after ix pts cs 0 = cs.
Proof. reflexivity. Qed.

Lemma framework_iteration s n pts k last temp cs asg :
  Framework.valid_schedule s →
  cs ≠ [] → length cs = k → k ≤ length temp → n ≤ length pts →
  length asg = length pts →
  ∃ temp',
    Framework.iteration s n pts k last (Framework.State temp cs asg)
      = Done (Framework.State temp' (step to_uint8 (take n pts) cs)
                (if last then (to_uint8 ∘ nearest cs <$> take n pts) ++ drop n asg
                 else asg)) ∧
    length temp' = length temp ∧
    ∀ c, c < k → ∃ t, temp' !! c = Some t ∧ t ≡ₚ members to_uint8 cs c (take n pts).
Proof.
  intros [HA HB] Hne Hk Ht Hn Ha. unfold Framework.iteration.
  destruct (framework_clear_loop k temp cs asg Ht) as (t1 & -> & Ht1 & Hz).
  rewrite bind_Done.
  assert (∀ i, i ∈ Framework.assign_order s (seq 0 n) ↔ i < n) as HinA.
  { intros i. rewrite HA, elem_of_seq. lia. }
  assert (∀ i, i ∈ Framework.update_order s (seq 0 k) ↔ i < k) as HinB.
  { intros i. rewrite HB, elem_of_seq. lia. }
  destruct (framework_assign_loop pts (Framework.assign_order s (seq 0 n)) last
              t1 cs asg k Hne Hk ltac:(lia)) as (t2 & a2 & -> & Ht2 & Ha2 & Hacc & Hasg);
    [intros i Hi%HinA; lia|done|done|].
  rewrite bind_Done.
  rewrite (framework_update_loop _ _
             (λ c, members to_uint8 cs c (visited pts (Framework.assign_order s (seq 0 n))))
             t2 cs a2 k)
    by done.
  assert (∀ c, members to_uint8 cs c (visited pts (Framework.assign_order s (seq 0 n)))
               ≡ₚ members to_uint8 cs c (take n pts)) as Hperm.
  { intros c. apply members_perm, visited_perm; [done|apply HA]. }
  exists t2. split; [|split; [congruence|]].
  - f_equal. f_equal.
    + unfold step. apply imap_ext. intros c old _. unfold recentre.
      by rewrite (Permutation_length (Hperm c)), (mean_perm _ _ (Hperm c)).
    + destruct last; [|done]. apply list_eq. intros i. rewrite Hasg.
      destruct (decide (i < n)) as [Hi|Hi].
      * rewrite decide_True by by apply HinA.
        rewrite lookup_app_l by (rewrite length_fmap, length_take; lia).
        by rewrite list_lookup_fmap, lookup_take_lt.
      * rewrite decide_False by (rewrite HinA; lia).
        rewrite lookup_app_r by (rewrite length_fmap, length_take; lia).
        rewrite length_fmap, length_take, lookup_drop. f_equal. lia.
  - intros c Hc. eexists. split; [by apply Hacc|apply Hperm].
Qed.

Lemma framework_refine sched n pts k iters : ∀ j temp cs asg,
  (∀ j, Framework.valid_schedule (sched j)) →
  cs ≠ [] → length cs = k → k ≤ length temp → n ≤ length pts →
  length asg = length pts →
  ∃ temp',
    Framework.refine sched n pts k iters j (Framework.State temp cs asg)
      = Done (Framework.State temp'
                (centroids_after to_uint8 (take n pts) cs iters)
                (assignments_after to_uint8 (take n pts) cs asg iters)) ∧
    length temp' = length temp ∧
    match iters with
    | 0 => True
    | S m => ∀ c, c < k → ∃ t, temp' !! c = Some t ∧
               t ≡ₚ members to_uint8 (centroids_after to_uint8 (take n pts) cs m) c
                      (take n pts)
    end.
Proof.
  induction iters as [|m IH]; intros j temp cs asg Hv Hne Hk Ht Hn Ha; simpl.
  - by exists temp.
  - destruct (framework_iteration (sched j) n pts k (bool_decide (m = 0)) temp cs asg)
      as (t1 & -> & Ht1 & Hacc1); try done.
    rewrite bind_Done. destruct m as [|m'].
    + simpl. exists t1. unfold assignments_after.
      by rewrite centroids_after_0, length_take, Nat.min_l.
    + rewrite bool_decide_false by done.
      destruct (IH (S j) t1 (step to_uint8 (take n pts) cs) asg)
        as (t2 & -> & Ht2 & Hacc2); try done.
      * apply nonempty_length. rewrite step_length. destruct cs; simpl; [done|lia].
      * by rewrite step_length.
      * lia.
      * exists t2. rewrite centroids_after_S. split; [|split; [congruence|]].
        -- f_equal. f_equal. unfold assignments_after. by rewrite centroids_after_S.
        -- intros c Hc. destruct (Hacc2 c Hc) as (t & ? & ?).
           exists t. by rewrite <- centroids_after_S.
Qed.

(** ** Initialisation *)

Lemma push_empty_app k : ∀ v, Framework.push_empty k v = v ++ replicate k [].
Proof.
  induction k as [|k IH]; intros v; simpl; [by rewrite app_nil_r|].
  by rewrite IH, <- app_assoc.
Qed.

Lemma framework_init_length n k it e :
  length (Framework.temp_assignments (Framework.init n k it e))
  = length (Framework.temp_assignments e) + k.
Proof. simpl. by rewrite push_empty_app, length_app, length_replicate. Qed.

Lemma serial_init_length n k it e :
  length (Serial.sums (Serial.init n k it e)) = k ∧
  length (Serial.counts (Serial.init n k it e)) = k.
Proof. simpl. by rewrite !length_resize. Qed.

(** ** What [compute] returns *)

Lemma serial_compute e pts k iters cs_in asg_in :
  1 ≤ k → k ≤ length pts →
  k ≤ length (Serial.sums e) → k ≤ length (Serial.counts e) →
  ∃ e',
    Serial.compute e pts k iters cs_in asg_in
      = Done (e', centroids_after id pts (take k pts) iters,
              assignments_after id pts (take k pts)
                (resize (length pts) 0 asg_in) iters).
Proof.
  intros Hk1 Hk Hs Hc. unfold Serial.compute.
  rewrite serial_seed, bind_Done by (by rewrite ?length_resize).
  destruct (serial_refine pts k iters (Serial.sums e) (Serial.counts e) (take k pts)
              (resize (length pts) 0 asg_in)) as (s' & c' & -> & _ & _); try done.
  - apply nonempty_length. rewrite length_take. lia.
  - rewrite length_take. lia.
  - by rewrite length_resize.
  - rewrite bind_Done. by eexists.
Qed.

Lemma framework_compute sched e pts k iters cs_in asg_in :
  (∀ j, Framework.valid_schedule (sched j)) →
  1 ≤ k → k ≤ length pts →
  k ≤ length (Framework.temp_assignments e) →
  Framework.POINTS_SIZE e ≤ length pts →
  let pts' := take (Framework.POINTS_SIZE e) pts in
  ∃ temp',
    Framework.compute sched e pts k iters cs_in asg_in
      = Done (Framework.Engine temp' (Framework.POINTS_SIZE e),
              centroids_after to_uint8 pts' (take k pts) iters,
              assignments_after to_uint8 pts' (take k pts)
                (resize (length pts) 0 asg_in) iters) ∧
    match iters with
    | 0 => True
    | S m => ∀ c, c < k → ∃ t, temp' !! c = Some t ∧
               t ≡ₚ members to_uint8 (centroids_after to_uint8 pts' (take k pts) m) c pts'
    end.
Proof.
  intros Hv Hk1 Hk Ht Hn pts'. unfold Framework.compute.
  rewrite framework_seed, bind_Done by (by rewrite ?length_resize).
  destruct (framework_refine sched (Framework.POINTS_SIZE e) pts k iters 0
              (Framework.temp_assignments e) (take k pts)
              (resize (length pts) 0 asg_in)) as (t' & -> & _ & Hacc); try done.
  - apply nonempty_length. rewrite length_take. lia.
  - rewrite length_take. lia.
  - by rewrite length_resize.
  - rewrite bind_Done. by exists t'.
Qed.

Lemma centroids_after_uint8 pts cs n :
  length cs ≤ 256 → centroids_after to_uint8 pts cs n = centroids_after id pts cs n.
Proof.
  intros Hk. induction n as [|n IH]; [done|].
  unfold centroids_after in *. rewrite !Nat.iter_succ, IH.
  apply step_uint8. fold (centroids_after id pts cs n).
  by rewrite centroids_after_length.
Qed.

Lemma assignments_after_uint8 pts cs asg n :
  length cs ≤ 256 →
  assignments_after to_uint8 pts cs asg n = assignments_after id pts cs asg n.
Proof.
  intros Hk. destruct n as [|n]; [done|]. unfold assignments_after.
  by rewrite centroids_after_uint8.
Qed.

Lemma sequential_schedule_valid : Framework.valid_schedule Framework.sequential_schedule.
Proof. by split. Qed.

Lemma reversed_schedule_valid : Framework.valid_schedule Framework.reversed_schedule.
Proof. split; intros l; apply reverse_Permutation. Qed.

(** The output vectors of both engines after [init] with the number of
    points, in terms of the functional description. *)
Lemma serial_outputs es pts k iters cs_in asg_in :
  1 ≤ k → k ≤ length pts →
  outputs (Serial.compute (Serial.init (length pts) k iters es) pts k iters cs_in asg_in)
  = Done (centroids_after id pts (take k pts) iters,
          assignments_after id pts (take k pts) (resize (length pts) 0 asg_in) iters).
Proof.
  intros Hk1 Hk.
  destruct (serial_init_length (length pts) k iters es) as [Hs Hc].
  by destruct (serial_compute (Serial.init (length pts) k iters es) pts k iters
                 cs_in asg_in) as (e1 & ->); [lia..|].
Qed.

Lemma framework_outputs sched ef pts k iters cs_in asg_in :
  (∀ j, Framework.valid_schedule (sched j)) →
  1 ≤ k ≤ 256 → k ≤ length pts →
  outputs (Framework.compute sched (Framework.init (length pts) k iters ef)
             pts k iters cs_in asg_in)
  = Done (centroids_after id pts (take k pts) iters,
          assignments_after id pts (take k pts) (resize (length pts) 0 asg_in) iters).
Proof.
  intros Hv [Hk1 Hk256] Hk.
  destruct (framework_compute sched (Framework.init (length pts) k iters ef)
              pts k iters cs_in asg_in) as (t2 & -> & _); try done.
  { rewrite framework_init_length. lia. }
  simpl. rewrite firstn_all.
  by rewrite centroids_after_uint8, assignments_after_uint8 by (rewrite length_take; lia).
Qed.

Lemma assignments_after_S ix pts cs asg m :
  length asg = length pts →
  assignments_after ix pts cs asg (S m)
  = (to_uint8 ∘ nearest (centroids_after ix pts cs m) <$> pts).
Proof. intros H. unfold assignments_after. by rewrite drop_ge, app_nil_r by lia. Qed.

Lemma centroids_after_step ix pts cs m :
  centroids_after ix pts cs (S m) = step ix pts (centroids_after ix pts cs m).
Proof. reflexivity. Qed.

Lemma assigned_to_fmap (f : point_t → nat) pts c :
  assigned_to pts (f <$> pts) c = filter (λ p, f p = c) pts.
Proof.
  unfold assigned_to. induction pts as [|p pts IH]; [done|].
  simpl. rewrite !filter_cons. simpl.
  destruct (decide (f p = c)); simpl; [f_equal|]; exact IH.
Qed.

(** With at most 256 centroids, the points a returned assignment vector
    gives to cluster [c] are the points whose nearest centroid is [c]. *)
Lemma assigned_to_members pts cs c :
  cs ≠ [] → length cs ≤ 256 →
  assigned_to pts (to_uint8 ∘ nearest cs <$> pts) c = members id cs c pts.
Proof.
  intros Hne Hk. rewrite assigned_to_fmap, <- (members_uint8 cs c pts Hk). done.
Qed.

(** ** The two engines return the same vectors *)

(** C1: when [init] was called with the number of points, [1 <= k <= 256]
    and [k <= points.size()], [compute] of the TBB engine returns the same
    centroids and assignments as [compute] of the serial engine, for every
    valid schedule of the parallel loops and reductions (and whatever the
    engines held before [init]). *)
Theorem engines_agree (sched : nat → Framework.schedule) (es : Serial.engine)
    (ef : Framework.engine) (points : list point_t) (k iters : nat)
    (centroids : list point_t) (assignments : list nat) :
  (∀ j, Framework.valid_schedule (sched j)) →
  1 ≤ k ≤ 256 → k ≤ length points →
  ∃ cs asg,
    outputs (Serial.compute (Serial.init (length points) k iters es)
               points k iters centroids assignments) = Done (cs, asg) ∧
    outputs (Framework.compute sched (Framework.init (length points) k iters ef)
               points k iters centroids assignments) = Done (cs, asg).
Proof.
  intros Hv Hk256 Hk.
  rewrite serial_outputs, framework_outputs by (done || lia).
  by do 2 eexists.
Qed.

Lemma engines_agree_witness :
  ∃ cs asg,
    outputs (Serial.compute (Serial.init 4 2 3 (Serial.Engine [] []))
               [Point 0 0; Point 10 0; Point 0 10; Point 10 10] 2 3 [] [])
      = Done (cs, asg) ∧
    outputs (Framework.compute (λ _, Framework.reversed_schedule)
               (Framework.init 4 2 3 (Framework.Engine [] 0))
               [Point 0 0; Point 10 0; Point 0 10; Point 10 10] 2 3 [] [])
      = Done (cs, asg).
Proof.
  apply (engines_agree (λ _, Framework.reversed_schedule) (Serial.Engine [] [])
           (Framework.Engine [] 0) [Point 0 0; Point 10 0; Point 0 10; Point 10 10] 2 3).
  - intros _. apply reversed_schedule_valid.
  - lia.
  - simpl. lia.
Defined.

(** ** Assignments are valid indices *)

(** C7: with [1 <= k <= 256], [points.size() >= k] and [iters >= 1], every
    element of the assignment vector either engine returns is below [k]
    (and the vector has one element per point). *)
Theorem assignments_valid (sched : nat → Framework.schedule) (es : Serial.engine)
    (ef : Framework.engine) (points : list point_t) (k iters : nat)
    (centroids : list point_t) (assignments : list nat) :
  (∀ j, Framework.valid_schedule (sched j)) →
  1 ≤ k ≤ 256 → k ≤ length points → 1 ≤ iters →
  (∃ cs asg,
     outputs (Serial.compute (Serial.init (length points) k iters es)
                points k iters centroids assignments) = Done (cs, asg) ∧
     length asg = length points ∧ ∀ i a, asg !! i = Some a → 0 ≤ a < k) ∧
  (∃ cs asg,
     outputs (Framework.compute sched (Framework.init (length points) k iters ef)
                points k iters centroids assignments) = Done (cs, asg) ∧
     length asg = length points ∧ ∀ i a, asg !! i = Some a → 0 ≤ a < k).
Proof.
  intros Hv Hk256 Hk Hit.
  rewrite serial_outputs, framework_outputs by (done || lia).
  destruct iters as [|m]; [lia|].
  rewrite assignments_after_S by by rewrite length_resize.
  assert (length (to_uint8 ∘ nearest (centroids_after id points (take k points) m)
                    <$> points) = length points ∧
          ∀ i a, (to_uint8 ∘ nearest (centroids_after id points (take k points) m)
                    <$> points) !! i = Some a → 0 ≤ a < k) as Hasg.
  { split; [by rewrite length_fmap|]. intros i a.
    rewrite list_lookup_fmap. destruct (points !! i) as [p|]; [|done].
    simpl. intros [= <-].
    pose proof (nearest_lt p (centroids_after id points (take k points) m)) as Hlt.
    rewrite centroids_after_length, length_take in Hlt.
    pose proof (to_uint8_le (nearest (centroids_after id points (take k points) m) p)).
    specialize (Hlt ltac:(apply centroids_after_nonempty, nonempty_length;
                          rewrite length_take; lia)).
    lia. }
  split; do 2 eexists; (split; [done|exact Hasg]).
Qed.

Lemma assignments_valid_witness :
  (∃ cs asg,
     outputs (Serial.compute (Serial.init 4 2 3 (Serial.Engine [] []))
                [Point 0 0; Point 10 0; Point 0 10; Point 10 10] 2 3 [] [])
       = Done (cs, asg) ∧
     length asg = 4 ∧ ∀ i a, asg !! i = Some a → 0 ≤ a < 2) ∧
  (∃ cs asg,
     outputs (Framework.compute (λ _, Framework.reversed_schedule)
                (Framework.init 4 2 3 (Framework.Engine [] 0))
                [Point 0 0; Point 10 0; Point 0 10; Point 10 10] 2 3 [] [])
       = Done (cs, asg) ∧
     length asg = 4 ∧ ∀ i a, asg !! i = Some a → 0 ≤ a < 2).
Proof.
  apply (assignments_valid (λ _, Framework.reversed_schedule) (Serial.Engine [] [])
           (Framework.Engine [] 0) [Point 0 0; Point 10 0; Point 0 10; Point 10 10] 2 3).
  - intros _. apply reversed_schedule_valid.
  - lia.
  - simpl. lia.
  - lia.
Defined.

(** ** The centroid update of the last iteration *)

(** A run of [n + m] iterations passes through the state of the run of [n]
    iterations. *)
Lemma serial_refine_split pts k n m st :
  Serial.refine pts k (n + m) st = Serial.refine pts k n st ≫= Serial.refine pts k m.
Proof.
  revert st. induction n as [|n IH]; intros st; simpl; [done|].
  destruct (Serial.iteration pts k st) as [st'|v]; [|done].
  rewrite !bind_Done. apply IH.
Qed.

Lemma centroids_after_add ix pts cs n m :
  centroids_after ix pts cs (n + m)
  = centroids_after ix pts (centroids_after ix pts cs n) m.
Proof. unfold centroids_after. by rewrite Nat.add_comm, Nat.iter_add. Qed.

(** Cluster [c] in the iteration that follows [m] completed ones. *)
Lemma final_iteration pts k m asg_in c :
  1 ≤ k ≤ 256 → k ≤ length pts → c < k →
  let cs0 := centroids_after id pts (take k pts) m in
  let asg := assignments_after id pts (take k pts) (resize (length pts) 0 asg_in) (S m) in
  ∃ old,
    cs0 !! c = Some old ∧
    centroids_after id pts (take k pts) (S m) !! c = Some (recentre id pts cs0 c old) ∧
    assigned_to pts asg c = members id cs0 c pts.
Proof.
  intros [Hk1 Hk256] Hk Hc cs0 asg.
  assert (length cs0 = k) as Hl.
  { unfold cs0. rewrite centroids_after_length, length_take. lia. }
  destruct (lookup_lt_is_Some_2 cs0 c ltac:(lia)) as [old Hold].
  exists old. split; [done|]. split.
  - rewrite centroids_after_step, step_lookup. fold cs0. by rewrite Hold.
  - unfold asg. rewrite assignments_after_S by by rewrite length_resize.
    apply assigned_to_members; [|lia]. apply nonempty_length. lia.
Qed.

Lemma mean_truncated_mean ms :
  ms ≠ [] → (Z.of_nat (length ms) < 2 ^ 63)%Z → mean ms = truncated_mean sum64 ms.
Proof.
  intros Hne Hlen. unfold truncated_mean, mean. simpl.
  assert (0 < Z.of_nat (length ms))%Z by (destruct ms; simpl in *; [done|lia]).
  rewrite size_to_int64_id by done.
  by rewrite !div64_exact by (done || apply to_int64_range).
Qed.

Lemma truncated_mean_exact ms :
  (int64_range (sumZ (x <$> ms)) →
   x (truncated_mean sum64 ms) = x (truncated_mean sumZ ms)) ∧
  (int64_range (sumZ (y <$> ms)) →
   y (truncated_mean sum64 ms) = y (truncated_mean sumZ ms)).
Proof. split; intros Hfit; simpl; by rewrite sum64_exact. Qed.

Lemma members_length_le ix cs c pts : length (members ix cs c pts) ≤ length pts.
Proof. unfold members. apply length_filter. Qed.

(** C2, as amended: with [1 <= k <= 256], [points.size() >= k],
    [iters >= 1] and fewer than 2^63 points, either engine returns [k]
    centroids and one assignment per point, and the centroid of every cluster
    [c] that the returned assignment gives a point is, per coordinate, the
    sum of the coordinates of the points assigned to [c], as 64-bit additions
    give it, divided by their number with truncation toward zero. Where the
    exact sum of a coordinate fits in 64 bits, that coordinate of the
    centroid is the exact sum divided by the number of members, truncated
    toward zero. *)
Theorem mean_correctness (sched : nat → Framework.schedule) (es : Serial.engine)
    (ef : Framework.engine) (points : list point_t) (k iters : nat)
    (centroids : list point_t) (assignments : list nat) (c : nat) :
  (∀ j, Framework.valid_schedule (sched j)) →
  1 ≤ k ≤ 256 → k ≤ length points → 1 ≤ iters →
  (Z.of_nat (length points) < 2 ^ 63)%Z →
  c < k →
  (∃ cs asg,
     outputs (Serial.compute (Serial.init (length points) k iters es)
                points k iters centroids assignments) = Done (cs, asg) ∧
     length cs = k ∧ length asg = length points ∧
     (assigned_to points asg c ≠ [] →
      ∃ q, cs !! c = Some q ∧
        q = truncated_mean sum64 (assigned_to points asg c) ∧
        (int64_range (sumZ (x <$> assigned_to points asg c)) →
         x q = x (truncated_mean sumZ (assigned_to points asg c))) ∧
        (int64_range (sumZ (y <$> assigned_to points asg c)) →
         y q = y (truncated_mean sumZ (assigned_to points asg c))))) ∧
  (∃ cs asg,
     outputs (Framework.compute sched (Framework.init (length points) k iters ef)
                points k iters centroids assignments) = Done (cs, asg) ∧
     length cs = k ∧ length asg = length points ∧
     (assigned_to points asg c ≠ [] →
      ∃ q, cs !! c = Some q ∧
        q = truncated_mean sum64 (assigned_to points asg c) ∧
        (int64_range (sumZ (x <$> assigned_to points asg c)) →
         x q = x (truncated_mean sumZ (assigned_to points asg c))) ∧
        (int64_range (sumZ (y <$> assigned_to points asg c)) →
         y q = y (truncated_mean sumZ (assigned_to points asg c))))).
Proof.
  intros Hv Hk256 Hk Hit Hsize Hc.
  rewrite serial_outputs, framework_outputs by (done || lia).
  destruct iters as [|m]; [lia|].
  destruct (final_iteration points k m assignments c Hk256 Hk Hc)
    as (old & Hold & Hnew & Hmem).
  set (cs := centroids_after id points (take k points) (S m)) in *.
  set (asg := assignments_after id points (take k points)
                (resize (length points) 0 assignments) (S m)) in *.
  assert (length cs = k) as Hlcs.
  { unfold cs. rewrite centroids_after_length, length_take. lia. }
  assert (length asg = length points) as Hlasg.
  { unfold asg. rewrite assignments_after_S by by rewrite length_resize.
    by rewrite length_fmap. }
  assert (assigned_to points asg c ≠ [] →
          ∃ q, cs !! c = Some q ∧
            q = truncated_mean sum64 (assigned_to points asg c) ∧
            (int64_range (sumZ (x <$> assigned_to points asg c)) →
             x q = x (truncated_mean sumZ (assigned_to points asg c))) ∧
            (int64_range (sumZ (y <$> assigned_to points asg c)) →
             y q = y (truncated_mean sumZ (assigned_to points asg c)))) as Hmean.
  { intros Hne. exists (truncated_mean sum64 (assigned_to points asg c)).
    split; [|split; [done|apply truncated_mean_exact]].
    rewrite Hmem in *. rewrite Hnew. f_equal.
    unfold recentre. rewrite decide_False.
    - apply mean_truncated_mean; [done|].
      pose proof (members_length_le id (centroids_after id points (take k points) m)
                    c points). lia.
    - intros Hz. by apply nil_length_inv in Hz. }
  split; exists cs, asg; done.
Qed.

Lemma mean_correctness_witness :
  (∃ cs asg,
     outputs (Serial.compute (Serial.init 4 2 1 (Serial.Engine [] []))
                [Point 0 0; Point 10 0; Point (-3) 10; Point 10 10] 2 1 [] [])
       = Done (cs, asg) ∧
     length cs = 2 ∧
     length asg = length [Point 0 0; Point 10 0; Point (-3) 10; Point 10 10] ∧
     (assigned_to [Point 0 0; Point 10 0; Point (-3) 10; Point 10 10] asg 0 ≠ [] →
      ∃ q, cs !! 0 = Some q ∧
        q = truncated_mean sum64
              (assigned_to [Point 0 0; Point 10 0; Point (-3) 10; Point 10 10] asg 0) ∧
        (int64_range
           (sumZ (x <$> assigned_to [Point 0 0; Point 10 0; Point (-3) 10; Point 10 10]
                          asg 0)) →
         x q = x (truncated_mean sumZ
                    (assigned_to [Point 0 0; Point 10 0; Point (-3) 10; Point 10 10]
                       asg 0))) ∧
        (int64_range
           (sumZ (y <$> assigned_to [Point 0 0; Point 10 0; Point (-3) 10; Point 10 10]
                          asg 0)) →
         y q = y (truncated_mean sumZ
                    (assigned_to [Point 0 0; Point 10 0; Point (-3) 10; Point 10 10]
                       asg 0))))) ∧
  (∃ cs asg,
     outputs (Framework.compute (λ _, Framework.reversed_schedule)
                (Framework.init 4 2 1 (Framework.Engine [] 0))
                [Point 0 0; Point 10 0; Point (-3) 10; Point 10 10] 2 1 [] [])
       = Done (cs, asg) ∧
     length cs = 2 ∧
     length asg = length [Point 0 0; Point 10 0; Point (-3) 10; Point 10 10] ∧
     (assigned_to [Point 0 0; Point 10 0; Point (-3) 10; Point 10 10] asg 0 ≠ [] →
      ∃ q, cs !! 0 = Some q ∧
        q = truncated_mean sum64
              (assigned_to [Point 0 0; Point 10 0; Point (-3) 10; Point 10 10] asg 0) ∧
        (int64_range
           (sumZ (x <$> assigned_to [Point 0 0; Point 10 0; Point (-3) 10; Point 10 10]
                          asg 0)) →
         x q = x (truncated_mean sumZ
                    (assigned_to [Point 0 0; Point 10 0; Point (-3) 10; Point 10 10]
                       asg 0))) ∧
        (int64_range
           (sumZ (y <$> assigned_to [Point 0 0; Point 10 0; Point (-3) 10; Point 10 10]
                          asg 0)) →
         y q = y (truncated_mean sumZ
                    (assigned_to [Point 0 0; Point 10 0; Point (-3) 10; Point 10 10]
                       asg 0))))).
Proof.
  apply (mean_correctness (λ _, Framework.reversed_schedule) (Serial.Engine [] [])
           (Framework.Engine [] 0)
           [Point 0 0; Point 10 0; Point (-3) 10; Point 10 10] 2 1 [] [] 0).
  - intros _. apply reversed_schedule_valid.
  - lia.
  - simpl. lia.
  - lia.
  - simpl. lia.
  - lia.
Defined.

(** C2, as stated, fails where a sum of coordinates overflows: the two points
    (2^62,0) in one cluster have the mean (2^62,0), and both engines return
    the centroid (-2^62,0). *)
Lemma mean_of_overflowing_sum :
  let points := [Point 4611686018427387904 0; Point 4611686018427387904 0] in
  outputs (Serial.compute (Serial.init 2 1 1 (Serial.Engine [] [])) points 1 1 [] [])
    = Done ([Point (-4611686018427387904) 0], [0; 0]) ∧
  outputs (Framework.compute (λ _, Framework.sequential_schedule)
             (Framework.init 2 1 1 (Framework.Engine [] 0)) points 1 1 [] [])
    = Done ([Point (-4611686018427387904) 0], [0; 0]) ∧
  assigned_to points [0; 0] 0 = points ∧
  truncated_mean sumZ points = Point 4611686018427387904 0.
Proof. repeat split. Qed.

(** The truncation is toward zero: the cluster of (0,0) and (-3,10) gets the
    centroid (-1,5), not (-2,5). *)
Example mean_truncates_toward_zero :
  outputs (Serial.compute (Serial.init 4 2 1 (Serial.Engine [] []))
             [Point 0 0; Point 10 0; Point (-3) 10; Point 10 10] 2 1 [] [])
  = Done ([Point (-1) 5; Point 10 5], [0; 1; 0; 1]).
Proof. reflexivity. Qed.

(** ** Empty clusters *)

(** C4: when the assignment of the iteration that follows [m] completed
    ones gives no point to cluster [c], the centroid of [c] after that
    iteration is its centroid before it, in either engine; [m] is arbitrary,
    so this covers every iteration, the final one included. *)
Theorem empty_cluster_keeps_centroid (sched : nat → Framework.schedule)
    (es : Serial.engine) (ef : Framework.engine) (points : list point_t) (k m : nat)
    (centroids : list point_t) (assignments : list nat) (c : nat) :
  (∀ j, Framework.valid_schedule (sched j)) →
  1 ≤ k ≤ 256 → k ≤ length points → c < k →
  (∃ cs0 asg0 cs asg,
     outputs (Serial.compute (Serial.init (length points) k m es)
                points k m centroids assignments) = Done (cs0, asg0) ∧
     outputs (Serial.compute (Serial.init (length points) k (S m) es)
                points k (S m) centroids assignments) = Done (cs, asg) ∧
     is_Some (cs0 !! c) ∧
     (assigned_to points asg c = [] → cs !! c = cs0 !! c)) ∧
  (∃ cs0 asg0 cs asg,
     outputs (Framework.compute sched (Framework.init (length points) k m ef)
                points k m centroids assignments) = Done (cs0, asg0) ∧
     outputs (Framework.compute sched (Framework.init (length points) k (S m) ef)
                points k (S m) centroids assignments) = Done (cs, asg) ∧
     is_Some (cs0 !! c) ∧
     (assigned_to points asg c = [] → cs !! c = cs0 !! c)).
Proof.
  intros Hv Hk256 Hk Hc.
  rewrite !serial_outputs, !framework_outputs by (done || lia).
  destruct (final_iteration points k m assignments c Hk256 Hk Hc)
    as (old & Hold & Hnew & Hmem).
  assert (assigned_to points
            (assignments_after id points (take k points)
               (resize (length points) 0 assignments) (S m)) c = [] →
          centroids_after id points (take k points) (S m) !! c
          = centroids_after id points (take k points) m !! c) as Hkeep.
  { rewrite Hmem, Hnew, Hold. intros Hnil. unfold recentre.
    by rewrite Hnil, decide_True. }
  split; do 4 eexists; (split; [done|]); (split; [done|]); (split; [by eexists|]);
    exact Hkeep.
Qed.

Lemma empty_cluster_keeps_centroid_witness :
  (∃ cs0 asg0 cs asg,
     outputs (Serial.compute (Serial.init 3 2 0 (Serial.Engine [] []))
                [Point 0 0; Point 0 0; Point 5 5] 2 0 [] []) = Done (cs0, asg0) ∧
     outputs (Serial.compute (Serial.init 3 2 1 (Serial.Engine [] []))
                [Point 0 0; Point 0 0; Point 5 5] 2 1 [] []) = Done (cs, asg) ∧
     is_Some (cs0 !! 1) ∧
     (assigned_to [Point 0 0; Point 0 0; Point 5 5] asg 1 = [] → cs !! 1 = cs0 !! 1)) ∧
  (∃ cs0 asg0 cs asg,
     outputs (Framework.compute (λ _, Framework.reversed_schedule)
                (Framework.init 3 2 0 (Framework.Engine [] 0))
                [Point 0 0; Point 0 0; Point 5 5] 2 0 [] []) = Done (cs0, asg0) ∧
     outputs (Framework.compute (λ _, Framework.reversed_schedule)
                (Framework.init 3 2 1 (Framework.Engine [] 0))
                [Point 0 0; Point 0 0; Point 5 5] 2 1 [] []) = Done (cs, asg) ∧
     is_Some (cs0 !! 1) ∧
     (assigned_to [Point 0 0; Point 0 0; Point 5 5] asg 1 = [] → cs !! 1 = cs0 !! 1)).
Proof.
  apply (empty_cluster_keeps_centroid (λ _, Framework.reversed_schedule)
           (Serial.Engine [] []) (Framework.Engine [] 0)
           [Point 0 0; Point 0 0; Point 5 5] 2 0 [] [] 1).
  - intros _. apply reversed_schedule_valid.
  - lia.
  - simpl. lia.
  - lia.
Defined.

(** In that run cluster 1 receives no point (the tie between the two equal
    seeds goes to index 0) and keeps the seed (0,0), while cluster 0 moves to
    the truncated mean (1,1). *)
Example empty_cluster_run :
  outputs (Serial.compute (Serial.init 3 2 1 (Serial.Engine [] []))
             [Point 0 0; Point 0 0; Point 5 5] 2 1 [] [])
  = Done ([Point 1 1; Point 0 0], [0; 0; 0]).
Proof. reflexivity. Qed.

(** ** Nearest-centroid search, exact distances *)

(** C3, as amended: for every point and every non-empty list of centroids
    such that the exact squared distance from the point to each centroid is
    below 2^63, the search returns the least index at which the exact
    squared distance is minimal (so the lower index wins a tie), and
    [distance] returns that exact, non-negative value. *)
Theorem nearest_cluster_least_index (p : point_t) (cs : list point_t) :
  cs ≠ [] →
  (∀ c, c ∈ cs → (sqdist p c < 2 ^ 63)%Z) →
  ∃ i, getNearestCluster p cs = Done i ∧
       least_argmin (sqdist p) cs i ∧
       ∀ c, c ∈ cs → distance p c = sqdist p c ∧ (0 ≤ distance p c)%Z.
Proof.
  intros Hne Hsmall. exists (nearest cs p).
  split; [by apply getNearestCluster_nearest|]. split.
  - apply (least_argmin_ext (distance p)); [|by apply nearest_least_argmin].
    intros c Hc. by apply distance_exact, Hsmall.
  - intros c Hc. rewrite distance_exact by by apply Hsmall.
    split; [done|apply sqdist_nonneg].
Qed.

Lemma nearest_cluster_least_index_witness :
  ∃ i, getNearestCluster (Point 5 0) [Point 0 0; Point 10 0; Point 5 1] = Done i ∧
       least_argmin (sqdist (Point 5 0)) [Point 0 0; Point 10 0; Point 5 1] i ∧
       ∀ c, c ∈ [Point 0 0; Point 10 0; Point 5 1] →
            distance (Point 5 0) c = sqdist (Point 5 0) c ∧ (0 ≤ distance (Point 5 0) c)%Z.
Proof.
  apply (nearest_cluster_least_index (Point 5 0) [Point 0 0; Point 10 0; Point 5 1]).
  - done.
  - intros c Hc. repeat (apply elem_of_cons in Hc as [->|Hc]); [vm_compute; done..|].
    by apply elem_of_nil in Hc.
Defined.

(** Tie: (5,0) is at squared distance 25 from both (0,0) and (10,0); index 0
    is returned. *)
Example tie_goes_to_lower_index :
  getNearestCluster (Point 5 0) [Point 0 0; Point 10 0] = Done 0 ∧
  distance (Point 5 0) (Point 0 0) = distance (Point 5 0) (Point 10 0).
Proof. split; reflexivity. Qed.

(** C3, as stated, fails where the squared distance overflows 64 bits, even
    for coordinates that fit in 32 bits: the point (2^31-1, 0) coincides with
    centroid 1, but [distance] to centroid 0 = (-2^31, 0) is negative and
    index 0 is returned. *)
Lemma nearest_cluster_overflow :
  let p := Point 2147483647 0 in
  let cs := [Point (-2147483648) 0; Point 2147483647 0] in
  getNearestCluster p cs = Done 0 ∧
  (distance p (Point (-2147483648) 0) < 0)%Z ∧
  (sqdist p (Point 2147483647 0) < sqdist p (Point (-2147483648) 0))%Z ∧
  ¬ (∃ i, getNearestCluster p cs = Done i ∧ least_argmin (sqdist p) cs i ∧
          ∀ c, c ∈ cs → (0 ≤ distance p c)%Z).
Proof.
  simpl. split; [reflexivity|]. split; [reflexivity|]. split; [reflexivity|].
  intros (i & Hi & _ & Hpos).
  specialize (Hpos (Point (-2147483648) 0) ltac:(left)).
  vm_compute in Hpos. by apply Hpos.
Qed.

(** ** The scenario of the specification *)

(** C6, as amended: for the points (0,0), (10,0), (0,10), (10,10) with
    [k = 2], the seeds are (0,0) and (10,0); one iteration assigns (0,0) and
    (0,10) to cluster 0, (10,0) and (10,10) to cluster 1, and returns the
    centroids (0,5) and (10,5), in either engine. *)
Theorem scenario_four_points (sched : nat → Framework.schedule) (es : Serial.engine)
    (ef : Framework.engine) (centroids : list point_t) (assignments : list nat) :
  (∀ j, Framework.valid_schedule (sched j)) →
  let points := [Point 0 0; Point 10 0; Point 0 10; Point 10 10] in
  (∃ asg, outputs (Serial.compute (Serial.init 4 2 0 es) points 2 0 centroids assignments)
          = Done ([Point 0 0; Point 10 0], asg)) ∧
  outputs (Serial.compute (Serial.init 4 2 1 es) points 2 1 centroids assignments)
    = Done ([Point 0 5; Point 10 5], [0; 1; 0; 1]) ∧
  outputs (Framework.compute sched (Framework.init 4 2 1 ef) points 2 1
             centroids assignments)
    = Done ([Point 0 5; Point 10 5], [0; 1; 0; 1]).
Proof.
  intros Hv points.
  rewrite !(serial_outputs _ points), (framework_outputs _ _ points)
    by (done || simpl; lia).
  rewrite assignments_after_S by by rewrite length_resize.
  split; [by eexists|]. split; reflexivity.
Qed.

Lemma scenario_four_points_witness :
  let points := [Point 0 0; Point 10 0; Point 0 10; Point 10 10] in
  (∃ asg, outputs (Serial.compute (Serial.init 4 2 0 (Serial.Engine [] []))
                     points 2 0 [] [])
          = Done ([Point 0 0; Point 10 0], asg)) ∧
  outputs (Serial.compute (Serial.init 4 2 1 (Serial.Engine [] [])) points 2 1 [] [])
    = Done ([Point 0 5; Point 10 5], [0; 1; 0; 1]) ∧
  outputs (Framework.compute (λ _, Framework.reversed_schedule)
             (Framework.init 4 2 1 (Framework.Engine [] 0)) points 2 1 [] [])
    = Done ([Point 0 5; Point 10 5], [0; 1; 0; 1]).
Proof.
  apply (scenario_four_points (λ _, Framework.reversed_schedule) (Serial.Engine [] [])
           (Framework.Engine [] 0) [] []).
  intros _. apply reversed_schedule_valid.
Defined.

(** C6, as stated, fails: (10,0) is itself the seed of cluster 1, so it is
    not assigned to cluster 0, and the centroids are not (3,3), (10,10). *)
Lemma scenario_as_stated_fails :
  outputs (Serial.compute (Serial.init 4 2 1 (Serial.Engine [] []))
             [Point 0 0; Point 10 0; Point 0 10; Point 10 10] 2 1 [] [])
  ≠ Done ([Point 3 3; Point 10 10], [0; 0; 0; 1]).
Proof. vm_compute. intros [=]. Qed.

(** ** Repeated initialisation *)

(** C8: [init] of the TBB engine appends [k] accumulators to those it
    already has: after [init] with [k = 2] and again with [k = 3] the engine
    holds 5 accumulators, where the serial engine holds 3 sums and 3 counts. *)
Example init_again_keeps_prior_storage :
  length (Framework.temp_assignments
            (Framework.init 4 3 1 (Framework.init 4 2 1 (Framework.Engine [] 0)))) = 5 ∧
  length (Serial.sums (Serial.init 4 3 1 (Serial.init 4 2 1 (Serial.Engine [] [])))) = 3 ∧
  length (Serial.counts (Serial.init 4 3 1 (Serial.init 4 2 1 (Serial.Engine [] [])))) = 3.
Proof. by repeat split. Qed.

(** ** The recorded point count *)

Lemma framework_assign_step pts last i temp cs asg k :
  cs ≠ [] → length cs = k → k ≤ length temp →
  i < length pts → length asg = length pts →
  ∃ temp' asg',
    Framework.assign_body pts last i (Framework.State temp cs asg)
      = Done (Framework.State temp' cs asg') ∧
    length temp' = length temp ∧ length asg' = length asg.
Proof.
  intros Hne Hk Ht Hi Ha.
  destruct (lookup_lt_is_Some_2 pts i Hi) as [p Hp].
  pose proof (nearest_lt p cs Hne) as Hnear.
  pose proof (to_uint8_le (nearest cs p)) as Hle.
  destruct (lookup_lt_is_Some_2 temp (to_uint8 (nearest cs p)) ltac:(lia)) as [t Htn].
  unfold Framework.assign_body; simpl.
  rewrite (vec_at_Some _ _ _ _ Hp), bind_Done.
  rewrite getNearestCluster_nearest, bind_Done by done.
  destruct last.
  - rewrite vec_set_lt, bind_Done by lia.
    rewrite (vec_at_Some _ _ _ _ Htn), bind_Done.
    rewrite vec_set_lt, bind_Done by lia.
    do 2 eexists. split; [done|]. by rewrite !length_insert.
  - rewrite bind_Done.
    rewrite (vec_at_Some _ _ _ _ Htn), bind_Done.
    rewrite vec_set_lt, bind_Done by lia.
    do 2 eexists. split; [done|]. by rewrite !length_insert.
Qed.

(** The first [parallel_for] reads past the end of [points] when the
    recorded count exceeds the size of the vector. *)
Lemma framework_iteration_short s n pts k last temp cs asg :
  Framework.valid_schedule s →
  cs ≠ [] → length cs = k → k ≤ length temp → length pts < n →
  length asg = length pts →
  Framework.iteration s n pts k last (Framework.State temp cs asg) = OutOfBounds Points.
Proof.
  intros [HA HB] Hne Hk Ht Hn Ha. unfold Framework.iteration.
  destruct (framework_clear_loop k temp cs asg Ht) as (t1 & -> & Ht1 & Hz).
  rewrite bind_Done.
  rewrite (for_each_fault
    (λ st, Framework.st_centroids st = cs ∧
           length (Framework.st_temp st) = length temp ∧
           length (Framework.st_assignments st) = length pts)
    _ _ Points _ (length pts)); [done|by repeat split|..].
  - rewrite HA. apply elem_of_seq. lia.
  - intros st _. unfold Framework.assign_body. by rewrite vec_at_ge.
  - intros j [t2 cs2 a2] _ (? & Hl2 & Ha2); simpl in *; subst cs2.
    destruct (decide (j < length pts)) as [Hj|Hj].
    + right. destruct (framework_assign_step pts last j t2 cs a2 k)
        as (t3 & a3 & -> & ? & ?); try done; [lia|].
      eexists. split; [done|]. simpl. repeat split; congruence.
    + left. unfold Framework.assign_body. rewrite vec_at_ge; [done|lia].
Qed.

Lemma framework_compute_short sched e pts k iters cs_in asg_in :
  (∀ j, Framework.valid_schedule (sched j)) →
  1 ≤ k → 1 ≤ iters →
  k ≤ length (Framework.temp_assignments e) →
  length pts < Framework.POINTS_SIZE e →
  Framework.compute sched e pts k iters cs_in asg_in = OutOfBounds Points.
Proof.
  intros Hv Hk1 Hit Ht Hn. unfold Framework.compute.
  destruct (decide (k ≤ length pts)) as [Hk|Hk].
  - rewrite framework_seed, bind_Done by (by rewrite ?length_resize).
    destruct iters as [|m]; [lia|]. simpl.
    rewrite framework_iteration_short; try done.
    + apply nonempty_length. rewrite length_take. lia.
    + rewrite length_take. lia.
    + by rewrite length_resize.
  - rewrite framework_seed_short; [done|lia|by rewrite length_resize].
Qed.

(** C10, as amended: in a call with [k >= 1] and at least one iteration,
    [compute] of the TBB engine runs over the point count [n] recorded by
    [init], not over [points.size()]. When [points] is shorter than [n],
    the first parallel loop indexes [points] past its end. When it is longer,
    the points from index [n] on are neither assigned (their slots keep the
    values they had after the resize) nor accumulated (every accumulator
    holds exactly the points among the first [n] that were assigned to its
    cluster); if moreover [k <= n], the call returns what it returns for the
    first [n] points alone. *)
Theorem recorded_count_governs (sched : nat → Framework.schedule)
    (ef : Framework.engine) (points : list point_t) (n k iters : nat)
    (centroids : list point_t) (assignments : list nat) :
  (∀ j, Framework.valid_schedule (sched j)) →
  1 ≤ k → 1 ≤ iters →
  let e := Framework.init n k iters ef in
  (length points < n →
   Framework.compute sched e points k iters centroids assignments = OutOfBounds Points) ∧
  (n < length points → k ≤ length points →
   ∃ e' cs asg,
     Framework.compute sched e points k iters centroids assignments = Done (e', cs, asg) ∧
     (∀ i, n ≤ i → asg !! i = resize (length points) 0 assignments !! i) ∧
     (∀ c t, c < k → Framework.temp_assignments e' !! c = Some t →
             t ≡ₚ assigned_to (take n points) (take n asg) c) ∧
     (k ≤ n →
      ∃ asg', outputs (Framework.compute sched e (take n points) k iters
                         centroids assignments) = Done (cs, asg') ∧
              take n asg = take n asg')).
Proof.
  intros Hv Hk1 Hit e.
  assert (k ≤ length (Framework.temp_assignments e)) as Ht.
  { unfold e. rewrite framework_init_length. lia. }
  split.
  - intros Hn. by apply framework_compute_short.
  - intros Hn Hk. destruct iters as [|m]; [lia|].
    destruct (framework_compute sched e points k (S m) centroids assignments)
      as (t1 & -> & Hacc); try done; [simpl; lia|].
    change (Framework.POINTS_SIZE e) with n in *.
    unfold assignments_after in *.
    rewrite !length_take, (Nat.min_l n (length points)) by lia.
    set (cs0 := centroids_after to_uint8 (take n points) (take k points) m) in *.
    assert (length (to_uint8 ∘ nearest cs0 <$> take n points) = n) as Hlen.
    { rewrite length_fmap, length_take. lia. }
    do 3 eexists. split; [done|]. split; [|split].
    + intros i Hi. rewrite lookup_app_r by lia.
      rewrite Hlen, lookup_drop. f_equal. lia.
    + intros c t Hc Htc. destruct (Hacc c Hc) as (t' & Ht' & Hperm). simpl in Htc.
      rewrite take_app_length', assigned_to_fmap by done.
      assert (t = t') as -> by congruence. exact Hperm.
    + intros Hkn.
      destruct (framework_compute sched e (take n points) k (S m) centroids assignments)
        as (t2 & -> & _); try done; [rewrite length_take; simpl; lia..|].
      change (Framework.POINTS_SIZE e) with n in *.
      rewrite !take_take, !Nat.min_id, (Nat.min_l k n) by lia.
      unfold assignments_after. fold cs0.
      rewrite !length_take, (Nat.min_l n (length points)) by lia.
      eexists. split; [done|]. by rewrite !take_app_length'.
Qed.

Lemma recorded_count_governs_witness :
  Framework.compute (λ _, Framework.reversed_schedule)
    (Framework.init 4 2 1 (Framework.Engine [] 0))
    [Point 0 0; Point 10 0] 2 1 [] [] = OutOfBounds Points ∧
  ∃ e' cs asg,
    Framework.compute (λ _, Framework.reversed_schedule)
      (Framework.init 3 2 1 (Framework.Engine [] 0))
      [Point 0 0; Point 10 0; Point 0 10; Point 10 10] 2 1 [] [] = Done (e', cs, asg) ∧
    (∀ i, 3 ≤ i → asg !! i = resize 4 0 [] !! i) ∧
    (∀ c t, c < 2 → Framework.temp_assignments e' !! c = Some t →
            t ≡ₚ assigned_to (take 3 [Point 0 0; Point 10 0; Point 0 10; Point 10 10])
                   (take 3 asg) c) ∧
    (2 ≤ 3 →
     ∃ asg', outputs (Framework.compute (λ _, Framework.reversed_schedule)
                        (Framework.init 3 2 1 (Framework.Engine [] 0))
                        (take 3 [Point 0 0; Point 10 0; Point 0 10; Point 10 10])
                        2 1 [] []) = Done (cs, asg') ∧
             take 3 asg = take 3 asg').
Proof.
  split.
  - apply (recorded_count_governs (λ _, Framework.reversed_schedule)
             (Framework.Engine [] 0) [Point 0 0; Point 10 0] 4 2 1 [] []).
    + intros _. apply reversed_schedule_valid.
    + lia.
    + lia.
    + simpl. lia.
  - apply (recorded_count_governs (λ _, Framework.reversed_schedule)
             (Framework.Engine [] 0)
             [Point 0 0; Point 10 0; Point 0 10; Point 10 10] 3 2 1 [] []).
    + intros _. apply reversed_schedule_valid.
    + lia.
    + lia.
    + simpl. lia.
    + simpl. lia.
Defined.

(** With the count 3 recorded for four points, the point (10,10) is left
    out: its slot keeps the 0 of the resize and cluster 1 holds (10,0)
    alone. *)
Example recorded_count_smaller_run :
  outputs (Framework.compute (λ _, Framework.sequential_schedule)
             (Framework.init 3 2 1 (Framework.Engine [] 0))
             [Point 0 0; Point 10 0; Point 0 10; Point 10 10] 2 1 [] [])
  = Done ([Point 0 5; Point 10 0], [0; 1; 0; 0]).
Proof. reflexivity. Qed.

(** C10, as stated for every call, fails: with iteration count 0 the
    recorded count is not used, and [compute] on two points after
    [init(4,2,0)] returns the seeds without an access past the end of
    [points]; with [k = 0] and the loop run in index order, the first access
    out of bounds is to the empty centroid vector, not to [points]. *)
Lemma recorded_count_unused_without_iterations :
  Framework.compute (λ _, Framework.sequential_schedule)
    (Framework.init 4 2 0 (Framework.Engine [] 0))
    [Point 0 0; Point 10 0] 2 0 [] []
  = Done (Framework.Engine [[]; []] 4, [Point 0 0; Point 10 0], [0; 0]) ∧
  Framework.compute (λ _, Framework.sequential_schedule)
    (Framework.init 4 0 1 (Framework.Engine [] 0))
    [Point 0 0; Point 10 0] 0 1 [] []
  = OutOfBounds Centroids.
Proof. split; reflexivity. Qed.

(** ** Configuration errors *)

Lemma serial_compute_zero e pts k cs_in asg_in :
  k ≤ length pts →
  Serial.compute e pts k 0 cs_in asg_in
  = Done (e, take k pts, resize (length pts) 0 asg_in).
Proof.
  intros Hk. unfold Serial.compute.
  rewrite serial_seed, bind_Done by (by rewrite ?length_resize).
  simpl. by destruct e.
Qed.

Lemma framework_compute_zero sched e pts k cs_in asg_in :
  k ≤ length pts →
  Framework.compute sched e pts k 0 cs_in asg_in
  = Done (e, take k pts, resize (length pts) 0 asg_in).
Proof.
  intros Hk. unfold Framework.compute.
  rewrite framework_seed, bind_Done by (by rewrite ?length_resize).
  simpl. by destruct e.
Qed.

Lemma serial_compute_few_points e pts k iters cs_in asg_in :
  length pts < k →
  Serial.compute e pts k iters cs_in asg_in = OutOfBounds Points.
Proof.
  intros Hk. unfold Serial.compute.
  by rewrite serial_seed_short by (by rewrite ?length_resize).
Qed.

Lemma framework_compute_few_points sched e pts k iters cs_in asg_in :
  length pts < k →
  Framework.compute sched e pts k iters cs_in asg_in = OutOfBounds Points.
Proof.
  intros Hk. unfold Framework.compute.
  by rewrite framework_seed_short by (by rewrite ?length_resize).
Qed.

Lemma serial_compute_no_cluster e pts iters cs_in asg_in :
  pts ≠ [] → 1 ≤ iters →
  Serial.compute e pts 0 iters cs_in asg_in = OutOfBounds Centroids.
Proof.
  intros Hne Hit. destruct pts as [|p pts]; [done|].
  destruct iters as [|m]; [lia|].
  unfold Serial.compute. rewrite resize_0. reflexivity.
Qed.

Lemma framework_compute_no_cluster sched e pts iters cs_in asg_in :
  (∀ j, Framework.valid_schedule (sched j)) →
  pts ≠ [] → 1 ≤ iters → Framework.POINTS_SIZE e = length pts →
  Framework.compute sched e pts 0 iters cs_in asg_in = OutOfBounds Centroids.
Proof.
  intros Hv Hne Hit Hn. destruct iters as [|m]; [lia|].
  unfold Framework.compute. rewrite resize_0. simpl.
  unfold Framework.iteration. simpl.
  destruct (Hv 0) as [HA _].
  rewrite (for_each_fault (λ st, Framework.st_centroids st = [])
             _ _ Centroids _ 0); [done|done|..].
  - rewrite HA, Hn. apply elem_of_seq. destruct pts; simpl; [done|lia].
  - intros [t cs a] Hcs; simpl in *; subst cs.
    destruct pts as [|p pts]; [done|]. reflexivity.
  - intros j [t cs a] Hj Hcs; simpl in *; subst cs. left.
    rewrite HA, Hn in Hj. apply elem_of_seq in Hj.
    destruct (lookup_lt_is_Some_2 pts j ltac:(lia)) as [p Hp].
    unfold Framework.assign_body. simpl.
    by rewrite (vec_at_Some _ _ _ _ Hp).
Qed.

Lemma framework_outputs_any sched ef pts k iters cs_in asg_in :
  (∀ j, Framework.valid_schedule (sched j)) →
  1 ≤ k → k ≤ length pts →
  outputs (Framework.compute sched (Framework.init (length pts) k iters ef)
             pts k iters cs_in asg_in)
  = Done (centroids_after to_uint8 pts (take k pts) iters,
          assignments_after to_uint8 pts (take k pts)
            (resize (length pts) 0 asg_in) iters).
Proof.
  intros Hv Hk1 Hk.
  destruct (framework_compute sched (Framework.init (length pts) k iters ef)
              pts k iters cs_in asg_in) as (t2 & -> & _); try done.
  { rewrite framework_init_length. lia. }
  simpl. by rewrite firstn_all.
Qed.

Lemma assignments_after_truncated ix pts cs asg m i a :
  length asg = length pts →
  assignments_after ix pts cs asg (S m) !! i = Some a → a < 256.
Proof.
  intros Hl. rewrite assignments_after_S, list_lookup_fmap by done.
  destruct (pts !! i); [|done]. simpl. intros [= <-]. apply to_uint8_lt.
Qed.

(** C5, as amended: the engines check nothing about the configuration.
    With iteration count 0, [compute] returns the seeds and the assignment
    vector as resized. With more than 256 clusters (and [k <= points.size()],
    at least one iteration) it returns [k] centroids and, for every point,
    the index of the centroid nearest to it, among the centroids that the
    run with one iteration fewer returns, reduced modulo 256. With fewer
    points than [k] it indexes [points] past its end while seeding, and with
    [k = 0] it indexes the empty centroid vector on the first point. None of
    these is reported as a named error. *)
Theorem no_configuration_check (sched : nat → Framework.schedule) :
  (∀ j, Framework.valid_schedule (sched j)) →
  (∀ es ef points k centroids assignments,
     k ≤ length points →
     Serial.compute es points k 0 centroids assignments
       = Done (es, take k points, resize (length points) 0 assignments) ∧
     Framework.compute sched ef points k 0 centroids assignments
       = Done (ef, take k points, resize (length points) 0 assignments)) ∧
  (∀ es ef points k m centroids assignments,
     256 < k → k ≤ length points →
     (∃ prev asg0 cs asg,
        outputs (Serial.compute (Serial.init (length points) k m es)
                   points k m centroids assignments) = Done (prev, asg0) ∧
        outputs (Serial.compute (Serial.init (length points) k (S m) es)
                   points k (S m) centroids assignments) = Done (cs, asg) ∧
        length cs = k ∧ length asg = length points ∧
        ∀ i p, points !! i = Some p →
          ∃ j, getNearestCluster p prev = Done j ∧ asg !! i = Some (to_uint8 j)) ∧
     (∃ prev asg0 cs asg,
        outputs (Framework.compute sched (Framework.init (length points) k m ef)
                   points k m centroids assignments) = Done (prev, asg0) ∧
        outputs (Framework.compute sched (Framework.init (length points) k (S m) ef)
                   points k (S m) centroids assignments) = Done (cs, asg) ∧
        length cs = k ∧ length asg = length points ∧
        ∀ i p, points !! i = Some p →
          ∃ j, getNearestCluster p prev = Done j ∧ asg !! i = Some (to_uint8 j))) ∧
  (∀ es ef points k iters centroids assignments,
     length points < k →
     Serial.compute es points k iters centroids assignments = OutOfBounds Points ∧
     Framework.compute sched ef points k iters centroids assignments
       = OutOfBounds Points) ∧
  (∀ es ef points iters centroids assignments,
     points ≠ [] → 1 ≤ iters →
     Serial.compute (Serial.init (length points) 0 iters es)
       points 0 iters centroids assignments = OutOfBounds Centroids ∧
     Framework.compute sched (Framework.init (length points) 0 iters ef)
       points 0 iters centroids assignments = OutOfBounds Centroids).
Proof.
  intros Hv. split; [|split; [|split]].
  - intros. split; [by apply serial_compute_zero|by apply framework_compute_zero].
  - intros es ef points k m centroids assignments Hk256 Hk.
    rewrite !serial_outputs, !framework_outputs_any by (done || lia).
    split; do 4 eexists; (split; [done|]); (split; [done|]).
    all: split; [rewrite centroids_after_length, length_take; lia|].
    all: rewrite assignments_after_S by by rewrite length_resize.
    all: split; [by rewrite length_fmap|].
    all: intros i p Hp; eexists; split;
      [apply getNearestCluster_nearest, nonempty_length;
       rewrite centroids_after_length, length_take; lia|].
    all: by rewrite list_lookup_fmap, Hp.
  - intros. split; [by apply serial_compute_few_points|by apply framework_compute_few_points].
  - intros. split; [by apply serial_compute_no_cluster|by apply framework_compute_no_cluster].
Qed.

Lemma no_configuration_check_witness :
  let points := (λ i, Point (Z.of_nat i) 0) <$> seq 0 257 in
  (Serial.compute (Serial.Engine [] []) [Point 1 2; Point 3 4] 1 0 [] []
     = Done (Serial.Engine [] [], [Point 1 2], [0; 0]) ∧
   Framework.compute (λ _, Framework.sequential_schedule) (Framework.Engine [] 0)
     [Point 1 2; Point 3 4] 1 0 [] []
     = Done (Framework.Engine [] 0, [Point 1 2], [0; 0])) ∧
  (∃ prev asg0 cs asg,
     outputs (Framework.compute (λ _, Framework.sequential_schedule)
                (Framework.init (length points) 257 0 (Framework.Engine [] 0))
                points 257 0 [] []) = Done (prev, asg0) ∧
     outputs (Framework.compute (λ _, Framework.sequential_schedule)
                (Framework.init (length points) 257 1 (Framework.Engine [] 0))
                points 257 1 [] []) = Done (cs, asg) ∧
     length cs = 257 ∧ length asg = length points ∧
     ∀ i p, points !! i = Some p →
       ∃ j, getNearestCluster p prev = Done j ∧ asg !! i = Some (to_uint8 j)) ∧
  (Serial.compute (Serial.Engine [] []) [Point 1 2; Point 3 4] 3 1 [] []
     = OutOfBounds Points ∧
   Framework.compute (λ _, Framework.sequential_schedule) (Framework.Engine [] 0)
     [Point 1 2; Point 3 4] 3 1 [] [] = OutOfBounds Points).
Proof.
  intros points.
  pose proof (no_configuration_check (λ _, Framework.sequential_schedule)
                (λ _, sequential_schedule_valid)) as (Hzero & Hmany & Hfew & _).
  split; [|split].
  - apply (Hzero (Serial.Engine [] []) (Framework.Engine [] 0)
             [Point 1 2; Point 3 4] 1 [] []). simpl. lia.
  - refine (proj2 (Hmany (Serial.Engine [] []) (Framework.Engine [] 0)
                     points 257 0 [] [] _ _)).
    + lia.
    + unfold points. rewrite length_fmap, length_seq. lia.
  - apply (Hfew (Serial.Engine [] []) (Framework.Engine [] 0)
             [Point 1 2; Point 3 4] 3 1 [] []). simpl. lia.
Defined.

(** With 257 clusters seeded by the points (0,0), (1,0), ..., (256,0), the
    point (256,0) is nearest to its own centroid, number 256, and is given
    the assignment 0. *)
Example assignment_of_cluster_256 :
  let points := (λ i, Point (Z.of_nat i) 0) <$> seq 0 257 in
  (∃ cs asg,
     outputs (Serial.compute (Serial.init 257 257 1 (Serial.Engine [] []))
                points 257 1 [] []) = Done (cs, asg) ∧
     getNearestCluster (Point 256 0) (take 257 points) = Done 256 ∧
     asg !! 256 = Some 0) ∧
  (∃ cs asg,
     outputs (Framework.compute (λ _, Framework.sequential_schedule)
                (Framework.init 257 257 1 (Framework.Engine [] 0))
                points 257 1 [] []) = Done (cs, asg) ∧
     getNearestCluster (Point 256 0) (take 257 points) = Done 256 ∧
     asg !! 256 = Some 0).
Proof.
  intros points.
  assert (length points = 257) as Hl by (unfold points; by rewrite length_fmap, length_seq).
  assert (nearest (take 257 points) (Point 256 0) = 256) as Hn by (vm_compute; reflexivity).
  assert (getNearestCluster (Point 256 0) (take 257 points) = Done 256) as Hg
    by (vm_compute; reflexivity).
  assert (points !! 256 = Some (Point 256 0)) as Hp by (vm_compute; reflexivity).
  pose proof (serial_outputs (Serial.Engine [] []) points 257 1 [] []) as Hs.
  pose proof (framework_outputs_any (λ _, Framework.sequential_schedule)
                (Framework.Engine [] 0) points 257 1 [] []
                (λ _, sequential_schedule_valid)) as Hf.
  rewrite Hl in Hs, Hf.
  rewrite assignments_after_S in Hs, Hf by (by rewrite length_resize).
  split; eexists _, _.
  - split; [apply Hs; lia|]. split; [exact Hg|].
    rewrite list_lookup_fmap, Hp, centroids_after_0.
    change (Some (to_uint8 (nearest (take 257 points) (Point 256 0))) = Some 0).
    rewrite Hn. reflexivity.
  - split; [apply Hf; lia|]. split; [exact Hg|].
    rewrite list_lookup_fmap, Hp, centroids_after_0.
    change (Some (to_uint8 (nearest (take 257 points) (Point 256 0))) = Some 0).
    rewrite Hn. reflexivity.
Qed.

(** C5, as stated, fails: with iteration count 0 both engines return
    centroids and assignments, and no error. *)
Lemma zero_iterations_accepted :
  Serial.compute (Serial.init 4 2 0 (Serial.Engine [] []))
    [Point 0 0; Point 10 0; Point 0 10; Point 10 10] 2 0 [] []
  = Done (Serial.Engine [point_zero; point_zero] [0; 0],
          [Point 0 0; Point 10 0], [0; 0; 0; 0]) ∧
  Framework.compute (λ _, Framework.sequential_schedule)
    (Framework.init 4 2 0 (Framework.Engine [] 0))
    [Point 0 0; Point 10 0; Point 0 10; Point 10 10] 2 0 [] []
  = Done (Framework.Engine [[]; []] 4, [Point 0 0; Point 10 0], [0; 0; 0; 0]).
Proof. split; reflexivity. Qed.

(** ** As many clusters as points *)

Lemma small_point_sqdist p q : small_point p → small_point q → (sqdist p q < 2 ^ 63)%Z.
Proof. unfold small_point, sqdist. intros [? ?] [? ?]. nia. Qed.

Lemma small_point_wf p : small_point p → wf_point p.
Proof. unfold small_point, wf_point, int64_range. lia. Qed.

Lemma filter_none {A} (P : A → Prop) `{∀ a, Decision (P a)} (l : list A) :
  (∀ a, a ∈ l → ¬ P a) → filter P l = [].
Proof.
  induction l as [|a l IH]; intros Hl; [done|].
  rewrite filter_cons, decide_False by (apply Hl; by left).
  apply IH. intros b Hb. apply Hl. by right.
Qed.

Lemma filter_index {A} (f : A → nat) (l : list A) c a :
  l !! c = Some a → (∀ j b, l !! j = Some b → f b = j) →
  filter (λ b, f b = c) l = [a].
Proof.
  intros Hc Hf.
  assert (filter (λ b, f b = c) (take c l ++ a :: drop (S c) l) = [a]) as Hgoal.
  { rewrite filter_app, filter_cons.
    rewrite decide_True by by apply Hf.
    rewrite !filter_none; [done|..].
    - intros b [j Hj]%list_elem_of_lookup. rewrite lookup_drop in Hj.
      rewrite (Hf _ _ Hj). lia.
    - intros b [j [Hj ?]%lookup_take_Some]%list_elem_of_lookup.
      rewrite (Hf _ _ Hj). lia. }
  by rewrite take_drop_middle in Hgoal.
Qed.

(** A point of a duplicate-free list is nearest to itself. *)
Lemma nearest_self pts i p :
  NoDup pts → pts !! i = Some p →
  (∀ q, q ∈ pts → (sqdist p q < 2 ^ 63)%Z) →
  nearest pts p = i.
Proof.
  intros Hnd Hi Hsmall.
  apply (least_argmin_unique (distance p) pts).
  - apply nearest_least_argmin. intros ->. done.
  - exists p. split; [done|]. intros j c Hj.
    rewrite !distance_exact by (apply Hsmall; by eapply list_elem_of_lookup_2).
    rewrite sqdist_refl. pose proof (sqdist_nonneg p c). split; [done|].
    intros Hlt. destruct (decide (sqdist p c = 0%Z)) as [Hz|Hz]; [|lia].
    apply sqdist_zero in Hz as ->.
    pose proof (NoDup_lookup _ _ _ _ Hnd Hi Hj). lia.
Qed.

Lemma mean_singleton p : wf_point p → mean [p] = p.
Proof.
  intros [Hx Hy]. unfold mean, psum, sum64, sumZ, div64. simpl.
  change (size_to_int64 1) with 1%Z.
  rewrite !Z.add_0_r, !Z.quot_1_r, !to_int64_id by (done || by rewrite to_int64_id).
  by destruct p.
Qed.

Section own_centroids.
Variable pts : list point_t.
Hypothesis pts_distinct : NoDup pts.
Hypothesis pts_wf : Forall wf_point pts.
Hypothesis pts_exact : ∀ p q, p ∈ pts → q ∈ pts → (sqdist p q < 2 ^ 63)%Z.

Lemma nearest_own i p : pts !! i = Some p → nearest pts p = i.
Proof.
  intros Hi. apply nearest_self; [done..|].
  intros q Hq. apply pts_exact; [|done]. by eapply list_elem_of_lookup_2.
Qed.

Lemma members_own c p : pts !! c = Some p → members id pts c pts = [p].
Proof.
  intros Hc. unfold members.
  apply (filter_index (nearest pts) pts c p Hc). intros j q. apply nearest_own.
Qed.

Lemma step_own : step id pts pts = pts.
Proof.
  apply list_eq. intros c. rewrite step_lookup.
  destruct (pts !! c) as [p|] eqn:Hc; [|done]. simpl. f_equal.
  unfold recentre. rewrite (members_own c p Hc). simpl.
  apply mean_singleton. rewrite Forall_forall in pts_wf.
  apply pts_wf. by eapply list_elem_of_lookup_2.
Qed.

Lemma centroids_after_own n : centroids_after id pts pts n = pts.
Proof.
  induction n as [|n IH]; [done|]. by rewrite centroids_after_step, IH, step_own.
Qed.

Lemma assignments_own : length pts ≤ 256 →
  (to_uint8 ∘ nearest pts <$> pts) = seq 0 (length pts).
Proof.
  intros Hk. apply list_eq. intros i. rewrite list_lookup_fmap.
  destruct (pts !! i) as [p|] eqn:Hi; simpl.
  - apply lookup_lt_Some in Hi as Hlt.
    rewrite (nearest_own i p Hi), to_uint8_id, lookup_seq_lt by lia. done.
  - apply lookup_ge_None in Hi. by rewrite lookup_seq_ge.
Qed.
End own_centroids.

(** C9, as amended: when [k] is the number of points, [1 <= k <= 256],
    [iters >= 1], the points are pairwise distinct, their coordinates are
    64-bit values and their squared distances fit in 64 bits, both engines
    return the assignments [0, 1, ..., k-1] and the input points as
    centroids, whatever the number of iterations. *)
Theorem each_point_its_own_cluster (sched : nat → Framework.schedule)
    (es : Serial.engine) (ef : Framework.engine) (points : list point_t)
    (k iters : nat) (centroids : list point_t) (assignments : list nat) :
  (∀ j, Framework.valid_schedule (sched j)) →
  k = length points → 1 ≤ k ≤ 256 → 1 ≤ iters →
  NoDup points → Forall wf_point points →
  (∀ p q, p ∈ points → q ∈ points → (sqdist p q < 2 ^ 63)%Z) →
  outputs (Serial.compute (Serial.init (length points) k iters es)
             points k iters centroids assignments) = Done (points, seq 0 k) ∧
  outputs (Framework.compute sched (Framework.init (length points) k iters ef)
             points k iters centroids assignments) = Done (points, seq 0 k).
Proof.
  intros Hv -> Hk256 Hit Hnd Hwf Hex.
  rewrite serial_outputs, framework_outputs by (done || lia).
  destruct iters as [|m]; [lia|].
  rewrite assignments_after_S by by rewrite length_resize.
  rewrite firstn_all, !centroids_after_own, assignments_own by (done || lia).
  done.
Qed.

Lemma each_point_its_own_cluster_witness :
  outputs (Serial.compute (Serial.init 3 3 5 (Serial.Engine [] []))
             [Point 0 0; Point 7 (-2); Point 0 1] 3 5 [] [])
    = Done ([Point 0 0; Point 7 (-2); Point 0 1], seq 0 3) ∧
  outputs (Framework.compute (λ _, Framework.reversed_schedule)
             (Framework.init 3 3 5 (Framework.Engine [] 0))
             [Point 0 0; Point 7 (-2); Point 0 1] 3 5 [] [])
    = Done ([Point 0 0; Point 7 (-2); Point 0 1], seq 0 3).
Proof.
  apply (each_point_its_own_cluster (λ _, Framework.reversed_schedule)
           (Serial.Engine [] []) (Framework.Engine [] 0)
           [Point 0 0; Point 7 (-2); Point 0 1] 3 5 [] []).
  - intros _. apply reversed_schedule_valid.
  - reflexivity.
  - lia.
  - lia.
  - apply (bool_decide_unpack _). vm_compute. exact I.
  - repeat constructor; vm_compute; congruence.
  - intros p q Hp Hq. apply small_point_sqdist.
    + repeat (apply elem_of_cons in Hp as [->|Hp]);
        [unfold small_point; simpl; lia..|by apply elem_of_nil in Hp].
    + repeat (apply elem_of_cons in Hq as [->|Hq]);
        [unfold small_point; simpl; lia..|by apply elem_of_nil in Hq].
Defined.

(** C9, as stated, fails for equal points: both copies of (0,0) are assigned
    to cluster 0. *)
Lemma equal_points_share_a_cluster :
  outputs (Serial.compute (Serial.init 2 2 1 (Serial.Engine [] []))
             [Point 0 0; Point 0 0] 2 1 [] [])
    = Done ([Point 0 0; Point 0 0], [0; 0]) ∧
  outputs (Serial.compute (Serial.init 2 2 1 (Serial.Engine [] []))
             [Point 0 0; Point 0 0] 2 1 [] [])
    ≠ Done ([Point 0 0; Point 0 0], [0; 1]).
Proof. split; [reflexivity|]. vm_compute. intros [=]. Qed.

(** Without the bound on the distances the centroids move as well: (2^32, 0)
    is at wrapped distance 0 from the seed (0,0). *)
Example overflow_moves_centroids :
  outputs (Serial.compute (Serial.init 2 2 1 (Serial.Engine [] []))
             [Point 0 0; Point 4294967296 0] 2 1 [] [])
  = Done ([Point 2147483648 0; Point 4294967296 0], [0; 0]).
Proof. vm_compute. reflexivity. Qed.

(** * Further properties of the engines *)

(** ** [distance] on all 64-bit inputs *)

Lemma to_int64_mod z : (to_int64 z `mod` 2 ^ 64 = z `mod` 2 ^ 64)%Z.
Proof.
  unfold to_int64.
  rewrite Zminus_mod, Z.mod_mod, <- Zminus_mod by lia. f_equal. lia.
Qed.

Lemma to_int64_congr a b : (a `mod` 2 ^ 64 = b `mod` 2 ^ 64)%Z → to_int64 a = to_int64 b.
Proof.
  intros H. unfold to_int64.
  rewrite (Zplus_mod a), (Zplus_mod b), H. done.
Qed.

Lemma to_int64_mul a b : to_int64 (to_int64 a * to_int64 b) = to_int64 (a * b).
Proof.
  apply to_int64_congr.
  rewrite (Zmult_mod (to_int64 a)), !to_int64_mod, <- Zmult_mod. done.
Qed.

Lemma to_int64_add a b : to_int64 (to_int64 a + to_int64 b) = to_int64 (a + b).
Proof. by rewrite to_int64_add_l, to_int64_add_r. Qed.

Lemma distance_wraps p c : distance p c = to_int64 (sqdist p c).
Proof.
  unfold distance, sqdist, add64, mul64, sub64.
  by rewrite !to_int64_mul, to_int64_add, <- !Z.pow_2_r.
Qed.

Lemma sqdist_sym p c : sqdist p c = sqdist c p.
Proof. unfold sqdist. lia. Qed.

(** X1: on all inputs, overflowing ones included, [distance] returns the
    exact squared distance reduced to the signed 64-bit range; hence it is
    symmetric and it is 0 between equal points. *)
Theorem distance_modular (p c : point_t) :
  distance p c = to_int64 (sqdist p c) ∧
  int64_range (distance p c) ∧
  distance p c = distance c p ∧
  distance p p = 0%Z.
Proof.
  rewrite !distance_wraps, (sqdist_sym c p), sqdist_refl.
  repeat split; try done; apply to_int64_range.
Qed.

(** ** Nearest-centroid search on all inputs *)

(** X2: for every point and every non-empty centroid vector, overflowing
    distances included, the search returns an index of the vector, which is
    the least index at which the value computed by [distance] is minimal. *)
Theorem nearest_least_by_distance (p : point_t) (cs : list point_t) :
  cs ≠ [] →
  ∃ i, getNearestCluster p cs = Done i ∧ i < length cs ∧
       least_argmin (distance p) cs i.
Proof.
  intros Hne. exists (nearest cs p). split; [by apply getNearestCluster_nearest|].
  split; [by apply nearest_lt|by apply nearest_least_argmin].
Qed.

Lemma nearest_least_by_distance_witness :
  ∃ i, getNearestCluster (Point 2147483647 0)
         [Point (-2147483648) 0; Point 2147483647 0] = Done i ∧
       i < length [Point (-2147483648) 0; Point 2147483647 0] ∧
       least_argmin (distance (Point 2147483647 0))
         [Point (-2147483648) 0; Point 2147483647 0] i.
Proof.
  apply (nearest_least_by_distance (Point 2147483647 0)
           [Point (-2147483648) 0; Point 2147483647 0]).
  done.
Defined.

(** ** Sizes are kept *)

Lemma bind_Done_inv {A B} (f : A → outcome B) m b :
  (m ≫= f) = Done b → ∃ a, m = Done a ∧ f a = Done b.
Proof. destruct m as [a|v]; [by exists a|done]. Qed.

Lemma vec_set_Done_inv {A} name (v v' : list A) i a :
  vec_set name v i a = Done v' → v' = <[i:=a]> v ∧ i < length v.
Proof. unfold vec_set. destruct (decide _); [|done]. by intros [= <-]. Qed.

Lemma vec_set_length {A} name (v v' : list A) i a :
  vec_set name v i a = Done v' → length v' = length v.
Proof. intros [-> _]%vec_set_Done_inv. apply length_insert. Qed.

(** A property of the state that every pass of the body keeps holds after
    the loop. *)
Lemma for_each_preserve {S} (I : S → Prop) body order (s s' : S) :
  (∀ i s s', body i s = Done s' → I s → I s') →
  I s → for_each order body s = Done s' → I s'.
Proof.
  intros Hbody. revert s. induction order as [|i order IH]; intros s HI; simpl.
  - by intros [= <-].
  - intros (s1 & H1 & H2)%bind_Done_inv. eapply IH; [|done]. by eapply Hbody.
Qed.

Ltac inv_bind H :=
  repeat match type of H with
  | (_ ≫= _) = Done _ =>
      let a := fresh "a" in let H1 := fresh "Hb" in
      apply bind_Done_inv in H as (a & H1 & H)
  end.

Lemma serial_reset_sizes ls lc k n i st st' :
  Serial.reset_body i st = Done st' → serial_sizes ls lc k n st → serial_sizes ls lc k n st'.
Proof.
  unfold Serial.reset_body, serial_sizes. intros H (? & ? & ? & ?).
  inv_bind H. injection H as <-. simpl.
  apply vec_set_length in Hb, Hb0. repeat split; congruence.
Qed.

Lemma serial_assign_sizes pts ls lc k n i st st' :
  Serial.assign_body pts i st = Done st' →
  serial_sizes ls lc k n st → serial_sizes ls lc k n st'.
Proof.
  unfold Serial.assign_body, serial_sizes. intros H (? & ? & ? & ?).
  inv_bind H. injection H as <-. simpl.
  apply vec_set_length in Hb1, Hb3, Hb5. repeat split; congruence.
Qed.

Lemma serial_update_sizes ls lc k n i st st' :
  Serial.update_body i st = Done st' →
  serial_sizes ls lc k n st → serial_sizes ls lc k n st'.
Proof.
  unfold Serial.update_body, serial_sizes. intros H (? & ? & ? & ?).
  inv_bind H. destruct (decide _); [by injection H as <-|].
  inv_bind H. injection H as <-. simpl.
  apply vec_set_length in Hb1. repeat split; congruence.
Qed.

Lemma serial_refine_sizes pts ls lc k n iters : ∀ st st',
  Serial.refine pts k iters st = Done st' →
  serial_sizes ls lc k n st → serial_sizes ls lc k n st'.
Proof.
  induction iters as [|m IH]; intros st st' H Hs; simpl in H.
  - by injection H as <-.
  - apply bind_Done_inv in H as (st1 & H1 & H). eapply IH; [done|].
    unfold Serial.iteration in H1. inv_bind H1.
    eapply (for_each_preserve _ _ _ _ _ (serial_update_sizes ls lc k n)); [|done].
    eapply (for_each_preserve _ _ _ _ _ (serial_assign_sizes pts ls lc k n)); [|done].
    by eapply (for_each_preserve _ _ _ _ _ (serial_reset_sizes ls lc k n)).
Qed.

Lemma seed_sizes pts k i cs cs' :
  Serial.seed_body pts i cs = Done cs' → length cs = k → length cs' = k.
Proof.
  unfold Serial.seed_body. intros H Hl. inv_bind H.
  apply vec_set_length in H. congruence.
Qed.

Lemma framework_clear_sizes lt k n i st st' :
  Framework.clear_body i st = Done st' →
  framework_sizes lt k n st → framework_sizes lt k n st'.
Proof.
  unfold Framework.clear_body, framework_sizes. intros H (? & ? & ?).
  inv_bind H. injection H as <-. simpl.
  apply vec_set_length in Hb. repeat split; congruence.
Qed.

Lemma framework_assign_sizes pts last lt k n i st st' :
  Framework.assign_body pts last i st = Done st' →
  framework_sizes lt k n st → framework_sizes lt k n st'.
Proof.
  unfold Framework.assign_body, framework_sizes. intros H (? & ? & ?).
  inv_bind H. injection H as <-. simpl.
  apply vec_set_length in Hb3.
  assert (length a1 = length (Framework.st_assignments st)).
  { destruct last; [by eapply vec_set_length|congruence]. }
  repeat split; congruence.
Qed.

Lemma framework_update_sizes plan lt k n i st st' :
  Framework.update_body plan i st = Done st' →
  framework_sizes lt k n st → framework_sizes lt k n st'.
Proof.
  unfold Framework.update_body, framework_sizes. intros H (? & ? & ?).
  inv_bind H. destruct (decide _); [by injection H as <-|].
  inv_bind H. injection H as <-. simpl.
  apply vec_set_length in Hb0. repeat split; congruence.
Qed.

Lemma framework_refine_sizes sched size pts lt k n iters : ∀ j st st',
  Framework.refine sched size pts k iters j st = Done st' →
  framework_sizes lt k n st → framework_sizes lt k n st'.
Proof.
  induction iters as [|m IH]; intros j st st' H Hs; simpl in H.
  - by injection H as <-.
  - apply bind_Done_inv in H as (st1 & H1 & H). eapply IH; [done|].
    unfold Framework.iteration in H1. inv_bind H1.
    eapply (for_each_preserve _ _ _ _ _ (framework_update_sizes _ lt k n)); [|done].
    eapply (for_each_preserve _ _ _ _ _ (framework_assign_sizes pts _ lt k n)); [|done].
    by eapply (for_each_preserve _ _ _ _ _ (framework_clear_sizes lt k n)).
Qed.

Lemma serial_compute_sizes es es' points k iters centroids assignments cs asg :
  Serial.compute es points k iters centroids assignments = Done (es', cs, asg) →
  length cs = k ∧ length asg = length points ∧
  length (Serial.sums es') = length (Serial.sums es) ∧
  length (Serial.counts es') = length (Serial.counts es).
Proof.
  intros H. unfold Serial.compute in H.
  apply bind_Done_inv in H as (cs0 & Hseed & H).
  apply bind_Done_inv in H as (st & Href & H). injection H as <- <- <-.
  eapply (for_each_preserve (λ c, length c = k)) in Hseed;
    [|intros i c c' Hc Hl; by apply (seed_sizes points k i c c')|by rewrite length_resize].
  eapply (serial_refine_sizes _ (length (Serial.sums es)) (length (Serial.counts es))
            k (length points)) in Href as (? & ? & ? & ?);
    [done|]. repeat split; try done. simpl. by rewrite length_resize.
Qed.

Lemma framework_compute_sizes sched ef ef' points k iters centroids assignments cs asg :
  Framework.compute sched ef points k iters centroids assignments = Done (ef', cs, asg) →
  length cs = k ∧ length asg = length points ∧
  length (Framework.temp_assignments ef') = length (Framework.temp_assignments ef) ∧
  Framework.POINTS_SIZE ef' = Framework.POINTS_SIZE ef.
Proof.
  intros H. unfold Framework.compute in H.
  apply bind_Done_inv in H as (cs0 & Hseed & H).
  apply bind_Done_inv in H as (st & Href & H). injection H as <- <- <-.
  eapply (for_each_preserve (λ c, length c = k)) in Hseed;
    [|intros i c c' Hc Hl; by apply (seed_sizes points k i c c')|by rewrite length_resize].
  eapply (framework_refine_sizes _ _ _ (length (Framework.temp_assignments ef))
            k (length points)) in Href as (? & ? & ?);
    [done|]. repeat split; try done. simpl. by rewrite length_resize.
Qed.

(** X3: whenever [compute] of either engine returns, for whatever
    arguments, schedule and engine state, the centroid vector has [k]
    elements and the assignment vector one element per point, and the
    engine keeps the size of its storage (and the recorded point count). *)
Theorem compute_sizes (sched : nat → Framework.schedule) (points : list point_t)
    (k iters : nat) (centroids : list point_t) (assignments : list nat) :
  (∀ es es' cs asg,
     Serial.compute es points k iters centroids assignments = Done (es', cs, asg) →
     length cs = k ∧ length asg = length points ∧
     length (Serial.sums es') = length (Serial.sums es) ∧
     length (Serial.counts es') = length (Serial.counts es)) ∧
  (∀ ef ef' cs asg,
     Framework.compute sched ef points k iters centroids assignments
       = Done (ef', cs, asg) →
     length cs = k ∧ length asg = length points ∧
     length (Framework.temp_assignments ef') = length (Framework.temp_assignments ef) ∧
     Framework.POINTS_SIZE ef' = Framework.POINTS_SIZE ef).
Proof.
  split.
  - intros es es' cs asg. apply serial_compute_sizes.
  - intros ef ef' cs asg. apply framework_compute_sizes.
Qed.

Lemma compute_sizes_witness :
  (length [Point 0 5; Point 10 5] = 2 ∧ length [0; 1; 0; 1] = 4 ∧
   length [Point 0 10; Point 20 10] = 2 ∧ length [2; 2] = 2) ∧
  (length [Point 0 5; Point 10 5] = 2 ∧ length [0; 1; 0; 1] = 4 ∧
   length [[Point 0 0; Point 0 10]; [Point 10 0; Point 10 10]] = 2 ∧ 4 = 4).
Proof.
  split.
  - apply (proj1 (compute_sizes (λ _, Framework.sequential_schedule)
                    [Point 0 0; Point 10 0; Point 0 10; Point 10 10] 2 1 [] [])
             (Serial.Engine [point_zero; point_zero] [0; 0])
             (Serial.Engine [Point 0 10; Point 20 10] [2; 2])).
    reflexivity.
  - apply (proj2 (compute_sizes (λ _, Framework.sequential_schedule)
                    [Point 0 0; Point 10 0; Point 0 10; Point 10 10] 2 1 [] [])
             (Framework.Engine [[]; []] 4)
             (Framework.Engine [[Point 0 0; Point 0 10]; [Point 10 0; Point 10 10]] 4)).
    reflexivity.
Defined.

(** ** Calling [compute] again *)



(** ** Every point is in exactly one cluster *)

Lemma sum_list_fmap_add (f g : nat → nat) l :
  sum_list ((λ c, f c + g c) <$> l) = sum_list (f <$> l) + sum_list (g <$> l).
Proof.
  induction l as [|c l IH]; [done|].
  rewrite !fmap_cons. simpl. rewrite IH. lia.
Qed.

Lemma sum_list_append l1 l2 : sum_list (l1 ++ l2) = sum_list l1 + sum_list l2.
Proof. induction l1 as [|a l1 IH]; simpl; lia. Qed.

Lemma sum_list_indicator a k :
  sum_list ((λ c, if decide (a = c) then 1 else 0) <$> seq 0 k) = if decide (a < k) then 1 else 0.
Proof.
  induction k as [|k IH]; [done|].
  rewrite seq_S, fmap_app, sum_list_append, IH. simpl.
  repeat case_decide; lia.
Qed.

Lemma cluster_sizes_sum (l : list (point_t * nat)) k :
  (∀ pa, pa ∈ l → pa.2 < k) →
  sum_list ((λ c, length (filter (λ pa : point_t * nat, pa.2 = c) l)) <$> seq 0 k) = length l.
Proof.
  induction l as [|pa l IH]; intros Hl.
  - rewrite (sum_list_fmap_same 0); [simpl; lia|]. by apply Forall_forall.
  - rewrite (list_fmap_ext _
      (λ c, (if decide (pa.2 = c) then 1 else 0)
            + length (filter (λ pa : point_t * nat, pa.2 = c) l)) (seq 0 k)).
    + rewrite sum_list_fmap_add, sum_list_indicator, IH.
      * rewrite decide_True; [done|]. apply Hl. by left.
      * intros pb Hpb. apply Hl. by right.
    + intros _ c _. rewrite filter_cons. by destruct (decide (pa.2 = c)).
Qed.

Lemma assigned_to_sizes_sum pts asg k :
  length asg = length pts → (∀ i a, asg !! i = Some a → a < k) →
  sum_list ((λ c, length (assigned_to pts asg c)) <$> seq 0 k) = length pts.
Proof.
  intros Hl Hlt. unfold assigned_to.
  rewrite (list_fmap_ext _
    (λ c, length (filter (λ pa : point_t * nat, pa.2 = c) (zip pts asg))) (seq 0 k))
    by (intros; by rewrite length_fmap).
  rewrite cluster_sizes_sum.
  - rewrite length_zip_with. lia.
  - intros [p a] [i Hi]%list_elem_of_lookup. simpl.
    apply lookup_zip_Some in Hi as [_ Ha]. by eapply Hlt.
Qed.

(** X5: with [1 <= k <= 256], [points.size() >= k] and [iters >= 1], the
    clusters of the returned assignment partition the points: the sizes of
    the clusters 0, ..., k-1 add up to the number of points, in either
    engine. *)
Theorem clusters_partition_points (sched : nat → Framework.schedule)
    (es : Serial.engine) (ef : Framework.engine) (points : list point_t)
    (k iters : nat) (centroids : list point_t) (assignments : list nat) :
  (∀ j, Framework.valid_schedule (sched j)) →
  1 ≤ k ≤ 256 → k ≤ length points → 1 ≤ iters →
  (∃ cs asg,
     outputs (Serial.compute (Serial.init (length points) k iters es)
                points k iters centroids assignments) = Done (cs, asg) ∧
     sum_list ((λ c, length (assigned_to points asg c)) <$> seq 0 k) = length points) ∧
  (∃ cs asg,
     outputs (Framework.compute sched (Framework.init (length points) k iters ef)
                points k iters centroids assignments) = Done (cs, asg) ∧
     sum_list ((λ c, length (assigned_to points asg c)) <$> seq 0 k) = length points).
Proof.
  intros Hv Hk256 Hk Hit.
  rewrite serial_outputs, framework_outputs by (done || lia).
  destruct iters as [|m]; [lia|].
  rewrite assignments_after_S by by rewrite length_resize.
  assert (sum_list ((λ c, length (assigned_to points
            (to_uint8 ∘ nearest (centroids_after id points (take k points) m) <$> points)
            c)) <$> seq 0 k) = length points) as Hsum.
  { apply assigned_to_sizes_sum; [by rewrite length_fmap|].
    intros i a. rewrite list_lookup_fmap. destruct (points !! i) as [p|]; [|done].
    simpl. intros [= <-].
    pose proof (nearest_lt p (centroids_after id points (take k points) m)) as Hlt.
    rewrite centroids_after_length, length_take in Hlt.
    pose proof (to_uint8_le (nearest (centroids_after id points (take k points) m) p)).
    specialize (Hlt ltac:(apply centroids_after_nonempty, nonempty_length;
                          rewrite length_take; lia)).
    lia. }
  split; do 2 eexists; (split; [done|exact Hsum]).
Qed.

Lemma clusters_partition_points_witness :
  (∃ cs asg,
     outputs (Serial.compute (Serial.init 4 2 3 (Serial.Engine [] []))
                [Point 0 0; Point 10 0; Point 0 10; Point 10 10] 2 3 [] [])
       = Done (cs, asg) ∧
     sum_list ((λ c, length (assigned_to [Point 0 0; Point 10 0; Point 0 10; Point 10 10]
                               asg c)) <$> seq 0 2) = 4) ∧
  (∃ cs asg,
     outputs (Framework.compute (λ _, Framework.reversed_schedule)
                (Framework.init 4 2 3 (Framework.Engine [] 0))
                [Point 0 0; Point 10 0; Point 0 10; Point 10 10] 2 3 [] [])
       = Done (cs, asg) ∧
     sum_list ((λ c, length (assigned_to [Point 0 0; Point 10 0; Point 0 10; Point 10 10]
                               asg c)) <$> seq 0 2) = 4).
Proof.
  apply (clusters_partition_points (λ _, Framework.reversed_schedule)
           (Serial.Engine [] []) (Framework.Engine [] 0)
           [Point 0 0; Point 10 0; Point 0 10; Point 10 10] 2 3 [] []).
  - intros _. apply reversed_schedule_valid.
  - lia.
  - simpl. lia.
  - lia.
Defined.

(** ** Iterating past a fixed point *)





(** ** The order of the points after the seeds *)

Lemma step_perm ix pts pts' cs : pts ≡ₚ pts' → step ix pts cs = step ix pts' cs.
Proof.
  intros Hp. unfold step. apply imap_ext. intros c old _. unfold recentre.
  pose proof (members_perm ix cs c _ _ Hp) as Hm.
  by rewrite (Permutation_length Hm), (mean_perm _ _ Hm).
Qed.

Lemma centroids_after_perm ix pts pts' cs n :
  pts ≡ₚ pts' → centroids_after ix pts cs n = centroids_after ix pts' cs n.
Proof.
  intros Hp. induction n as [|n IH]; [done|].
  by rewrite !centroids_after_step, IH, (step_perm _ _ _ _ Hp).
Qed.

(** X7: the centroids depend on the order of the points only through the
    seeds: two point vectors that are permutations of each other and have the
    same first [k] points give the same centroids, in either engine. *)
Theorem centroids_ignore_point_order (sched : nat → Framework.schedule)
    (es : Serial.engine) (ef : Framework.engine) (points points' : list point_t)
    (k iters : nat) (centroids : list point_t) (assignments : list nat) :
  (∀ j, Framework.valid_schedule (sched j)) →
  1 ≤ k ≤ 256 → k ≤ length points →
  points ≡ₚ points' → take k points = take k points' →
  (∃ cs asg asg',
     outputs (Serial.compute (Serial.init (length points) k iters es)
                points k iters centroids assignments) = Done (cs, asg) ∧
     outputs (Serial.compute (Serial.init (length points') k iters es)
                points' k iters centroids assignments) = Done (cs, asg')) ∧
  (∃ cs asg asg',
     outputs (Framework.compute sched (Framework.init (length points) k iters ef)
                points k iters centroids assignments) = Done (cs, asg) ∧
     outputs (Framework.compute sched (Framework.init (length points') k iters ef)
                points' k iters centroids assignments) = Done (cs, asg')).
Proof.
  intros Hv Hk256 Hk Hp Hseeds.
  pose proof (Permutation_length Hp) as Hl.
  rewrite !serial_outputs, !framework_outputs by (done || lia).
  rewrite <- Hseeds, <- (centroids_after_perm _ _ _ _ _ Hp).
  split; by do 3 eexists.
Qed.

Lemma centroids_ignore_point_order_witness :
  (∃ cs asg asg',
     outputs (Serial.compute (Serial.init 4 2 2 (Serial.Engine [] []))
                [Point 0 0; Point 10 0; Point 0 10; Point 10 10] 2 2 [] [])
       = Done (cs, asg) ∧
     outputs (Serial.compute (Serial.init 4 2 2 (Serial.Engine [] []))
                [Point 0 0; Point 10 0; Point 10 10; Point 0 10] 2 2 [] [])
       = Done (cs, asg')) ∧
  (∃ cs asg asg',
     outputs (Framework.compute (λ _, Framework.reversed_schedule)
                (Framework.init 4 2 2 (Framework.Engine [] 0))
                [Point 0 0; Point 10 0; Point 0 10; Point 10 10] 2 2 [] [])
       = Done (cs, asg) ∧
     outputs (Framework.compute (λ _, Framework.reversed_schedule)
                (Framework.init 4 2 2 (Framework.Engine [] 0))
                [Point 0 0; Point 10 0; Point 10 10; Point 0 10] 2 2 [] [])
       = Done (cs, asg')).
Proof.
  apply (centroids_ignore_point_order (λ _, Framework.reversed_schedule)
           (Serial.Engine [] []) (Framework.Engine [] 0)
           [Point 0 0; Point 10 0; Point 0 10; Point 10 10]
           [Point 0 0; Point 10 0; Point 10 10; Point 0 10] 2 2 [] []).
  - intros _. apply reversed_schedule_valid.
  - lia.
  - simpl. lia.
  - do 2 apply perm_skip. apply perm_swap.
  - reflexivity.
Defined.

(** ** [compute] on an engine without storage for [k] clusters *)

Lemma serial_reset_short k sums counts cs asg :
  length sums < k → length sums ≤ length counts →
  for_each (seq 0 k) Serial.reset_body (Serial.State sums counts cs asg)
  = OutOfBounds Sums.
Proof.
  intros Hs Hc.
  apply (for_each_fault
    (λ st, length (Serial.st_sums st) = length sums ∧
           length (Serial.st_counts st) = length counts) _ _ _ _ (length sums));
    [done|apply elem_of_seq; lia|..].
  - intros st [Hls _]. unfold Serial.reset_body.
    rewrite (vec_set_ge Sums); [done|lia].
  - intros j st _ [Hls Hlc]. unfold Serial.reset_body.
    destruct (decide (j < length sums)) as [Hj|Hj].
    + right. rewrite (vec_set_lt Sums), bind_Done by lia.
      rewrite (vec_set_lt Counts), bind_Done by lia. eexists. split; [done|].
      simpl. by rewrite !length_insert.
    + left. rewrite (vec_set_ge Sums); [done|lia].
Qed.

Lemma framework_clear_short k temp cs asg :
  length temp < k →
  for_each (seq 0 k) Framework.clear_body (Framework.State temp cs asg)
  = OutOfBounds TempAssignments.
Proof.
  intros Ht.
  apply (for_each_fault (λ st, length (Framework.st_temp st) = length temp)
           _ _ _ _ (length temp)); [done|apply elem_of_seq; lia|..].
  - intros st Hl. unfold Framework.clear_body. rewrite vec_set_ge; [done|lia].
  - intros j st _ Hl. unfold Framework.clear_body.
    destruct (decide (j < length temp)) as [Hj|Hj].
    + right. rewrite vec_set_lt, bind_Done by lia. eexists. split; [done|].
      simpl. by rewrite length_insert.
    + left. rewrite vec_set_ge; [done|lia].
Qed.

(** X8: [init] has to come first. With [k <= points.size()] and
    [iters >= 1], [compute] on an engine whose storage has fewer than [k]
    entries (a new engine, or one initialised for fewer clusters) indexes
    that storage out of bounds when it resets it: [sums] in the serial
    engine, [temp_assignments] in the TBB engine. *)
Theorem compute_needs_init (sched : nat → Framework.schedule) (es : Serial.engine)
    (ef : Framework.engine) (points : list point_t) (k iters : nat)
    (centroids : list point_t) (assignments : list nat) :
  k ≤ length points → 1 ≤ iters →
  (length (Serial.sums es) < k →
   length (Serial.sums es) ≤ length (Serial.counts es) →
   Serial.compute es points k iters centroids assignments = OutOfBounds Sums) ∧
  (length (Framework.temp_assignments ef) < k →
   Framework.compute sched ef points k iters centroids assignments
     = OutOfBounds TempAssignments).
Proof.
  intros Hk Hit. destruct iters as [|m]; [lia|]. split.
  - intros Hs Hc. unfold Serial.compute.
    rewrite serial_seed, bind_Done by (by rewrite ?length_resize).
    simpl. unfold Serial.iteration. by rewrite serial_reset_short.
  - intros Ht. unfold Framework.compute.
    rewrite framework_seed, bind_Done by (by rewrite ?length_resize).
    simpl. unfold Framework.iteration. by rewrite framework_clear_short.
Qed.

Lemma compute_needs_init_witness :
  Serial.compute (Serial.init 4 1 1 (Serial.Engine [] []))
    [Point 0 0; Point 10 0; Point 0 10; Point 10 10] 2 1 [] [] = OutOfBounds Sums ∧
  Framework.compute (λ _, Framework.sequential_schedule) (Framework.Engine [] 4)
    [Point 0 0; Point 10 0; Point 0 10; Point 10 10] 2 1 [] []
    = OutOfBounds TempAssignments.
Proof.
  pose proof (compute_needs_init (λ _, Framework.sequential_schedule)
                (Serial.init 4 1 1 (Serial.Engine [] [])) (Framework.Engine [] 4)
                [Point 0 0; Point 10 0; Point 0 10; Point 10 10] 2 1 [] []
                ltac:(simpl; lia) ltac:(lia)) as [Hs Hf].
  split.
  - apply Hs; simpl; lia.
  - apply Hf. simpl. lia.
Defined.

(** ** A single cluster *)

Lemma members_single c pts : members id [c] 0 pts = pts.
Proof.
  unfold members. induction pts as [|p pts IH]; [done|].
  rewrite filter_cons_True by done. by rewrite IH.
Qed.

Lemma centroids_after_single pts c m :
  pts ≠ [] → centroids_after id pts [c] (S m) = [mean pts].
Proof.
  intros Hne. induction m as [|m IH].
  - rewrite centroids_after_step, centroids_after_0. unfold step, recentre. simpl.
    rewrite members_single, decide_False; [done|]. by intros ?%nil_length_inv.
  - rewrite centroids_after_step, IH. unfold step, recentre. simpl.
    rewrite members_single, decide_False; [done|]. by intros ?%nil_length_inv.
Qed.

Lemma assignments_single pts c :
  (to_uint8 ∘ nearest [c] <$> pts) = replicate (length pts) 0.
Proof. induction pts as [|p pts IH]; [done|]. simpl. by rewrite <- IH. Qed.

(** X9: with [k = 1], a non-empty vector of fewer than 2^63 points and
    [iters >= 1], both engines assign every point to cluster 0 and return as
    the only centroid the mean of all points, truncated toward zero, of the
    coordinate sums as 64-bit additions give them, however many iterations
    run. When the exact sums of the x and of the y coordinates fit in 64
    bits, this is the truncated mean of the exact sums. *)
Theorem single_cluster_is_the_mean (sched : nat → Framework.schedule)
    (es : Serial.engine) (ef : Framework.engine) (points : list point_t)
    (iters : nat) (centroids : list point_t) (assignments : list nat) :
  (∀ j, Framework.valid_schedule (sched j)) →
  points ≠ [] → 1 ≤ iters → (Z.of_nat (length points) < 2 ^ 63)%Z →
  outputs (Serial.compute (Serial.init (length points) 1 iters es)
             points 1 iters centroids assignments)
    = Done ([truncated_mean sum64 points], replicate (length points) 0) ∧
  outputs (Framework.compute sched (Framework.init (length points) 1 iters ef)
             points 1 iters centroids assignments)
    = Done ([truncated_mean sum64 points], replicate (length points) 0) ∧
  (int64_range (sumZ (x <$> points)) → int64_range (sumZ (y <$> points)) →
   truncated_mean sum64 points = truncated_mean sumZ points).
Proof.
  intros Hv Hne Hit Hsize.
  split; [|split].
  3: { intros Hx Hy. unfold truncated_mean. by rewrite !sum64_exact. }
  all: rewrite <- mean_truncated_mean by done.
  all: assert (1 ≤ length points) by (destruct points; simpl; [done|lia]).
  all: rewrite ?serial_outputs, ?framework_outputs by (done || lia).
  all: destruct iters as [|m]; [lia|].
  all: rewrite assignments_after_S by by rewrite length_resize.
  all: destruct points as [|p0 pts]; [done|]; simpl take.
  all: rewrite centroids_after_single by done.
  all: destruct m as [|m'];
    [rewrite centroids_after_0|rewrite centroids_after_single by done];
    by rewrite assignments_single.
Qed.

Lemma single_cluster_is_the_mean_witness :
  outputs (Serial.compute (Serial.init 3 1 4 (Serial.Engine [] []))
             [Point 0 0; Point 10 0; Point (-3) 10] 1 4 [] [])
    = Done ([truncated_mean sum64 [Point 0 0; Point 10 0; Point (-3) 10]],
            replicate (length [Point 0 0; Point 10 0; Point (-3) 10]) 0) ∧
  outputs (Framework.compute (λ _, Framework.reversed_schedule)
             (Framework.init 3 1 4 (Framework.Engine [] 0))
             [Point 0 0; Point 10 0; Point (-3) 10] 1 4 [] [])
    = Done ([truncated_mean sum64 [Point 0 0; Point 10 0; Point (-3) 10]],
            replicate (length [Point 0 0; Point 10 0; Point (-3) 10]) 0) ∧
  (int64_range (sumZ (x <$> [Point 0 0; Point 10 0; Point (-3) 10])) →
   int64_range (sumZ (y <$> [Point 0 0; Point 10 0; Point (-3) 10])) →
   truncated_mean sum64 [Point 0 0; Point 10 0; Point (-3) 10]
   = truncated_mean sumZ [Point 0 0; Point 10 0; Point (-3) 10]).
Proof.
  apply (single_cluster_is_the_mean (λ _, Framework.reversed_schedule)
           (Serial.Engine [] []) (Framework.Engine [] 0)
           [Point 0 0; Point 10 0; Point (-3) 10] 4 [] []).
  - intros _. apply reversed_schedule_valid.
  - done.
  - lia.
  - simpl. lia.
Defined.

(** ** More than 256 clusters in the TBB engine *)

Lemma members_high cs c pts : 256 ≤ c → members to_uint8 cs c pts = [].
Proof.
  intros Hc. unfold members. apply filter_none. intros p _.
  pose proof (to_uint8_lt (nearest cs p)). lia.
Qed.

Lemma centroids_after_high pts cs c n :
  256 ≤ c → centroids_after to_uint8 pts cs n !! c = cs !! c.
Proof.
  intros Hc. induction n as [|n IH]; [done|].
  rewrite centroids_after_step, step_lookup, IH.
  destruct (cs !! c) as [old|]; [|done]. simpl. unfold recentre.
  by rewrite members_high.
Qed.

(** X10: the TBB engine selects the accumulator by the index converted to
    [std::uint8_t], so the accumulators from 256 on never receive a point:
    with more than 256 clusters, the centroid of every cluster [c >= 256]
    the TBB engine returns is the seed [points[c]], whatever the points and
    the number of iterations. *)
Theorem tbb_clusters_from_256_stay_seeds (sched : nat → Framework.schedule)
    (ef : Framework.engine) (points : list point_t) (k iters c : nat)
    (centroids : list point_t) (assignments : list nat) :
  (∀ j, Framework.valid_schedule (sched j)) →
  k ≤ length points → 256 ≤ c → c < k →
  ∃ cs asg,
    outputs (Framework.compute sched (Framework.init (length points) k iters ef)
               points k iters centroids assignments) = Done (cs, asg) ∧
    cs !! c = points !! c.
Proof.
  intros Hv Hk Hc Hck.
  rewrite framework_outputs_any by (done || lia).
  do 2 eexists. split; [done|].
  by rewrite centroids_after_high, lookup_take_lt.
Qed.

Lemma tbb_clusters_from_256_stay_seeds_witness :
  let points := (λ i, Point (Z.of_nat i) 0) <$> seq 0 300 in
  ∃ cs asg,
    outputs (Framework.compute (λ _, Framework.sequential_schedule)
               (Framework.init (length points) 257 2 (Framework.Engine [] 0))
               points 257 2 [] []) = Done (cs, asg) ∧
    cs !! 256 = points !! 256.
Proof.
  intros points.
  apply (tbb_clusters_from_256_stay_seeds (λ _, Framework.sequential_schedule)
           (Framework.Engine [] 0) points 257 2 256 [] []).
  - intros _. apply sequential_schedule_valid.
  - unfold points. rewrite length_fmap, length_seq. lia.
  - lia.
  - lia.
Defined.

(** ** Centroids stay in the bounding box of the points *)

Lemma quot_between n s lo hi :
  (0 < n)%Z → (n * lo ≤ s ≤ n * hi)%Z → (lo ≤ s `quot` n ≤ hi)%Z.
Proof.
  intros Hn [Hlo Hhi].
  destruct (Z.le_gt_cases 0 s) as [Hs|Hs].
  - rewrite Z.quot_div_nonneg by lia.
    pose proof (Z.div_pos s n Hs Hn). split.
    + destruct (Z.le_gt_cases lo 0); [lia|]. apply Z.div_le_lower_bound; lia.
    + apply Z.div_le_upper_bound; [lia|]. lia.
  - replace s with (- - s)%Z by lia. rewrite Z.quot_opp_l by lia.
    rewrite Z.quot_div_nonneg by lia.
    pose proof (Z.div_pos (- s) n ltac:(lia) Hn). split.
    + cut ((- s) `div` n ≤ - lo)%Z; [lia|]. apply Z.div_le_upper_bound; lia.
    + destruct (Z.le_gt_cases 0 hi); [lia|].
      cut (- hi ≤ (- s) `div` n)%Z; [lia|]. apply Z.div_le_lower_bound; lia.
Qed.

Lemma sumZ_between (l : list Z) lo hi :
  (∀ z, z ∈ l → (lo ≤ z ≤ hi)%Z) →
  (Z.of_nat (length l) * lo ≤ sumZ l ≤ Z.of_nat (length l) * hi)%Z.
Proof.
  unfold sumZ. induction l as [|z l IH]; intros Hl; [simpl; lia|].
  specialize (IH ltac:(intros; apply Hl; by right)).
  specialize (Hl z ltac:(by left)). simpl length. simpl foldr. lia.
Qed.

Lemma coordinate_mean_between (f : point_t → Z) (l : list point_t) lo hi :
  l ≠ [] → (Z.of_nat (length l) < 2 ^ 32)%Z →
  (- 2 ^ 30 ≤ lo)%Z → (hi < 2 ^ 30)%Z →
  (∀ p, p ∈ l → (lo ≤ f p ≤ hi)%Z) →
  (lo ≤ div64 (sum64 (f <$> l)) (size_to_int64 (length l)) ≤ hi)%Z.
Proof.
  intros Hne Hlen Hlo Hhi Hl.
  assert (0 < Z.of_nat (length l))%Z by (destruct l; simpl in *; [done|lia]).
  pose proof (sumZ_between (f <$> l) lo hi) as Hsum. rewrite length_fmap in Hsum.
  specialize (Hsum ltac:(intros z (p & -> & Hp)%list_elem_of_fmap; by apply Hl)).
  rewrite size_to_int64_id by lia.
  rewrite sum64_exact by (unfold int64_range; nia).
  rewrite div64_exact by (unfold int64_range; nia || lia).
  by apply quot_between.
Qed.

Lemma mean_in_box lx hx ly hy l :
  small_box lx hx ly hy → l ≠ [] → (Z.of_nat (length l) < 2 ^ 32)%Z →
  Forall (in_box lx hx ly hy) l → in_box lx hx ly hy (mean l).
Proof.
  intros (? & ? & ? & ?) Hne Hlen Hl. rewrite Forall_forall in Hl.
  unfold in_box, mean, psum. simpl. split.
  - apply coordinate_mean_between; try done. intros p Hp. by apply Hl.
  - apply coordinate_mean_between; try done. intros p Hp. by apply Hl.
Qed.

Lemma step_in_box ix lx hx ly hy pts cs :
  small_box lx hx ly hy → (Z.of_nat (length pts) < 2 ^ 32)%Z →
  Forall (in_box lx hx ly hy) pts → Forall (in_box lx hx ly hy) cs →
  Forall (in_box lx hx ly hy) (step ix pts cs).
Proof.
  intros Hbox Hlen Hpts Hcs. apply Forall_lookup. intros c q.
  rewrite step_lookup. destruct (cs !! c) as [old|] eqn:Hold; [|done].
  simpl. intros [= <-]. unfold recentre. destruct (decide _) as [Hz|Hnz].
  - by eapply (Forall_lookup_1 _ cs).
  - apply mean_in_box; [done|..].
    + intros Hnil. by rewrite Hnil in Hnz.
    + pose proof (members_length_le ix cs c pts). lia.
    + unfold members. apply Forall_forall. intros p [_ Hp]%list_elem_of_filter.
      rewrite Forall_forall in Hpts. by apply Hpts.
Qed.

Lemma centroids_after_in_box ix lx hx ly hy pts cs n :
  small_box lx hx ly hy → (Z.of_nat (length pts) < 2 ^ 32)%Z →
  Forall (in_box lx hx ly hy) pts → Forall (in_box lx hx ly hy) cs →
  Forall (in_box lx hx ly hy) (centroids_after ix pts cs n).
Proof.
  intros Hbox Hlen Hpts Hcs. induction n as [|n IH]; [done|].
  rewrite centroids_after_step. by apply step_in_box.
Qed.

(** X11: when all points lie in a box inside [-2^30, 2^30) x [-2^30, 2^30)
    and there are fewer than 2^32 of them, every centroid either engine
    returns lies in that box, for every number of iterations. *)
Theorem centroids_stay_in_box (sched : nat → Framework.schedule)
    (es : Serial.engine) (ef : Framework.engine) (points : list point_t)
    (k iters : nat) (centroids : list point_t) (assignments : list nat)
    (lx hx ly hy : Z) :
  (∀ j, Framework.valid_schedule (sched j)) →
  1 ≤ k ≤ 256 → k ≤ length points →
  small_box lx hx ly hy → (Z.of_nat (length points) < 2 ^ 32)%Z →
  Forall (in_box lx hx ly hy) points →
  ∃ cs asg,
    outputs (Serial.compute (Serial.init (length points) k iters es)
               points k iters centroids assignments) = Done (cs, asg) ∧
    outputs (Framework.compute sched (Framework.init (length points) k iters ef)
               points k iters centroids assignments) = Done (cs, asg) ∧
    Forall (in_box lx hx ly hy) cs.
Proof.
  intros Hv Hk256 Hk Hbox Hlen Hpts.
  rewrite serial_outputs, framework_outputs by (done || lia).
  do 2 eexists. split; [done|]. split; [done|].
  apply centroids_after_in_box; try done. by apply Forall_take.
Qed.

Lemma centroids_stay_in_box_witness :
  ∃ cs asg,
    outputs (Serial.compute (Serial.init 4 2 3 (Serial.Engine [] []))
               [Point 0 0; Point 10 0; Point (-3) 10; Point 10 10] 2 3 [] [])
      = Done (cs, asg) ∧
    outputs (Framework.compute (λ _, Framework.reversed_schedule)
               (Framework.init 4 2 3 (Framework.Engine [] 0))
               [Point 0 0; Point 10 0; Point (-3) 10; Point 10 10] 2 3 [] [])
      = Done (cs, asg) ∧
    Forall (in_box (-3) 10 0 10) cs.
Proof.
  apply (centroids_stay_in_box (λ _, Framework.reversed_schedule)
           (Serial.Engine [] []) (Framework.Engine [] 0)
           [Point 0 0; Point 10 0; Point (-3) 10; Point 10 10] 2 3 [] []).
  - intros _. apply reversed_schedule_valid.
  - lia.
  - simpl. lia.
  - unfold small_box. lia.
  - simpl. lia.
  - repeat constructor; simpl; lia.
Defined.

(** ** No overflow on small coordinates *)





(** * The harness *)

Section harness_facts.
Import Harness.

Lemma batch_limit_pos : 0 < batch_limit.
Proof. Transparent batch_limit. unfold batch_limit. lia. Opaque batch_limit. Qed.

Lemma io_bind_returned {A B} (m : io A) (f : A → io B) w a w' :
  m w = (Returned a, w') → (m ≫= f) w = f a w'.
Proof. intros H. unfold mbind, io_bind. by rewrite H. Qed.

Lemma io_bind_undefined {A B} (m : io A) (f : A → io B) w v w' :
  m w = (Undefined v, w') → (m ≫= f) w = (Undefined v, w').
Proof. intros H. unfold mbind, io_bind. by rewrite H. Qed.

Lemma io_bind_thrown {A B} (m : io A) (f : A → io B) w e w' :
  m w = (Thrown e, w') → (m ≫= f) w = (Thrown e, w').
Proof. intros H. unfold mbind, io_bind. by rewrite H. Qed.

Lemma items_at_length `{ObjectRepr T} bytes pos n :
  length (items_at (T := T) bytes pos n) = n.
Proof. unfold items_at. by rewrite length_fmap, length_seq. Qed.

Lemma items_at_add `{ObjectRepr T} bytes pos a b :
  items_at (T := T) bytes pos (a + b)
  = items_at bytes pos a ++ items_at bytes (pos + a * sizeof) b.
Proof.
  unfold items_at. rewrite seq_app, fmap_app. f_equal.
  replace (0 + a) with (a + 0) by lia.
  rewrite <- (fmap_add_seq a 0 b), <- list_fmap_compose.
  apply list_fmap_ext. intros _ j _. simpl. do 3 f_equal. lia.
Qed.

Lemma read_loop_rounds `{ObjectRepr T} fileName bytes count w rounds :
  ∀ offset (res : list T),
  0 < sizeof → count * sizeof ≤ length bytes →
  offset ≤ count → count - offset ≤ rounds → length res = count →
  read_loop rounds fileName bytes count (offset * sizeof) offset res w
  = (Returned (take offset res ++ items_at bytes (offset * sizeof) (count - offset)), w).
Proof.
  induction rounds as [|rounds IH]; intros offset res Hsz Hlen Hoff Hr Hres.
  - simpl. rewrite decide_False by lia.
    replace (count - offset) with 0 by lia. unfold items_at. simpl.
    by rewrite app_nil_r, take_ge by lia.
  - simpl. destruct (decide (offset < count)) as [Hlt|Hge].
    + pose proof batch_limit_pos.
      set (batch := (count - offset) `min` batch_limit).
      assert (1 ≤ batch ≤ count - offset) as Hb by (unfold batch; lia).
      unfold fread.
      assert (batch `min` ((length bytes - offset * sizeof) `div` sizeof) = batch) as ->.
      { apply Nat.min_l. apply Nat.div_le_lower_bound; [lia|]. nia. }
      rewrite decide_False by lia.
      replace (offset * sizeof + batch * sizeof) with ((offset + batch) * sizeof) by lia.
      rewrite IH; try lia.
      * f_equal. f_equal.
        rewrite take_app_ge by (rewrite length_take; lia).
        rewrite length_take, Nat.min_l by lia.
        rewrite take_app_ge by (rewrite items_at_length; lia).
        rewrite items_at_length.
        replace (offset + batch - offset - batch) with 0 by lia.
        rewrite take_0, app_nil_r, <- app_assoc. f_equal.
        replace (count - offset) with (batch + (count - (offset + batch))) by lia.
        rewrite items_at_add. do 2 f_equal. lia.
      * rewrite !length_app, length_take, items_at_length, length_drop. lia.
    + replace (count - offset) with 0 by lia. unfold items_at. simpl.
      by rewrite app_nil_r, take_ge by lia.
Qed.

(** X13: [load_file] on a file that can be opened returns the complete
    records of the file in file order, one batch after the other, whatever
    the vector held before; the bytes after the last complete record are
    ignored, the read error is never thrown and nothing is changed. *)
Theorem load_file_reads_all_records `{ObjectRepr point_t} (fileName : string)
    (res : list point_t) (w : world) (bytes : list Z) :
  0 < sizeof → files w !! fileName = Some bytes →
  load_file fileName res w
  = (Returned (items_at bytes 0 (length bytes `div` sizeof)), w).
Proof.
  intros Hsz Hf. unfold load_file. rewrite Hf.
  rewrite (read_loop_rounds fileName bytes _ w _ 0); try done; try lia.
  - by rewrite take_0, Nat.sub_0_r.
  - rewrite Nat.mul_comm. apply Nat.Div0.mul_div_le.
  - by rewrite length_resize.
Qed.

Lemma load_file_reads_all_records_witness :
  let bytes := mjoin (to_bytes (ObjectRepr := point_le) <$>
                        [Point 0 0; Point 10 0; Point (-3) 10]) ++ [1; 2; 3]%Z in
  let w := World {[ "points"%string := bytes ]} ∅ 0 [] in
  load_file (H := point_le) "points" [Point 7 7] w
  = (Returned [Point 0 0; Point 10 0; Point (-3) 10], w).
Proof.
  intros bytes w.
  etrans; [apply (load_file_reads_all_records (H := point_le) "points" [Point 7 7]
                    w bytes)|].
  - simpl. lia.
  - reflexivity.
  - vm_compute. reflexivity.
Defined.

Lemma join_to_bytes_length `{ObjectRepr T} (data : list T) :
  (∀ a, length (to_bytes a) = sizeof) →
  length (mjoin (to_bytes <$> data)) = length data * sizeof.
Proof.
  intros Hlen. induction data as [|a data IH]; [done|].
  rewrite fmap_cons.
  change (mjoin (to_bytes a :: (to_bytes <$> data)))
    with (to_bytes a ++ mjoin (to_bytes <$> data)).
  rewrite length_app, Hlen, IH. simpl. lia.
Qed.

Lemma write_loop_rounds `{ObjectRepr T} fileName (data : list T) rounds :
  ∀ offset bytes fs rf q pr,
  0 < sizeof → (∀ a, length (to_bytes a) = sizeof) →
  offset ≤ length data → length data - offset ≤ rounds →
  length bytes + (length data - offset) * sizeof ≤ q →
  write_loop rounds fileName data offset bytes (World (<[fileName := bytes]> fs) rf q pr)
  = (Returned (),
     World (<[fileName := bytes ++ mjoin (to_bytes <$> drop offset data)]> fs) rf q pr).
Proof.
  induction rounds as [|rounds IH]; intros offset bytes fs rf q pr Hsz Hlen Hoff Hr Hq.
  - simpl. rewrite decide_False by lia.
    rewrite drop_ge by lia. simpl. by rewrite app_nil_r.
  - simpl. destruct (decide (offset < length data)) as [Hlt|Hge].
    + pose proof batch_limit_pos.
      set (batch := (length data - offset) `min` batch_limit).
      assert (1 ≤ batch ≤ length data - offset) as Hb by (unfold batch; lia).
      unfold fwrite. simpl.
      assert (batch `min` ((q - length bytes) `div` sizeof) = batch) as ->.
      { apply Nat.min_l. apply Nat.div_le_lower_bound; [lia|]. nia. }
      unfold mbind at 1, io_bind, set_file. simpl.
      rewrite decide_False by lia. rewrite insert_insert_eq.
      rewrite IH; [|lia|done|lia|lia|].
      * do 3 f_equal. rewrite <- app_assoc. f_equal.
        rewrite <- join_app, <- fmap_app. do 2 f_equal.
        rewrite <- (take_drop batch (drop offset data)) at 2.
        by rewrite drop_drop.
      * rewrite length_app, join_to_bytes_length, length_take, length_drop by done. nia.
    + rewrite drop_ge by lia. simpl. by rewrite app_nil_r.
Qed.

Lemma save_file_content `{ObjectRepr T} fileName (data : list T) w :
  0 < sizeof → (∀ a, length (to_bytes a) = sizeof) →
  fileName ∉ refused w → length data * sizeof ≤ quota w →
  save_file fileName data w
  = (Returned (), World (<[fileName := mjoin (to_bytes <$> data)]> (files w))
                    (refused w) (quota w) (printed w)).
Proof.
  intros Hsz Hlen Href Hq. unfold save_file. rewrite decide_False by done.
  unfold mbind, io_bind, set_file.
  rewrite (write_loop_rounds fileName data (length data) 0 []); try done; try lia.
  simpl. lia.
Qed.

Lemma items_at_join `{ObjectRepr T} (data : list T) (rest : list Z) :
  (∀ a, length (to_bytes a) = sizeof) →
  Forall (λ a, of_bytes (to_bytes a) = a) data →
  items_at (mjoin (to_bytes <$> data) ++ rest) 0 (length data) = data.
Proof.
  intros Hlen. induction 1 as [|a data Ha _ IH]; [done|].
  simpl length. replace (S (length data)) with (1 + length data) by lia.
  rewrite items_at_add. simpl. f_equal.
  - rewrite drop_0, <- app_assoc, take_app_length' by done. exact Ha.
  - etrans; [|exact IH]. unfold items_at. apply list_fmap_ext. intros _ j _. simpl.
    do 2 f_equal. rewrite <- app_assoc, Nat.add_0_r.
    rewrite <- (Hlen a) at 1. by rewrite drop_app_add.
Qed.

(** X14: what [save_file] writes, [load_file] reads back. When the file
    can be opened for writing and the records fit under the quota,
    [save_file] returns and leaves a file that holds the object
    representations of the records one after the other, and a later
    [load_file] of that file returns the records that were saved (for an
    object representation that has [sizeof] bytes and reads back what it
    wrote). *)
Theorem save_then_load `{ObjectRepr point_t} (fileName : string)
    (data res : list point_t) (w : world) :
  0 < sizeof → (∀ p, length (to_bytes p) = sizeof) →
  Forall (λ p, of_bytes (to_bytes p) = p) data →
  fileName ∉ refused w → length data * sizeof ≤ quota w →
  ∃ w',
    save_file fileName data w = (Returned (), w') ∧
    files w' = <[fileName := mjoin (to_bytes <$> data)]> (files w) ∧
    load_file fileName res w' = (Returned data, w').
Proof.
  intros Hsz Hlen Hrt Href Hq. eexists. split; [by apply save_file_content|].
  split; [done|].
  rewrite (load_file_reads_all_records fileName res _ (mjoin (to_bytes <$> data)));
    [|done|simpl; by rewrite lookup_insert_eq].
  do 2 f_equal. rewrite join_to_bytes_length, Nat.div_mul by (done || lia).
  rewrite <- (app_nil_r (mjoin _)). by apply items_at_join.
Qed.

Lemma save_then_load_witness :
  ∃ w',
    save_file (H := point_le) "centroids" [Point (-1) 5; Point 10 5]
      (World ∅ ∅ 64 []) = (Returned (), w') ∧
    files w' = <["centroids"%string :=
                  mjoin (to_bytes (ObjectRepr := point_le) <$> [Point (-1) 5; Point 10 5])]> ∅ ∧
    load_file (H := point_le) "centroids" [] w'
    = (Returned [Point (-1) 5; Point 10 5], w').
Proof.
  apply (save_then_load (H := point_le) "centroids" [Point (-1) 5; Point 10 5] []
           (World ∅ ∅ 64 [])).
  - simpl. lia.
  - intros p. reflexivity.
  - repeat constructor.
  - simpl. apply not_elem_of_empty.
  - simpl. lia.
Defined.

Lemma runKmeans_cases (sched : nat → Framework.schedule)
    (uninitialised : nat) (points : list point_t) (k iters : nat)
    (centroids : list point_t) (assignments : list nat) (w : world) :
  (∃ cs asg,
     runKmeans sched uninitialised points k iters centroids assignments w
       = (Returned (cs, asg),
          World (files w) (refused w) (quota w) (printed w ++ [Elapsed])) ∧
     length cs = k ∧ length asg = length points) ∨
  (∃ v, runKmeans sched uninitialised points k iters centroids assignments w
        = (Undefined v, w)).
Proof.
  unfold runKmeans.
  destruct (Framework.compute sched
              (Framework.init (length points) k iters (Framework.Engine [] uninitialised))
              points k iters [] assignments) as [[[e' cs] asg]|v] eqn:Hc.
  - left. exists cs, asg.
    destruct (framework_compute_sizes _ _ _ _ _ _ _ _ _ _ Hc) as (Hcs & Hasg & _).
    unfold mbind, io_bind, lift_outcome. simpl.
    rewrite !decide_False by lia. done.
  - right. by exists v.
Qed.


(** X15: the two size checks of [runKmeans] never fail: for every input and
    schedule, either the engine indexes a vector out of bounds, or
    [runKmeans] returns [k] centroids and one assignment per point after
    printing the elapsed time. *)
Theorem runKmeans_checks_never_fail (sched : nat → Framework.schedule)
    (uninitialised : nat) (points : list point_t) (k iters : nat)
    (centroids : list point_t) (assignments : list nat) (w : world) :
  (∃ cs asg,
     runKmeans sched uninitialised points k iters centroids assignments w
       = (Returned (cs, asg),
          World (files w) (refused w) (quota w) (printed w ++ [Elapsed])) ∧
     length cs = k ∧ length asg = length points) ∨
  (∃ v, runKmeans sched uninitialised points k iters centroids assignments w
        = (Undefined v, w)).
Proof. apply runKmeans_cases. Qed.

Lemma runKmeans_returns sched uninitialised points k iters centroids assignments w :
  (∀ j, Framework.valid_schedule (sched j)) →
  1 ≤ k ≤ 256 → k ≤ length points →
  runKmeans sched uninitialised points k iters centroids assignments w
  = (Returned (centroids_after id points (take k points) iters,
               assignments_after id points (take k points)
                 (resize (length points) 0 assignments) iters),
     World (files w) (refused w) (quota w) (printed w ++ [Elapsed])).
Proof.
  intros Hv Hk256 Hk.
  pose proof (framework_outputs sched (Framework.Engine [] uninitialised) points k iters
                [] assignments Hv Hk256 Hk) as Hout.
  unfold runKmeans.
  destruct (Framework.compute sched
              (Framework.init (length points) k iters (Framework.Engine [] uninitialised))
              points k iters [] assignments) as [[[e' cs] asg]|v] eqn:Hc; [|done].
  destruct (framework_compute_sizes _ _ _ _ _ _ _ _ _ _ Hc) as (Hcs & Hasg & _).
  simpl in Hout. injection Hout as <- <-.
  unfold mbind, io_bind, lift_outcome. simpl.
  rewrite !decide_False by lia. done.
Qed.

Lemma getNumArg_parsed stoul str n :
  stoul str = Some (n, String.length str) → getNumArg stoul str = mret n.
Proof. intros Hs. unfold getNumArg. rewrite Hs. by rewrite decide_False by (intros ?; done). Qed.

Lemma main_five_arguments stoul sched u `{ObjectRepr point_t} (prog pf ks its cf af : string)
    (argv : list string) :
  argv = [prog; pf; ks; its; cf; af] ∨
  argv = [prog; "-debug"%string; pf; ks; its; cf; af] →
  main stoul sched u argv
  = (k ← getNumArg stoul ks;
     iters ← getNumArg stoul its;
     if decide (k = 0 ∨ iters = 0 ∨ 256 < k ∨ 1000 < iters)
     then _ ← print Usage; mret 0
     else
       loaded ← try_catch (points ← load_file pf []; mret (inl points))
                  (λ e, _ ← print (ErrorLine e); _ ← print Usage; mret (inr 1));
       match loaded with
       | inr code => mret code
       | inl points =>
           try_catch
             ('(centroids, assignment) ← runKmeans sched u points k iters [] [];
              _ ← save_file cf centroids;
              _ ← save_file (H := uint8_repr) af assignment;
              mret 0)
             (λ e, _ ← print (Failed e); mret 2)
       end).
Proof.
  intros [->| ->]; unfold main.
  - simpl drop. rewrite (decide_False (P := _ ∧ _)) by (simpl; intros [? _]; lia).
    by rewrite decide_False by (simpl; lia).
  - simpl drop. rewrite (decide_True (P := _ ∧ _)) by done.
    simpl drop. by rewrite decide_False by (simpl; lia).
Qed.

Lemma main_loaded stoul sched u `{ObjectRepr point_t} (prog pf ks its cf af : string)
    (argv : list string) (w : world) (bytes : list Z) (k iters : nat) :
  0 < sizeof →
  argv = [prog; pf; ks; its; cf; af] ∨
  argv = [prog; "-debug"%string; pf; ks; its; cf; af] →
  stoul ks = Some (k, String.length ks) → stoul its = Some (iters, String.length its) →
  1 ≤ k ≤ 256 → 1 ≤ iters ≤ 1000 →
  files w !! pf = Some bytes →
  main stoul sched u argv w
  = try_catch
      ('(centroids, assignment) ←
         runKmeans sched u (items_at bytes 0 (length bytes `div` sizeof)) k iters [] [];
       _ ← save_file cf centroids;
       _ ← save_file (H := uint8_repr) af assignment;
       mret 0)
      (λ e, _ ← print (Failed e); mret 2) w.
Proof.
  intros Hsz Hargv Hks His Hk Hit Hpf.
  rewrite (main_five_arguments _ _ _ prog pf ks its cf af argv Hargv).
  rewrite (getNumArg_parsed _ _ _ Hks), (getNumArg_parsed _ _ _ His).
  unfold mbind at 1 2, io_bind at 1 2, mret, io_ret.
  rewrite decide_False by lia.
  unfold mbind at 1, io_bind at 1, try_catch at 1.
  unfold mbind at 1, io_bind at 1.
  by rewrite (load_file_reads_all_records pf [] w bytes Hsz Hpf).
Qed.

(** X16: with five arguments (after an optional [-debug]) whose numbers
    [std::stoul] parses completely as [1 <= k <= 256] and
    [1 <= iters <= 1000], a points file with at least [k] complete records
    and output files that can be written, [main] returns 0 and prints only
    the elapsed time, the centroid file holds the object representations of
    the [k] centroids, and the assignment file one byte per point, that the
    serial engine computes for the records of the points file. *)
Theorem main_writes_the_clustering (stoul : string → option (nat * nat))
    (sched : nat → Framework.schedule) (u : nat) `{ObjectRepr point_t}
    (es : Serial.engine) (prog pf ks its cf af : string) (argv : list string)
    (w : world) (bytes : list Z) (k iters : nat) :
  (∀ j, Framework.valid_schedule (sched j)) →
  0 < sizeof → (∀ p, length (to_bytes p) = sizeof) →
  argv = [prog; pf; ks; its; cf; af] ∨
  argv = [prog; "-debug"%string; pf; ks; its; cf; af] →
  stoul ks = Some (k, String.length ks) → stoul its = Some (iters, String.length its) →
  1 ≤ k ≤ 256 → 1 ≤ iters ≤ 1000 →
  files w !! pf = Some bytes →
  let points := items_at bytes 0 (length bytes `div` sizeof) in
  k ≤ length points → cf ∉ refused w → af ∉ refused w →
  k * sizeof ≤ quota w → length points ≤ quota w →
  ∃ cs asg,
    outputs (Serial.compute (Serial.init (length points) k iters es)
               points k iters [] []) = Done (cs, asg) ∧
    length cs = k ∧ length asg = length points ∧
    main stoul sched u argv w
    = (Returned 0,
       World (<[af := mjoin (to_bytes (ObjectRepr := uint8_repr) <$> asg)]>
                (<[cf := mjoin (to_bytes <$> cs)]> (files w)))
             (refused w) (quota w) (printed w ++ [Elapsed])).
Proof.
  intros Hv Hsz Hlen Hargv Hks His Hk Hit Hpf points Hpts Hcf Haf Hqc Hqa.
  rewrite serial_outputs by lia.
  set (cs := centroids_after id points (take k points) iters).
  set (asg := assignments_after id points (take k points)
                (resize (length points) 0 []) iters).
  assert (length cs = k) as Hlcs.
  { unfold cs. rewrite centroids_after_length, length_take. lia. }
  assert (length asg = length points) as Hlasg.
  { unfold asg. destruct iters as [|m]; [lia|].
    rewrite assignments_after_S by by rewrite length_resize. by rewrite length_fmap. }
  exists cs, asg. split; [done|]. split; [done|]. split; [done|].
  rewrite (main_loaded _ _ _ prog pf ks its cf af argv w bytes k iters) by done.
  fold points. unfold try_catch, mbind, io_bind.
  rewrite (runKmeans_returns sched u points k iters [] [] w Hv Hk Hpts).
  fold cs asg.
  rewrite (save_file_content cf cs) by (done || simpl; lia).
  rewrite (save_file_content (H := uint8_repr) af asg) by (done || simpl; lia).
  done.
Qed.

Lemma main_writes_the_clustering_witness :
  let stoul := λ s : string,
    if decide (s = "2"%string) then Some (2, 1)
    else if decide (s = "1"%string) then Some (1, 1) else None in
  let bytes := mjoin (to_bytes (ObjectRepr := point_le) <$>
                        [Point 0 0; Point 10 0; Point (-3) 10; Point 10 10]) in
  let w := World {[ "points"%string := bytes ]} ∅ 64 [] in
  let points := items_at (H := point_le) bytes 0 (length bytes `div` 16) in
  ∃ cs asg,
    outputs (Serial.compute (Serial.init (length points) 2 1 (Serial.Engine [] []))
               points 2 1 [] []) = Done (cs, asg) ∧
    length cs = 2 ∧ length asg = length points ∧
    main stoul (λ _, Framework.reversed_schedule) 0 (H := point_le)
      ["kmeans"; "-debug"; "points"; "2"; "1"; "centroids"; "assignments"]%string w
    = (Returned 0,
       World (<["assignments"%string := mjoin (to_bytes (ObjectRepr := uint8_repr) <$> asg)]>
                (<["centroids"%string := mjoin (to_bytes (ObjectRepr := point_le) <$> cs)]>
                   (files w)))
             (refused w) (quota w) (printed w ++ [Elapsed])).
Proof.
  intros stoul bytes w points.
  apply (main_writes_the_clustering stoul (λ _, Framework.reversed_schedule) 0
           (H := point_le) (Serial.Engine [] [])
           "kmeans" "points" "2" "1" "centroids" "assignments" _ w bytes 2 1).
  - intros _. apply reversed_schedule_valid.
  - simpl. lia.
  - intros p. reflexivity.
  - by right.
  - reflexivity.
  - reflexivity.
  - lia.
  - lia.
  - reflexivity.
  - vm_compute. lia.
  - apply not_elem_of_empty.
  - apply not_elem_of_empty.
  - vm_compute. lia.
  - vm_compute. lia.
Defined.

(** In that run the centroid file holds (-1,5) and (10,5) and the
    assignment file the bytes 0, 1, 0, 1. *)
Example main_run :
  let stoul := λ s : string,
    if decide (s = "2"%string) then Some (2, 1)
    else if decide (s = "1"%string) then Some (1, 1) else None in
  let bytes := mjoin (to_bytes (ObjectRepr := point_le) <$>
                        [Point 0 0; Point 10 0; Point (-3) 10; Point 10 10]) in
  let w := World {[ "points"%string := bytes ]} ∅ 64 [] in
  let r := main stoul (λ _, Framework.reversed_schedule) 0 (H := point_le)
             ["kmeans"; "points"; "2"; "1"; "centroids"; "assignments"]%string w in
  r.1 = Returned 0 ∧
  files r.2 !! "assignments"%string = Some [0; 1; 0; 1]%Z ∧
  load_file (H := point_le) "centroids" [] r.2 = (Returned [Point (-1) 5; Point 10 5], r.2).
Proof. vm_compute. done. Qed.

(** X17: [main] rejects arguments before it opens a file. It prints the
    usage and returns 0, leaving the files as they are, when the number of
    arguments is not five (six with [-debug] first), and, with five arguments
    or with [-debug] and five more, when the argument for [k] or [iters] is
    not parsed to its end by [std::stoul] or is outside 1..256 and 1..1000;
    when [std::stoul] throws on one of them, in either form of the argument
    list, the exception leaves [main]. *)
Theorem main_rejects_bad_arguments (stoul : string → option (nat * nat))
    (sched : nat → Framework.schedule) (u : nat) `{ObjectRepr point_t}
    (w : world) :
  let usage := (Returned 0, World (files w) (refused w) (quota w) (printed w ++ [Usage])) in
  (∀ argv,
     length argv - 1 ≠ 5 →
     ¬ (length argv - 1 = 6 ∧ argv !! 1 = Some "-debug"%string) →
     main stoul sched u argv w = usage) ∧
  (∀ prog pf ks its cf af argv vk ik vi ii,
     argv = [prog; pf; ks; its; cf; af] ∨
     argv = [prog; "-debug"%string; pf; ks; its; cf; af] →
     stoul ks = Some (vk, ik) → stoul its = Some (vi, ii) →
     ik ≠ String.length ks ∨ vk = 0 ∨ 256 < vk ∨
     ii ≠ String.length its ∨ vi = 0 ∨ 1000 < vi →
     main stoul sched u argv w = usage) ∧
  (∀ prog pf ks its cf af argv,
     argv = [prog; pf; ks; its; cf; af] ∨
     argv = [prog; "-debug"%string; pf; ks; its; cf; af] →
     stoul ks = None ∨ (is_Some (stoul ks) ∧ stoul its = None) →
     main stoul sched u argv w = (Thrown StoulFailed, w)).
Proof.
  intros usage. split; [|split].
  - intros argv Hn Hd. unfold main.
    rewrite length_drop, lookup_drop in *. simpl in Hd.
    destruct (decide (length argv - 1 = 6 ∧ _)) as [Hyes|Hno]; [done|].
    rewrite length_drop. by rewrite decide_True.
  - intros prog pf ks its cf af argv vk ik vi ii Hargv Hks Hits Hbad.
    rewrite (main_five_arguments _ _ _ prog pf ks its cf af argv Hargv).
    unfold getNumArg. rewrite Hks, Hits.
    unfold mbind at 1 2, io_bind at 1 2, mret, io_ret.
    rewrite decide_True; [done|].
    repeat case_decide; lia.
  - intros prog pf ks its cf af argv Hargv Hnone.
    rewrite (main_five_arguments _ _ _ prog pf ks its cf af argv Hargv).
    unfold getNumArg. destruct Hnone as [->|[[[vk ik] ->] ->]]; done.
Qed.

Lemma main_rejects_bad_arguments_witness :
  let stoul := λ s : string,
    if decide (s = "300"%string) then Some (300, 3)
    else if decide (s = "1"%string) then Some (1, 1)
    else if decide (s = "2x"%string) then Some (2, 1) else None in
  let w := World ∅ ∅ 0 [] in
  let usage := (Returned 0, World ∅ ∅ 0 [Usage]) in
  main stoul (λ _, Framework.sequential_schedule) 0 (H := point_le)
    ["kmeans"; "points"; "2"; "1"]%string w = usage ∧
  main stoul (λ _, Framework.sequential_schedule) 0 (H := point_le)
    ["kmeans"; "points"; "300"; "1"; "centroids"; "assignments"]%string w = usage ∧
  main stoul (λ _, Framework.sequential_schedule) 0 (H := point_le)
    ["kmeans"; "-debug"; "points"; "2x"; "1"; "centroids"; "assignments"]%string w
    = usage ∧
  main stoul (λ _, Framework.sequential_schedule) 0 (H := point_le)
    ["kmeans"; "points"; "two"; "1"; "centroids"; "assignments"]%string w
    = (Thrown StoulFailed, w) ∧
  main stoul (λ _, Framework.sequential_schedule) 0 (H := point_le)
    ["kmeans"; "-debug"; "points"; "1"; "two"; "centroids"; "assignments"]%string w
    = (Thrown StoulFailed, w).
Proof.
  intros stoul w usage.
  pose proof (main_rejects_bad_arguments stoul (λ _, Framework.sequential_schedule) 0
                (H := point_le) w) as (Hcount & Hrange & Hthrow).
  split; [|split; [|split; [|split]]].
  - apply Hcount; simpl; [lia|]. intros [? _]. lia.
  - apply (Hrange "kmeans" "points" "300" "1" "centroids" "assignments" _ 300 3 1 1)%string;
      [by left|reflexivity..|]. simpl. lia.
  - apply (Hrange "kmeans" "points" "2x" "1" "centroids" "assignments" _ 2 1 1 1)%string;
      [by right|reflexivity..|]. simpl. lia.
  - apply (Hthrow "kmeans" "points" "two" "1" "centroids" "assignments")%string;
      [by left|by left].
  - apply (Hthrow "kmeans" "points" "1" "two" "centroids" "assignments")%string;
      [by right|]. right. split; [by eexists|reflexivity].
Defined.

(** X18: [main] does not compare the number of points with [k]. With
    arguments that pass its checks and a points file that holds fewer than
    [k] complete records, the engine indexes the point vector past its end
    while it takes the seeds; nothing is printed or written before. *)
Theorem main_reads_past_few_points (stoul : string → option (nat * nat))
    (sched : nat → Framework.schedule) (u : nat) `{ObjectRepr point_t}
    (prog pf ks its cf af : string) (argv : list string)
    (w : world) (bytes : list Z) (k iters : nat) :
  0 < sizeof →
  argv = [prog; pf; ks; its; cf; af] ∨
  argv = [prog; "-debug"%string; pf; ks; its; cf; af] →
  stoul ks = Some (k, String.length ks) → stoul its = Some (iters, String.length its) →
  1 ≤ k ≤ 256 → 1 ≤ iters ≤ 1000 →
  files w !! pf = Some bytes → length bytes `div` sizeof < k →
  main stoul sched u argv w = (Undefined Points, w).
Proof.
  intros Hsz Hargv Hks His Hk Hit Hpf Hfew.
  rewrite (main_loaded _ _ _ prog pf ks its cf af argv w bytes k iters) by done.
  unfold try_catch, mbind, io_bind, runKmeans.
  rewrite framework_compute_few_points; [done|].
  by rewrite items_at_length.
Qed.

Lemma main_reads_past_few_points_witness :
  let stoul := λ s : string,
    if decide (s = "2"%string) then Some (2, 1)
    else if decide (s = "1"%string) then Some (1, 1) else None in
  let w := World {[ "points"%string :=
                     to_bytes (ObjectRepr := point_le) (Point 4 4) ++ [1; 2; 3]%Z ]}
             ∅ 64 [] in
  main stoul (λ _, Framework.sequential_schedule) 0 (H := point_le)
    ["kmeans"; "points"; "2"; "1"; "centroids"; "assignments"]%string w
  = (Undefined Points, w).
Proof.
  intros stoul w.
  apply (main_reads_past_few_points stoul (λ _, Framework.sequential_schedule) 0
           (H := point_le) "kmeans" "points" "2" "1" "centroids" "assignments" _ w
           (to_bytes (ObjectRepr := point_le) (Point 4 4) ++ [1; 2; 3]%Z) 2 1).
  - simpl. lia.
  - by left.
  - reflexivity.
  - reflexivity.
  - lia.
  - lia.
  - reflexivity.
  - vm_compute. lia.
Defined.

(** X19: files that cannot be opened. With arguments that pass the checks
    of [main]: when the points file cannot be opened, [main] prints the
    error and the usage and returns 1; when the centroid file cannot be
    opened for writing, it returns 2 after the run and writes nothing; when
    only the assignment file cannot be opened, it returns 2 and the centroid
    file has already been written. *)
Theorem main_reports_unopenable_files (stoul : string → option (nat * nat))
    (sched : nat → Framework.schedule) (u : nat) `{ObjectRepr point_t}
    (prog pf ks its cf af : string) (argv : list string)
    (w : world) (k iters : nat) :
  (∀ j, Framework.valid_schedule (sched j)) →
  0 < sizeof → (∀ p, length (to_bytes p) = sizeof) →
  argv = [prog; pf; ks; its; cf; af] ∨
  argv = [prog; "-debug"%string; pf; ks; its; cf; af] →
  stoul ks = Some (k, String.length ks) → stoul its = Some (iters, String.length its) →
  1 ≤ k ≤ 256 → 1 ≤ iters ≤ 1000 →
  (files w !! pf = None →
   main stoul sched u argv w
   = (Returned 1, World (files w) (refused w) (quota w)
                    (printed w ++ [ErrorLine (CannotOpenForReading pf); Usage]))) ∧
  (∀ bytes,
     files w !! pf = Some bytes → k ≤ length bytes `div` sizeof →
     k * sizeof ≤ quota w →
     (cf ∈ refused w →
      main stoul sched u argv w
      = (Returned 2, World (files w) (refused w) (quota w)
                       (printed w ++ [Elapsed; Failed (CannotOpenForWriting cf)]))) ∧
     (cf ∉ refused w → af ∈ refused w →
      ∃ cs, length cs = k ∧
        main stoul sched u argv w
        = (Returned 2, World (<[cf := mjoin (to_bytes <$> cs)]> (files w))
                         (refused w) (quota w)
                         (printed w ++ [Elapsed; Failed (CannotOpenForWriting af)])))).
Proof.
  intros Hv Hsz Hlen Hargv Hks His Hk Hit. split.
  - intros Hpf.
    rewrite (main_five_arguments _ _ _ prog pf ks its cf af argv Hargv).
    rewrite (getNumArg_parsed _ _ _ Hks), (getNumArg_parsed _ _ _ His).
    unfold mbind at 1 2, io_bind at 1 2, mret, io_ret.
    rewrite decide_False by lia.
    unfold mbind at 1, io_bind at 1, try_catch at 1.
    unfold mbind at 1, io_bind at 1.
    unfold load_file at 1. rewrite Hpf.
    unfold mbind, io_bind, print. simpl. by rewrite <- app_assoc.
  - intros bytes Hpf Hpts Hq.
    rewrite (main_loaded _ _ _ prog pf ks its cf af argv w bytes k iters) by done.
    set (points := items_at bytes 0 (length bytes `div` sizeof)).
    assert (k ≤ length points) by (unfold points; by rewrite items_at_length).
    unfold try_catch, mbind, io_bind.
    rewrite (runKmeans_returns sched u points k iters [] [] w Hv Hk) by done.
    set (cs := centroids_after id points (take k points) iters).
    assert (length cs = k) as Hlcs.
    { unfold cs. rewrite centroids_after_length, length_take. lia. }
    split.
    + intros Hcf. unfold save_file at 1. simpl.
      rewrite decide_True by done. unfold print. simpl. by rewrite <- app_assoc.
    + intros Hcf Haf. exists cs. split; [done|].
      rewrite (save_file_content cf cs) by (done || simpl; lia).
      unfold save_file. simpl. rewrite decide_True by done.
      unfold print. simpl. by rewrite <- app_assoc.
Qed.

Lemma main_reports_unopenable_files_witness :
  let stoul := λ s : string,
    if decide (s = "2"%string) then Some (2, 1)
    else if decide (s = "1"%string) then Some (1, 1) else None in
  let bytes := mjoin (to_bytes (ObjectRepr := point_le) <$>
                        [Point 0 0; Point 10 0; Point (-3) 10; Point 10 10]) in
  main stoul (λ _, Framework.sequential_schedule) 0 (H := point_le)
    ["kmeans"; "points"; "2"; "1"; "centroids"; "assignments"]%string (World ∅ ∅ 64 [])
  = (Returned 1, World ∅ ∅ 64 [ErrorLine (CannotOpenForReading "points"); Usage]) ∧
  main stoul (λ _, Framework.sequential_schedule) 0 (H := point_le)
    ["kmeans"; "points"; "2"; "1"; "centroids"; "assignments"]%string
    (World {[ "points"%string := bytes ]} {[ "centroids"%string ]} 64 [])
  = (Returned 2, World {[ "points"%string := bytes ]} {[ "centroids"%string ]} 64
                   [Elapsed; Failed (CannotOpenForWriting "centroids")]).
Proof.
  intros stoul bytes. split.
  - apply (main_reports_unopenable_files stoul (λ _, Framework.sequential_schedule) 0
             (H := point_le) "kmeans" "points" "2" "1" "centroids" "assignments" _
             (World ∅ ∅ 64 []) 2 1);
      [intros j; apply sequential_schedule_valid|simpl; lia|by intros p|by left
      |reflexivity|reflexivity|lia|lia|reflexivity].
  - pose proof (main_reports_unopenable_files stoul (λ _, Framework.sequential_schedule) 0
             (H := point_le) "kmeans" "points" "2" "1" "centroids" "assignments" _
             (World {[ "points"%string := bytes ]} {[ "centroids"%string ]} 64 []) 2 1
             ltac:(intros j; apply sequential_schedule_valid) ltac:(simpl; lia)
             ltac:(by intros p) ltac:(by left) eq_refl eq_refl ltac:(lia) ltac:(lia))
      as [_ Hopened].
    destruct (Hopened bytes eq_refl ltac:(vm_compute; lia) ltac:(simpl; lia))
      as [Hcentroids _].
    apply Hcentroids. simpl. by apply elem_of_singleton.
Defined.

End harness_facts.
